(** * LyShine IDraw2d.h: the 2D drawing interface and its scoped helper

    A shallow embedding of [Gems/LyShine/Code/Include/LyShine/IDraw2d.h]:
    the option records of [IDraw2d], the abstract engine interface, the
    [Draw2dHelper] wrapper (constructor, destructor, forwarding draw calls,
    setters) and the two static coordinate utilities [Align] and [RoundXY].

    Coordinates are C++ [float]s.  They are modelled as IEEE-754 binary32
    values over the parametric specification of [Corelib.Floats.SpecFloat]
    (precision 24, maximal exponent 128), so rounding, signed zeros,
    infinities and NaN behave as they do in the compiled code. *)

From stdpp Require Import base option gmap.
From Stdlib Require Import ZArith Lia Bool String.
From Stdlib Require Import Floats.SpecFloat.

Local Open Scope Z_scope.

(** ** Binary32 arithmetic *)

Module F32.

Definition prec : Z := 24.
Definition emax : Z := 128.

(** A C++ [float]. *)
Definition float32 : Type := spec_float.

Definition valid (x : float32) : bool := valid_binary prec emax x.

Definition add (x y : float32) : float32 := SFadd prec emax x y.
Definition sub (x y : float32) : float32 := SFsub prec emax x y.
Definition mul (x y : float32) : float32 := SFmul prec emax x y.
Definition div (x y : float32) : float32 := SFdiv prec emax x y.
Definition opp (x : float32) : float32 := SFopp x.

(** The comparison [==] of two floats: NaN differs from everything,
    the two zeros are equal. *)
Definition eqb (x y : float32) : bool := SFeqb x y.

(** Conversion of an integer constant, rounded to nearest-even. *)
Definition of_Z (n : Z) : float32 := binary_normalize prec emax n 0 false.

(** A decimal literal [n/d], rounded once to the nearest float, which is
    what the compiler does with [3.4f]. *)
Definition of_ratio (n d : Z) : float32 := div (of_Z n) (of_Z d).

Definition zero : float32 := S754_zero false.
Definition one : float32 := of_Z 1.
Definition half : float32 := of_ratio 1 2.

Definition is_finite (x : float32) : bool :=
  match x with
  | S754_zero _ | S754_finite _ _ _ => true
  | _ => false
  end.

(** [floor] of the C library on a float: infinities, NaN and both zeros
    are returned unchanged; a finite value [(-1)^s * m * 2^e] with [e >= 0]
    is already an integer; otherwise the mantissa, taken with its sign, is
    shifted right by [-e] places (an arithmetic shift, so it rounds toward
    minus infinity) and the integer is converted back, which is exact as
    it has fewer than 24 bits. *)
Definition floor (x : float32) : float32 :=
  match x with
  | S754_finite s m e =>
      if 0 <=? e then x
      else binary_normalize prec emax
             (Z.shiftr (cond_Zopp s (Zpos m)) (- e)) 0 s
  | _ => x
  end.

(** [ceil] of the C library: the mirror image of [floor]; a negative value
    above [-1] gives the negative zero. *)
Definition ceil (x : float32) : float32 :=
  match x with
  | S754_finite s m e =>
      if 0 <=? e then x
      else binary_normalize prec emax
             (- Z.shiftr (- cond_Zopp s (Zpos m)) (- e)) 0 s
  | _ => x
  end.

(** The exact value of a finite float in units of [2^-149], the smallest
    positive binary32 number; [None] for infinities and NaN. *)
Definition scaled (x : float32) : option Z :=
  match x with
  | S754_zero _ => Some 0
  | S754_finite s m e => Some (cond_Zopp s (Z.shiftl (Zpos m) (e + 149)))
  | _ => None
  end.

(** [x] denotes a mathematical integer. *)
Definition integer_valued (x : float32) : Prop :=
  exists n : Z, scaled x = Some (n * 2 ^ 149).

End F32.

Abbreviation float32 := F32.float32.

(** ** AzCore math types used by the header *)

Module Vector2.
Record t : Type := mk { x : float32; y : float32 }.

Definition CreateZero : t := mk F32.zero F32.zero.
Definition GetX (v : t) : float32 := x v.
Definition GetY (v : t) : float32 := y v.
Definition SetX (v : t) (a : float32) : t := mk a (y v).
Definition SetY (v : t) (a : float32) : t := mk (x v) a.

(** [operator==]: componentwise float comparison. *)
Definition eqb (v w : t) : bool := F32.eqb (x v) (x w) && F32.eqb (y v) (y w).
End Vector2.

Module Vector3.
Record t : Type := mk { x : float32; y : float32; z : float32 }.

Definition GetX (v : t) : float32 := x v.
Definition GetY (v : t) : float32 := y v.
Definition SetX (v : t) (a : float32) : t := mk a (y v) (z v).
Definition SetY (v : t) (a : float32) : t := mk (x v) a (z v).
End Vector3.

Module Color.
Record t : Type := mk { r : float32; g : float32; b : float32; a : float32 }.
End Color.

(** What the template parameter [T] of [RoundXY] has to provide. *)
Class HasXY (T : Type) : Type := {
  GetX : T -> float32;
  GetY : T -> float32;
  SetX : T -> float32 -> T;
  SetY : T -> float32 -> T
}.

#[export] Instance Vector2_HasXY : HasXY Vector2.t :=
  {| GetX := Vector2.GetX; GetY := Vector2.GetY;
     SetX := Vector2.SetX; SetY := Vector2.SetY |}.

#[export] Instance Vector3_HasXY : HasXY Vector3.t :=
  {| GetX := Vector3.GetX; GetY := Vector3.GetY;
     SetX := Vector3.SetX; SetY := Vector3.SetY |}.

(** ** The types of [IDraw2d] *)

Module IDraw2d.

(** *** Enumerations *)

Module HAlign.
Inductive t : Set := Left | Center | Right.
End HAlign.

Module VAlign.
Inductive t : Set := Top | Center | Bottom.
End VAlign.

Module Rounding.
Inductive t : Set := None | Nearest | Down | Up.
End Rounding.

(** *** Render state and option records *)

(** [AZ::RHI::BlendFactor], declared in Atom's RenderStates.h. *)
Module BlendFactor.
Inductive t : Set :=
| Zero | One
| ColorSource | ColorSourceInverse
| AlphaSource | AlphaSourceInverse
| AlphaDest | AlphaDestInverse
| ColorDest | ColorDestInverse.
End BlendFactor.

(** The members of [AZ::RHI::TargetBlendState] this header assigns. *)
Module TargetBlendState.
Record t : Type := mk {
  m_enable : bool;
  m_blendSource : BlendFactor.t;
  m_blendDest : BlendFactor.t
}.
End TargetBlendState.

(** The member of [AZ::RHI::DepthState] this header assigns. *)
Module DepthState.
Record t : Type := mk { m_enable : bool }.
End DepthState.

Module RenderState.
Record t : Type := mk {
  m_blendState : TargetBlendState.t;
  m_depthState : DepthState.t
}.

(** [RenderState::RenderState()] *)
Definition ctor : t :=
  {| m_blendState :=
       {| TargetBlendState.m_enable := true;
          TargetBlendState.m_blendSource := BlendFactor.AlphaSource;
          TargetBlendState.m_blendDest := BlendFactor.AlphaSourceInverse |};
     m_depthState := {| DepthState.m_enable := false |} |}.
End RenderState.

Module ImageOptions.
Record t : Type := mk {
  color : Vector3.t;
  pixelRounding : Rounding.t;
  m_clamp : bool;
  m_renderState : RenderState.t
}.

(** The default member initialisers of the struct. *)
Definition ctor : t :=
  {| color := Vector3.mk F32.one F32.one F32.one;
     pixelRounding := Rounding.Nearest;
     m_clamp := false;
     m_renderState := RenderState.ctor |}.
End ImageOptions.

Module TextOptions.
Record t : Type := mk {
  fontName : string;
  effectIndex : N;
  color : Vector3.t;
  horizontalAlignment : HAlign.t;
  verticalAlignment : VAlign.t;
  dropShadowOffset : Vector2.t;
  dropShadowColor : Color.t;
  rotation : float32;
  depthTestEnabled : bool
}.

(** Default initialisation of the struct.  It declares no constructor and
    no default member initialiser: [fontName] is built by the string
    class as the empty string, and every other member keeps whatever the
    storage held before, here [storage]. *)
Definition default_init (storage : t) : t :=
  {| fontName := EmptyString;
     effectIndex := effectIndex storage;
     color := color storage;
     horizontalAlignment := horizontalAlignment storage;
     verticalAlignment := verticalAlignment storage;
     dropShadowOffset := dropShadowOffset storage;
     dropShadowColor := dropShadowColor storage;
     rotation := rotation storage;
     depthTestEnabled := depthTestEnabled storage |}.

(** Modelled from the spec: the engine's default text options.  The engine
    constructor that fills them in is not part of this header; the values
    are those the spec and the member comments of the struct document
    (font "default", effect 0, white, Left/Top, no drop shadow,
    rotation 0, no depth test). *)
Definition documented_defaults : t :=
  {| fontName := "default";
     effectIndex := 0%N;
     color := Vector3.mk F32.one F32.one F32.one;
     horizontalAlignment := HAlign.Left;
     verticalAlignment := VAlign.Top;
     dropShadowOffset := Vector2.mk F32.zero F32.zero;
     dropShadowColor := Color.mk F32.zero F32.zero F32.zero F32.zero;
     rotation := F32.zero;
     depthTestEnabled := false |}.

(** A drop shadow is drawn only when its colour has a non-zero alpha. *)
Definition drop_shadow_active (o : t) : bool :=
  negb (F32.eqb (Color.a (dropShadowColor o)) F32.zero).
End TextOptions.

Module VertexPosColUV.
Record t : Type := mk {
  position : Vector2.t;
  color : Color.t;
  uv : Vector2.t
}.
End VertexPosColUV.

(** [UiTransformInterface::RectPoints]: the four corners of a rectangle. *)
Module RectPoints.
Record t : Type := mk {
  TopLeft : Vector2.t; TopRight : Vector2.t;
  BottomRight : Vector2.t; BottomLeft : Vector2.t
}.
End RectPoints.

(** [AZ::Data::Instance<AZ::RPI::Image>]: a possibly null reference to an
    image resource, identified here by a number. *)
Definition ImageInstance : Type := option nat.

(** *** The engine interface *)

(** The pure virtual member functions of [IDraw2d].  An implementation is a
    state type [E] with one transition or query per member function.
    Pointer parameters that may be null are options; the vertex arrays are
    lists; option records passed by pointer are read, not written.  The
    header declares [GetTextSize] and [GetDeferPrimitives] without [const];
    as the specification describes them as queries without side effects,
    they return a value and leave the state alone. *)
Class Engine (E : Type) : Type := {
  DrawImage : E -> ImageInstance -> Vector2.t -> Vector2.t -> float32 -> float32 ->
              option Vector2.t -> option (Vector2.t * Vector2.t) ->
              option ImageOptions.t -> E;
  DrawImageAligned : E -> ImageInstance -> Vector2.t -> Vector2.t ->
              HAlign.t -> VAlign.t -> float32 -> float32 ->
              option (Vector2.t * Vector2.t) -> option ImageOptions.t -> E;
  DrawQuad : E -> ImageInstance -> list VertexPosColUV.t -> Rounding.t -> bool ->
              RenderState.t -> E;
  DrawLine : E -> Vector2.t -> Vector2.t -> Color.t -> Rounding.t -> RenderState.t -> E;
  DrawLineTextured : E -> ImageInstance -> list VertexPosColUV.t -> Rounding.t ->
              RenderState.t -> E;
  DrawText : E -> string -> Vector2.t -> float32 -> float32 -> option TextOptions.t -> E;
  DrawRectOutlineTextured : E -> ImageInstance -> RectPoints.t -> Vector2.t ->
              Vector2.t -> Color.t -> N -> E;
  GetTextSize : E -> string -> float32 -> option TextOptions.t -> Vector2.t;
  GetViewportWidth : E -> float32;
  GetViewportHeight : E -> float32;
  GetViewportDpiScalingFactor : E -> float32;
  GetDefaultImageOptions : E -> ImageOptions.t;
  GetDefaultTextOptions : E -> TextOptions.t;
  RenderDeferredPrimitives : E -> E;
  SetDeferPrimitives : E -> bool -> E;
  GetDeferPrimitives : E -> bool;
  SetSortKey : E -> Z -> E
}.

(** Modelled from the spec: what every engine guarantees about its defer
    flag.  [GetDeferPrimitives] reads back what [SetDeferPrimitives] wrote,
    and the flag is separate from the default option records. *)
Class EngineLaws (E : Type) `{Engine E} : Prop := {
  GetDeferPrimitives_SetDeferPrimitives :
    forall (e : E) (b : bool), GetDeferPrimitives (SetDeferPrimitives e b) = b;
  GetDefaultImageOptions_SetDeferPrimitives :
    forall (e : E) (b : bool),
      GetDefaultImageOptions (SetDeferPrimitives e b) = GetDefaultImageOptions e;
  GetDefaultTextOptions_SetDeferPrimitives :
    forall (e : E) (b : bool),
      GetDefaultTextOptions (SetDeferPrimitives e b) = GetDefaultTextOptions e
}.

End IDraw2d.

Import IDraw2d.

(** ** The static utilities of [Draw2dHelper] *)

(** [Draw2dHelper::Align] *)
Definition Align (position size : Vector2.t)
    (horizontalAlignment : HAlign.t) (verticalAlignment : VAlign.t) : Vector2.t :=
  let result := Vector2.CreateZero in
  let result :=
    match horizontalAlignment with
    | HAlign.Left => Vector2.SetX result (Vector2.GetX position)
    | HAlign.Center =>
        Vector2.SetX result
          (F32.sub (Vector2.GetX position) (F32.mul (Vector2.GetX size) F32.half))
    | HAlign.Right =>
        Vector2.SetX result (F32.sub (Vector2.GetX position) (Vector2.GetX size))
    end in
  let result :=
    match verticalAlignment with
    | VAlign.Top => Vector2.SetY result (Vector2.GetY position)
    | VAlign.Center =>
        Vector2.SetY result
          (F32.sub (Vector2.GetY position) (F32.mul (Vector2.GetY size) F32.half))
    | VAlign.Bottom =>
        Vector2.SetY result (F32.sub (Vector2.GetY position) (Vector2.GetY size))
    end in
  result.

(** [Draw2dHelper::RoundXY<T>] *)
Definition RoundXY {T : Type} `{HasXY T} (value : T) (roundingType : Rounding.t) : T :=
  let result := value in
  match roundingType with
  | Rounding.None => result
  | Rounding.Nearest =>
      let result := SetX result (F32.floor (F32.add (GetX value) F32.half)) in
      SetY result (F32.floor (F32.add (GetY value) F32.half))
  | Rounding.Down =>
      let result := SetX result (F32.floor (GetX value)) in
      SetY result (F32.floor (GetY value))
  | Rounding.Up =>
      let result := SetX result (F32.ceil (GetX value)) in
      SetY result (F32.ceil (GetY value))
  end.

(** ** Engines in memory *)

(** [ILyShine::GetDraw2d] returns the game's engine, possibly null. *)
Module ILyShine.
Record t : Type := mk { GetDraw2d : option nat }.
End ILyShine.

(** The global environment [gEnv]; only [pLyShine] is read here. *)
Module SSystemGlobalEnvironment.
Record t : Type := mk { pLyShine : option ILyShine.t }.
End SSystemGlobalEnvironment.

(** The part of the program state the helper can reach: the engine objects,
    by address, and the global pointer [gEnv].  Several helpers may hold the
    same address, so they share the engine stored there. *)
Record World (E : Type) : Type := mkWorld {
  engines : gmap nat E;
  gEnv : option SSystemGlobalEnvironment.t
}.
Arguments mkWorld {E} _ _.
Arguments engines {E} _.
Arguments gEnv {E} _.

(** Member functions run in a state monad over the world; a call through a
    pointer that holds no engine has no defined behaviour and yields
    [None]. *)
Definition M (E A : Type) : Type := World E -> option (A * World E).

#[export] Instance M_ret {E : Type} : MRet (M E) :=
  fun A (a : A) (w : World E) => Some (a, w).

#[export] Instance M_bind {E : Type} : MBind (M E) :=
  fun A B (k : A -> M E B) (c : M E A) (w : World E) =>
    match c w with
    | Some (a, w') => k a w'
    | None => None
    end.

(** [p->f()] for a member function that only reads the engine. *)
Definition query {E A : Type} (p : nat) (f : E -> A) : M E A :=
  fun w => match engines w !! p with
           | Some e => Some (f e, w)
           | None => None
           end.

(** [p->f()] for a member function that changes the engine. *)
Definition invoke {E : Type} (p : nat) (f : E -> E) : M E unit :=
  fun w => match engines w !! p with
           | Some e => Some (tt, mkWorld (<[p := f e]> (engines w)) (gEnv w))
           | None => None
           end.

(** ** The scoped helper *)

Module Draw2dHelper.

Record t : Type := mk {
  m_imageOptions : ImageOptions.t;
  m_textOptions : TextOptions.t;
  m_draw2d : option nat;
  m_previousDeferCalls : bool
}.

Definition with_imageOptions (this : t) (o : ImageOptions.t) : t :=
  mk o (m_textOptions this) (m_draw2d this) (m_previousDeferCalls this).

Definition with_textOptions (this : t) (o : TextOptions.t) : t :=
  mk (m_imageOptions this) o (m_draw2d this) (m_previousDeferCalls this).

Definition with_draw2d (this : t) (p : option nat) : t :=
  mk (m_imageOptions this) (m_textOptions this) p (m_previousDeferCalls this).

(** The members as they are when a constructor body starts: the image
    options have default member initialisers, the text options are default
    initialised, and the pointer and the saved flag are whatever [storage]
    held. *)
Definition members_init (storage : t) : t :=
  {| m_imageOptions := ImageOptions.ctor;
     m_textOptions := TextOptions.default_init (m_textOptions storage);
     m_draw2d := m_draw2d storage;
     m_previousDeferCalls := m_previousDeferCalls storage |}.

Section Methods.
Context {E : Type} `{IDraw2d.Engine E}.

(** [Draw2dHelper::GetDefaultDraw2d] *)
Definition GetDefaultDraw2d : M E (option nat) :=
  fun w =>
    match gEnv w with
    | Some env =>
        match SSystemGlobalEnvironment.pLyShine env with
        | Some lyShine => Some (ILyShine.GetDraw2d lyShine, w)
        | None => Some (None, w)
        end
    | None => Some (None, w)
    end.

(** [Draw2dHelper::InitCommon] *)
Definition InitCommon (this : t) (draw2d : option nat) (deferCalls : bool) : M E t :=
  let this := with_draw2d this draw2d in
  this ← match m_draw2d this with
         | None => d ← GetDefaultDraw2d; mret (with_draw2d this d)
         | Some _ => mret this
         end;
  match m_draw2d this with
  | Some p =>
      previous ← query p IDraw2d.GetDeferPrimitives;
      _ ← invoke p (fun e => IDraw2d.SetDeferPrimitives e deferCalls);
      imageOptions ← query p IDraw2d.GetDefaultImageOptions;
      textOptions ← query p IDraw2d.GetDefaultTextOptions;
      mret {| m_imageOptions := imageOptions;
              m_textOptions := textOptions;
              m_draw2d := m_draw2d this;
              m_previousDeferCalls := previous |}
  | None => mret this
  end.

(** [Draw2dHelper(bool deferCalls)] *)
Definition ctor_default (storage : t) (deferCalls : bool) : M E t :=
  InitCommon (members_init storage) None deferCalls.

(** [Draw2dHelper(IDraw2d* draw2d, bool deferCalls)] *)
Definition ctor (storage : t) (draw2d : option nat) (deferCalls : bool) : M E t :=
  InitCommon (members_init storage) draw2d deferCalls.

(** [~Draw2dHelper] *)
Definition dtor (this : t) : M E unit :=
  match m_draw2d this with
  | Some p => invoke p (fun e => IDraw2d.SetDeferPrimitives e (m_previousDeferCalls this))
  | None => mret tt
  end.

Definition DrawImage (this : t) (image : ImageInstance) (position size : Vector2.t)
    (opacity rotation : float32) (pivotPoint : option Vector2.t)
    (minMaxTexCoords : option (Vector2.t * Vector2.t)) : M E unit :=
  match m_draw2d this with
  | Some p =>
      invoke p (fun e => IDraw2d.DrawImage e image position size opacity rotation
                           pivotPoint minMaxTexCoords (Some (m_imageOptions this)))
  | None => mret tt
  end.

Definition DrawImageAligned (this : t) (image : ImageInstance)
    (position size : Vector2.t)
    (horizontalAlignment : HAlign.t) (verticalAlignment : VAlign.t)
    (opacity rotation : float32)
    (minMaxTexCoords : option (Vector2.t * Vector2.t)) : M E unit :=
  match m_draw2d this with
  | Some p =>
      invoke p (fun e => IDraw2d.DrawImageAligned e image position size
                           horizontalAlignment verticalAlignment opacity rotation
                           minMaxTexCoords (Some (m_imageOptions this)))
  | None => mret tt
  end.

Definition DrawQuad (this : t) (image : ImageInstance) (verts : list VertexPosColUV.t)
    (pixelRounding : Rounding.t) (clamp : bool) (renderState : RenderState.t)
    : M E unit :=
  match m_draw2d this with
  | Some p => invoke p (fun e => IDraw2d.DrawQuad e image verts pixelRounding clamp renderState)
  | None => mret tt
  end.

Definition DrawLine (this : t) (start end_ : Vector2.t) (color : Color.t)
    (pixelRounding : Rounding.t) (renderState : RenderState.t) : M E unit :=
  match m_draw2d this with
  | Some p => invoke p (fun e => IDraw2d.DrawLine e start end_ color pixelRounding renderState)
  | None => mret tt
  end.

Definition DrawLineTextured (this : t) (image : ImageInstance)
    (verts : list VertexPosColUV.t) (pixelRounding : Rounding.t)
    (renderState : RenderState.t) : M E unit :=
  match m_draw2d this with
  | Some p =>
      invoke p (fun e => IDraw2d.DrawLineTextured e image verts pixelRounding renderState)
  | None => mret tt
  end.

Definition DrawRectOutlineTextured (this : t) (image : ImageInstance)
    (points : RectPoints.t) (rightVec downVec : Vector2.t) (color : Color.t)
    (lineThickness : N) : M E unit :=
  match m_draw2d this with
  | Some p =>
      invoke p (fun e => IDraw2d.DrawRectOutlineTextured e image points rightVec downVec
                           color lineThickness)
  | None => mret tt
  end.

Definition DrawText (this : t) (textString : string) (position : Vector2.t)
    (pointSize opacity : float32) : M E unit :=
  match m_draw2d this with
  | Some p =>
      invoke p (fun e => IDraw2d.DrawText e textString position pointSize opacity
                           (Some (m_textOptions this)))
  | None => mret tt
  end.

Definition GetTextSize (this : t) (textString : string) (pointSize : float32)
    : M E Vector2.t :=
  match m_draw2d this with
  | Some p =>
      query p (fun e => IDraw2d.GetTextSize e textString pointSize (Some (m_textOptions this)))
  | None => mret (Vector2.mk (F32.of_Z 0) (F32.of_Z 0))
  end.

(** State management: the setters. *)

Definition SetImageBlendMode (this : t) (blendState : TargetBlendState.t) : M E t :=
  let o := m_imageOptions this in
  mret (with_imageOptions this
          (ImageOptions.mk (ImageOptions.color o) (ImageOptions.pixelRounding o)
             (ImageOptions.m_clamp o)
             (RenderState.mk blendState
                (RenderState.m_depthState (ImageOptions.m_renderState o))))).

Definition SetImageColor (this : t) (color : Vector3.t) : M E t :=
  let o := m_imageOptions this in
  mret (with_imageOptions this
          (ImageOptions.mk color (ImageOptions.pixelRounding o)
             (ImageOptions.m_clamp o) (ImageOptions.m_renderState o))).

Definition SetImagePixelRounding (this : t) (round : Rounding.t) : M E t :=
  let o := m_imageOptions this in
  mret (with_imageOptions this
          (ImageOptions.mk (ImageOptions.color o) round
             (ImageOptions.m_clamp o) (ImageOptions.m_renderState o))).

Definition SetImageDepthState (this : t) (depthState : DepthState.t) : M E t :=
  let o := m_imageOptions this in
  mret (with_imageOptions this
          (ImageOptions.mk (ImageOptions.color o) (ImageOptions.pixelRounding o)
             (ImageOptions.m_clamp o)
             (RenderState.mk
                (RenderState.m_blendState (ImageOptions.m_renderState o))
                depthState))).

Definition SetImageClamp (this : t) (clamp : bool) : M E t :=
  let o := m_imageOptions this in
  mret (with_imageOptions this
          (ImageOptions.mk (ImageOptions.color o) (ImageOptions.pixelRounding o)
             clamp (ImageOptions.m_renderState o))).

Definition SetTextFont (this : t) (fontName : string) : M E t :=
  let o := m_textOptions this in
  mret (with_textOptions this
          (TextOptions.mk fontName (TextOptions.effectIndex o) (TextOptions.color o)
             (TextOptions.horizontalAlignment o) (TextOptions.verticalAlignment o)
             (TextOptions.dropShadowOffset o) (TextOptions.dropShadowColor o)
             (TextOptions.rotation o) (TextOptions.depthTestEnabled o))).

Definition SetTextEffectIndex (this : t) (effectIndex : N) : M E t :=
  let o := m_textOptions this in
  mret (with_textOptions this
          (TextOptions.mk (TextOptions.fontName o) effectIndex (TextOptions.color o)
             (TextOptions.horizontalAlignment o) (TextOptions.verticalAlignment o)
             (TextOptions.dropShadowOffset o) (TextOptions.dropShadowColor o)
             (TextOptions.rotation o) (TextOptions.depthTestEnabled o))).

Definition SetTextColor (this : t) (color : Vector3.t) : M E t :=
  let o := m_textOptions this in
  mret (with_textOptions this
          (TextOptions.mk (TextOptions.fontName o) (TextOptions.effectIndex o) color
             (TextOptions.horizontalAlignment o) (TextOptions.verticalAlignment o)
             (TextOptions.dropShadowOffset o) (TextOptions.dropShadowColor o)
             (TextOptions.rotation o) (TextOptions.depthTestEnabled o))).

Definition SetTextAlignment (this : t) (horizontalAlignment : HAlign.t)
    (verticalAlignment : VAlign.t) : M E t :=
  let o := m_textOptions this in
  mret (with_textOptions this
          (TextOptions.mk (TextOptions.fontName o) (TextOptions.effectIndex o)
             (TextOptions.color o) horizontalAlignment verticalAlignment
             (TextOptions.dropShadowOffset o) (TextOptions.dropShadowColor o)
             (TextOptions.rotation o) (TextOptions.depthTestEnabled o))).

Definition SetTextDropShadow (this : t) (offset : Vector2.t) (color : Color.t) : M E t :=
  let o := m_textOptions this in
  mret (with_textOptions this
          (TextOptions.mk (TextOptions.fontName o) (TextOptions.effectIndex o)
             (TextOptions.color o)
             (TextOptions.horizontalAlignment o) (TextOptions.verticalAlignment o)
             offset color
             (TextOptions.rotation o) (TextOptions.depthTestEnabled o))).

Definition SetTextRotation (this : t) (rotation : float32) : M E t :=
  let o := m_textOptions this in
  mret (with_textOptions this
          (TextOptions.mk (TextOptions.fontName o) (TextOptions.effectIndex o)
             (TextOptions.color o)
             (TextOptions.horizontalAlignment o) (TextOptions.verticalAlignment o)
             (TextOptions.dropShadowOffset o) (TextOptions.dropShadowColor o)
             rotation (TextOptions.depthTestEnabled o))).

Definition SetTextDepthTestEnabled (this : t) (enabled : bool) : M E t :=
  let o := m_textOptions this in
  mret (with_textOptions this
          (TextOptions.mk (TextOptions.fontName o) (TextOptions.effectIndex o)
             (TextOptions.color o)
             (TextOptions.horizontalAlignment o) (TextOptions.verticalAlignment o)
             (TextOptions.dropShadowOffset o) (TextOptions.dropShadowColor o)
             (TextOptions.rotation o) enabled)).

(** One call of a setter, with its arguments. *)
Inductive setter_call : Type :=
| CallSetImageBlendMode (blendState : TargetBlendState.t)
| CallSetImageColor (color : Vector3.t)
| CallSetImagePixelRounding (round : Rounding.t)
| CallSetImageDepthState (depthState : DepthState.t)
| CallSetImageClamp (clamp : bool)
| CallSetTextFont (fontName : string)
| CallSetTextEffectIndex (effectIndex : N)
| CallSetTextColor (color : Vector3.t)
| CallSetTextAlignment (horizontalAlignment : HAlign.t) (verticalAlignment : VAlign.t)
| CallSetTextDropShadow (offset : Vector2.t) (color : Color.t)
| CallSetTextRotation (rotation : float32)
| CallSetTextDepthTestEnabled (enabled : bool).

Definition run_setter (this : t) (c : setter_call) : M E t :=
  match c with
  | CallSetImageBlendMode blendState => SetImageBlendMode this blendState
  | CallSetImageColor color => SetImageColor this color
  | CallSetImagePixelRounding round => SetImagePixelRounding this round
  | CallSetImageDepthState depthState => SetImageDepthState this depthState
  | CallSetImageClamp clamp => SetImageClamp this clamp
  | CallSetTextFont fontName => SetTextFont this fontName
  | CallSetTextEffectIndex effectIndex => SetTextEffectIndex this effectIndex
  | CallSetTextColor color => SetTextColor this color
  | CallSetTextAlignment h v => SetTextAlignment this h v
  | CallSetTextDropShadow offset color => SetTextDropShadow this offset color
  | CallSetTextRotation rotation => SetTextRotation this rotation
  | CallSetTextDepthTestEnabled enabled => SetTextDepthTestEnabled this enabled
  end.

(** Which of the two local records a setter is documented to write. *)
Definition writes_image_options (c : setter_call) : bool :=
  match c with
  | CallSetImageBlendMode _ | CallSetImageColor _ | CallSetImagePixelRounding _
  | CallSetImageDepthState _ | CallSetImageClamp _ => true
  | _ => false
  end.

End Methods.

End Draw2dHelper.

(** ** A reference engine *)

(** Modelled from the spec: the Draw2D engine of section 4.3.  Its
    implementation is not part of this header.  The engine keeps the
    viewport, the defer flag, the sort key, the two default option records,
    the queue of deferred primitives and, to make rasterisation observable,
    the sequence of primitives handed to the rasteriser so far. *)
Module Draw2d.

(** A captured draw invocation. *)
Inductive Primitive : Type :=
| PImage (image : ImageInstance) (position size : Vector2.t)
    (opacity rotation : float32) (pivotPoint : option Vector2.t)
    (minMaxTexCoords : option (Vector2.t * Vector2.t)) (options : ImageOptions.t)
| PImageAligned (image : ImageInstance) (position size : Vector2.t)
    (horizontalAlignment : HAlign.t) (verticalAlignment : VAlign.t)
    (opacity rotation : float32)
    (minMaxTexCoords : option (Vector2.t * Vector2.t)) (options : ImageOptions.t)
| PQuad (image : ImageInstance) (verts : list VertexPosColUV.t)
    (pixelRounding : Rounding.t) (clamp : bool) (renderState : RenderState.t)
| PLine (start end_ : Vector2.t) (color : Color.t)
    (pixelRounding : Rounding.t) (renderState : RenderState.t)
| PLineTextured (image : ImageInstance) (verts : list VertexPosColUV.t)
    (pixelRounding : Rounding.t) (renderState : RenderState.t)
| PText (textString : string) (position : Vector2.t) (pointSize opacity : float32)
    (options : TextOptions.t)
| PRectOutline (image : ImageInstance) (points : RectPoints.t)
    (rightVec downVec : Vector2.t) (color : Color.t) (lineThickness : N).

Record t : Type := mk {
  m_viewportWidth : float32;
  m_viewportHeight : float32;
  m_dpiScalingFactor : float32;
  m_deferCalls : bool;
  m_sortKey : Z;
  m_defaultImageOptions : ImageOptions.t;
  m_defaultTextOptions : TextOptions.t;
  m_deferredPrimitives : list (Z * Primitive);
  m_rasterized : list Primitive;
  (** the font measurement collaborator *)
  m_measure : string -> float32 -> TextOptions.t -> Vector2.t
}.

(** An engine that has not been reconfigured. *)
Definition init (width height dpi : float32)
    (measure : string -> float32 -> TextOptions.t -> Vector2.t) : t :=
  {| m_viewportWidth := width; m_viewportHeight := height;
     m_dpiScalingFactor := dpi;
     m_deferCalls := false; m_sortKey := 0;
     m_defaultImageOptions := ImageOptions.ctor;
     m_defaultTextOptions := TextOptions.documented_defaults;
     m_deferredPrimitives := [];
     m_rasterized := [];
     m_measure := measure |}.

(** A draw either rasterises at once or is queued under the current sort
    key, as the defer flag says. *)
Definition submit (e : t) (prim : Primitive) : t :=
  if m_deferCalls e then
    mk (m_viewportWidth e) (m_viewportHeight e) (m_dpiScalingFactor e)
       (m_deferCalls e) (m_sortKey e) (m_defaultImageOptions e)
       (m_defaultTextOptions e)
       (m_deferredPrimitives e ++ [(m_sortKey e, prim)])
       (m_rasterized e) (m_measure e)
  else
    mk (m_viewportWidth e) (m_viewportHeight e) (m_dpiScalingFactor e)
       (m_deferCalls e) (m_sortKey e) (m_defaultImageOptions e)
       (m_defaultTextOptions e)
       (m_deferredPrimitives e)
       (m_rasterized e ++ [prim]) (m_measure e).

Definition RenderDeferredPrimitives (e : t) : t :=
  mk (m_viewportWidth e) (m_viewportHeight e) (m_dpiScalingFactor e)
     (m_deferCalls e) (m_sortKey e) (m_defaultImageOptions e)
     (m_defaultTextOptions e)
     []
     (m_rasterized e ++ map snd (m_deferredPrimitives e)) (m_measure e).

Definition SetDeferPrimitives (e : t) (deferPrimitives : bool) : t :=
  mk (m_viewportWidth e) (m_viewportHeight e) (m_dpiScalingFactor e)
     deferPrimitives (m_sortKey e) (m_defaultImageOptions e)
     (m_defaultTextOptions e) (m_deferredPrimitives e)
     (m_rasterized e) (m_measure e).

Definition SetSortKey (e : t) (key : Z) : t :=
  mk (m_viewportWidth e) (m_viewportHeight e) (m_dpiScalingFactor e)
     (m_deferCalls e) key (m_defaultImageOptions e)
     (m_defaultTextOptions e) (m_deferredPrimitives e)
     (m_rasterized e) (m_measure e).

#[global] Instance engine : IDraw2d.Engine t := {|
  DrawImage e image position size opacity rotation pivotPoint minMaxTexCoords o :=
    submit e (PImage image position size opacity rotation pivotPoint minMaxTexCoords
                (default (m_defaultImageOptions e) o));
  DrawImageAligned e image position size h v opacity rotation minMaxTexCoords o :=
    submit e (PImageAligned image position size h v opacity rotation minMaxTexCoords
                (default (m_defaultImageOptions e) o));
  DrawQuad e image verts pixelRounding clamp renderState :=
    submit e (PQuad image verts pixelRounding clamp renderState);
  DrawLine e start end_ color pixelRounding renderState :=
    submit e (PLine start end_ color pixelRounding renderState);
  DrawLineTextured e image verts pixelRounding renderState :=
    submit e (PLineTextured image verts pixelRounding renderState);
  DrawText e textString position pointSize opacity o :=
    submit e (PText textString position pointSize opacity
                (default (m_defaultTextOptions e) o));
  DrawRectOutlineTextured e image points rightVec downVec color lineThickness :=
    submit e (PRectOutline image points rightVec downVec color lineThickness);
  GetTextSize e textString pointSize o :=
    m_measure e textString pointSize (default (m_defaultTextOptions e) o);
  GetViewportWidth := m_viewportWidth;
  GetViewportHeight := m_viewportHeight;
  GetViewportDpiScalingFactor := m_dpiScalingFactor;
  GetDefaultImageOptions := m_defaultImageOptions;
  GetDefaultTextOptions := m_defaultTextOptions;
  IDraw2d.RenderDeferredPrimitives := RenderDeferredPrimitives;
  IDraw2d.SetDeferPrimitives := SetDeferPrimitives;
  GetDeferPrimitives := m_deferCalls;
  IDraw2d.SetSortKey := SetSortKey
|}.

End Draw2d.

(** ** Binary32 values as integers

    Every finite binary32 number is an integer multiple of [2^-149].  The
    definitions below describe rounding and the canonical representation on
    these integers; they are used to reason about [F32.add] and
    [F32.floor]. *)

Module Dyadic.

(** The number one and the number one half, in units of [2^-149]. *)
Definition U : Z := 2 ^ 149.
Definition H : Z := 2 ^ 148.

(** Number of binary digits of a positive integer. *)
Definition digits (z : Z) : Z := Z.log2 z + 1.

(** The quotient of [m] by [2^n], for [n > 0], rounded to nearest with ties
    to even. *)
Definition round_shifted (m n : Z) : Z :=
  let q := m / 2 ^ n in
  let r := m mod 2 ^ n in
  if (2 ^ (n - 1) <? r) || ((r =? 2 ^ (n - 1)) && Z.odd q) then q + 1 else q.

(** Round a positive integer to 24 significant bits, to nearest, ties to
    even. *)
Definition rne (t : Z) : Z :=
  let n := digits t - 24 in
  if n <=? 0 then t else round_shifted t n * 2 ^ n.

(** The same on signed integers: rounding is symmetric. *)
Definition RN (z : Z) : Z :=
  match z with
  | Z0 => 0
  | Zpos _ => rne z
  | Zneg _ => - rne (- z)
  end.

(** [z] has at most 24 significant bits: it needs no rounding. *)
Definition representable (z : Z) : Prop :=
  Z.abs z mod 2 ^ Z.max (digits (Z.abs z) - 24) 0 = 0.

(** The float with sign [s] and magnitude [v], in canonical form. *)
Definition canon (s : bool) (v : Z) : spec_float :=
  match v with
  | Z0 => S754_zero s
  | Zpos _ =>
      let n := Z.max (digits v - 24) 0 in
      if n - 149 <=? 104 then S754_finite s (Z.to_pos (v / 2 ^ n)) (n - 149)
      else S754_infinity s
  | Zneg _ => S754_nan
  end.

(** The float of a signed value; zero gets the positive sign. *)
Definition to_float (z : Z) : spec_float :=
  canon (z <? 0) (Z.abs z).

(** Round down to a multiple of one. *)
Definition FL (z : Z) : Z := z / U * U.

(** What [floor (x + 0.5f)] does to the value of [x]. *)
Definition nearest (z : Z) : Z := FL (RN (z + H)).

(** The value of a float in units of [2^-149]; zero for infinities and NaN,
    which have none. *)
Definition value (x : float32) : Z := default 0 (F32.scaled x).

End Dyadic.

(** ** Notions used to state the properties of the helper *)

(** The engine a constructor call ends up with: the explicit argument, or
    the game's engine when the argument is null. *)
Definition resolves {E : Type} (w : World E) (draw2d : option nat) (p : nat) : Prop :=
  draw2d = Some p \/
  (draw2d = None /\ Draw2dHelper.GetDefaultDraw2d w = Some (Some p, w)).

(** The defer mode of the engine at address [p]. *)
Definition defer_mode {E : Type} `{IDraw2d.Engine E} (w : World E) (p : nat)
    : option bool :=
  IDraw2d.GetDeferPrimitives <$> engines w !! p.

(** The defaults a text options record is said to have. *)
Definition has_text_defaults (o : TextOptions.t) : Prop :=
  TextOptions.horizontalAlignment o = HAlign.Left /\
  TextOptions.verticalAlignment o = VAlign.Top /\
  TextOptions.rotation o = F32.zero /\
  TextOptions.effectIndex o = 0%N /\
  TextOptions.color o = Vector3.mk F32.one F32.one F32.one /\
  TextOptions.dropShadowOffset o = Vector2.mk F32.zero F32.zero /\
  Color.a (TextOptions.dropShadowColor o) = F32.zero /\
  TextOptions.drop_shadow_active o = false.

(** Storage that last held another text options record. *)
Definition stale_text_options : TextOptions.t :=
  {| TextOptions.fontName := "title";
     TextOptions.effectIndex := 3%N;
     TextOptions.color := Vector3.mk F32.zero F32.zero F32.zero;
     TextOptions.horizontalAlignment := HAlign.Right;
     TextOptions.verticalAlignment := VAlign.Bottom;
     TextOptions.dropShadowOffset := Vector2.mk F32.one F32.one;
     TextOptions.dropShadowColor := Color.mk F32.zero F32.zero F32.zero F32.one;
     TextOptions.rotation := F32.of_Z 90;
     TextOptions.depthTestEnabled := true |}.

(** A world with one reference engine, at address 1, which is also the
    game's engine. *)
Definition sample_engine : Draw2d.t :=
  Draw2d.init (F32.of_Z 1920) (F32.of_Z 1080) F32.one
    (fun _ _ _ => Vector2.CreateZero).

Definition sample_world : World Draw2d.t :=
  mkWorld {[ 1%nat := sample_engine ]}
    (Some (SSystemGlobalEnvironment.mk (Some (ILyShine.mk (Some 1%nat))))).

(** A world without any engine. *)
Definition empty_world : World Draw2d.t := mkWorld ∅ None.

Definition sample_storage : Draw2dHelper.t :=
  Draw2dHelper.mk ImageOptions.ctor stale_text_options (Some 5%nat) true.

(** A helper that does nothing: in any world each forwarding draw call and
    the destructor leave the world as it is, and [GetTextSize] returns
    [(0, 0)]. *)
Definition inert {E : Type} `{IDraw2d.Engine E} (h : Draw2dHelper.t) : Prop :=
  forall w' : World E,
    (forall image position size opacity rotation pivotPoint minMaxTexCoords,
       Draw2dHelper.DrawImage h image position size opacity rotation
         pivotPoint minMaxTexCoords w' = Some (tt, w')) /\
    (forall image position size hAlign vAlign opacity rotation minMaxTexCoords,
       Draw2dHelper.DrawImageAligned h image position size hAlign vAlign
         opacity rotation minMaxTexCoords w' = Some (tt, w')) /\
    (forall image verts pixelRounding clamp renderState,
       Draw2dHelper.DrawQuad h image verts pixelRounding clamp renderState w'
       = Some (tt, w')) /\
    (forall start end_ color pixelRounding renderState,
       Draw2dHelper.DrawLine h start end_ color pixelRounding renderState w'
       = Some (tt, w')) /\
    (forall image verts pixelRounding renderState,
       Draw2dHelper.DrawLineTextured h image verts pixelRounding renderState w'
       = Some (tt, w')) /\
    (forall image points rightVec downVec color lineThickness,
       Draw2dHelper.DrawRectOutlineTextured h image points rightVec downVec
         color lineThickness w' = Some (tt, w')) /\
    (forall textString position pointSize opacity,
       Draw2dHelper.DrawText h textString position pointSize opacity w'
       = Some (tt, w')) /\
    Draw2dHelper.dtor h w' = Some (tt, w') /\
    (forall textString pointSize,
       Draw2dHelper.GetTextSize h textString pointSize w'
       = Some (Vector2.mk F32.zero F32.zero, w')).

(** ** Notions used to state the properties of the utilities *)

(** Both components are binary32 numbers. *)
Definition valid_vector (v : Vector2.t) : Prop :=
  F32.valid (Vector2.x v) = true /\ F32.valid (Vector2.y v) = true.

(** Both components are finite. *)
Definition finite_vector (v : Vector2.t) : Prop :=
  F32.is_finite (Vector2.x v) = true /\ F32.is_finite (Vector2.y v) = true.

(** Neither component is NaN. *)
Definition ordered_vector (v : Vector2.t) : Prop :=
  Vector2.x v <> S754_nan /\ Vector2.y v <> S754_nan.

(** Both components denote integers: the point is on a pixel boundary. *)
Definition on_pixel_boundary (v : Vector2.t) : Prop :=
  F32.integer_valued (Vector2.x v) /\ F32.integer_valued (Vector2.y v).

(** The rounding of one coordinate, as the specification words it. *)
Definition round_component (policy : Rounding.t) (c : float32) : float32 :=
  match policy with
  | Rounding.None => c
  | Rounding.Nearest => F32.floor (F32.add c F32.half)
  | Rounding.Down => F32.floor c
  | Rounding.Up => F32.ceil c
  end.

(** The top-left corner, as the specification words it: the position, the
    position minus the size divided by two, or the position minus the
    size. *)
Definition aligned_x (position size : Vector2.t) (hAlign : HAlign.t) : float32 :=
  match hAlign with
  | HAlign.Left => Vector2.x position
  | HAlign.Center =>
      F32.sub (Vector2.x position) (F32.div (Vector2.x size) (F32.of_Z 2))
  | HAlign.Right => F32.sub (Vector2.x position) (Vector2.x size)
  end.

Definition aligned_y (position size : Vector2.t) (vAlign : VAlign.t) : float32 :=
  match vAlign with
  | VAlign.Top => Vector2.y position
  | VAlign.Center =>
      F32.sub (Vector2.y position) (F32.div (Vector2.y size) (F32.of_Z 2))
  | VAlign.Bottom => F32.sub (Vector2.y position) (Vector2.y size)
  end.

(** Points with integer coordinates, and the point [(3.4f, 3.6f)]. *)
Definition point (a b : Z) : Vector2.t := Vector2.mk (F32.of_Z a) (F32.of_Z b).

Definition point_34_36 : Vector2.t :=
  Vector2.mk (F32.of_ratio 34 10) (F32.of_ratio 36 10).

(** A point at infinity. *)
Definition point_at_infinity : Vector2.t :=
  Vector2.mk (S754_infinity false) F32.zero.

(** ** Notions used to state further properties of the helper *)

(** Several setter calls, one after the other. *)
Fixpoint run_setters {E : Type} `{IDraw2d.Engine E}
    (this : Draw2dHelper.t) (calls : list Draw2dHelper.setter_call)
    : M E Draw2dHelper.t :=
  match calls with
  | [] => mret this
  | c :: calls' =>
      this' ← Draw2dHelper.run_setter this c; run_setters this' calls'
  end.

(** The setter a call is a call of. *)
Definition setter_index (c : Draw2dHelper.setter_call) : nat :=
  match c with
  | Draw2dHelper.CallSetImageBlendMode _ => 0
  | Draw2dHelper.CallSetImageColor _ => 1
  | Draw2dHelper.CallSetImagePixelRounding _ => 2
  | Draw2dHelper.CallSetImageDepthState _ => 3
  | Draw2dHelper.CallSetImageClamp _ => 4
  | Draw2dHelper.CallSetTextFont _ => 5
  | Draw2dHelper.CallSetTextEffectIndex _ => 6
  | Draw2dHelper.CallSetTextColor _ => 7
  | Draw2dHelper.CallSetTextAlignment _ _ => 8
  | Draw2dHelper.CallSetTextDropShadow _ _ => 9
  | Draw2dHelper.CallSetTextRotation _ => 10
  | Draw2dHelper.CallSetTextDepthTestEnabled _ => 11
  end%nat.

(** The members a setter call wrote hold its arguments. *)
Definition reads_back (c : Draw2dHelper.setter_call) (h : Draw2dHelper.t) : Prop :=
  let io := Draw2dHelper.m_imageOptions h in
  let to := Draw2dHelper.m_textOptions h in
  match c with
  | Draw2dHelper.CallSetImageBlendMode blendState =>
      RenderState.m_blendState (ImageOptions.m_renderState io) = blendState
  | Draw2dHelper.CallSetImageColor color => ImageOptions.color io = color
  | Draw2dHelper.CallSetImagePixelRounding round =>
      ImageOptions.pixelRounding io = round
  | Draw2dHelper.CallSetImageDepthState depthState =>
      RenderState.m_depthState (ImageOptions.m_renderState io) = depthState
  | Draw2dHelper.CallSetImageClamp clamp => ImageOptions.m_clamp io = clamp
  | Draw2dHelper.CallSetTextFont fontName => TextOptions.fontName to = fontName
  | Draw2dHelper.CallSetTextEffectIndex effectIndex =>
      TextOptions.effectIndex to = effectIndex
  | Draw2dHelper.CallSetTextColor color => TextOptions.color to = color
  | Draw2dHelper.CallSetTextAlignment h v =>
      TextOptions.horizontalAlignment to = h /\ TextOptions.verticalAlignment to = v
  | Draw2dHelper.CallSetTextDropShadow offset color =>
      TextOptions.dropShadowOffset to = offset /\
      TextOptions.dropShadowColor to = color
  | Draw2dHelper.CallSetTextRotation rotation => TextOptions.rotation to = rotation
  | Draw2dHelper.CallSetTextDepthTestEnabled enabled =>
      TextOptions.depthTestEnabled to = enabled
  end.

(** The world [w] with the engine at [p] replaced by [e]. *)
Definition with_engine {E : Type} (w : World E) (p : nat) (e : E) : World E :=
  mkWorld (<[p := e]> (engines w)) (gEnv w).

(** What a helper over the engine at [p] forwards: every draw call reaches
    that engine and no other, image draws carry the helper's image options,
    text draws and text measurement its text options, and the remaining
    draws only their own arguments. *)
Definition forwards_to {E : Type} `{IDraw2d.Engine E}
    (h : Draw2dHelper.t) (p : nat) : Prop :=
  forall (w : World E) (e : E),
    engines w !! p = Some e ->
    (forall image position size opacity rotation pivotPoint minMaxTexCoords,
       Draw2dHelper.DrawImage h image position size opacity rotation
         pivotPoint minMaxTexCoords w =
       Some (tt, with_engine w p
                   (IDraw2d.DrawImage e image position size opacity rotation
                      pivotPoint minMaxTexCoords
                      (Some (Draw2dHelper.m_imageOptions h))))) /\
    (forall image position size hAlign vAlign opacity rotation minMaxTexCoords,
       Draw2dHelper.DrawImageAligned h image position size hAlign vAlign
         opacity rotation minMaxTexCoords w =
       Some (tt, with_engine w p
                   (IDraw2d.DrawImageAligned e image position size hAlign vAlign
                      opacity rotation minMaxTexCoords
                      (Some (Draw2dHelper.m_imageOptions h))))) /\
    (forall image verts pixelRounding clamp renderState,
       Draw2dHelper.DrawQuad h image verts pixelRounding clamp renderState w =
       Some (tt, with_engine w p
                   (IDraw2d.DrawQuad e image verts pixelRounding clamp
                      renderState))) /\
    (forall start end_ color pixelRounding renderState,
       Draw2dHelper.DrawLine h start end_ color pixelRounding renderState w =
       Some (tt, with_engine w p
                   (IDraw2d.DrawLine e start end_ color pixelRounding
                      renderState))) /\
    (forall image verts pixelRounding renderState,
       Draw2dHelper.DrawLineTextured h image verts pixelRounding renderState w =
       Some (tt, with_engine w p
                   (IDraw2d.DrawLineTextured e image verts pixelRounding
                      renderState))) /\
    (forall image points rightVec downVec color lineThickness,
       Draw2dHelper.DrawRectOutlineTextured h image points rightVec downVec
         color lineThickness w =
       Some (tt, with_engine w p
                   (IDraw2d.DrawRectOutlineTextured e image points rightVec
                      downVec color lineThickness))) /\
    (forall textString position pointSize opacity,
       Draw2dHelper.DrawText h textString position pointSize opacity w =
       Some (tt, with_engine w p
                   (IDraw2d.DrawText e textString position pointSize opacity
                      (Some (Draw2dHelper.m_textOptions h))))) /\
    (forall textString pointSize,
       Draw2dHelper.GetTextSize h textString pointSize w =
       Some (IDraw2d.GetTextSize e textString pointSize
               (Some (Draw2dHelper.m_textOptions h)), w)).

(** The draws and the destructor that read no option record of the helper
    behave alike for [h] and [h']. *)
Definition same_plain_draws {E : Type} `{IDraw2d.Engine E}
    (h h' : Draw2dHelper.t) : Prop :=
  forall w : World E,
    (forall image verts pixelRounding clamp renderState,
       Draw2dHelper.DrawQuad h' image verts pixelRounding clamp renderState w =
       Draw2dHelper.DrawQuad h image verts pixelRounding clamp renderState w) /\
    (forall start end_ color pixelRounding renderState,
       Draw2dHelper.DrawLine h' start end_ color pixelRounding renderState w =
       Draw2dHelper.DrawLine h start end_ color pixelRounding renderState w) /\
    (forall image verts pixelRounding renderState,
       Draw2dHelper.DrawLineTextured h' image verts pixelRounding renderState w =
       Draw2dHelper.DrawLineTextured h image verts pixelRounding renderState w) /\
    (forall image points rightVec downVec color lineThickness,
       Draw2dHelper.DrawRectOutlineTextured h' image points rightVec downVec
         color lineThickness w =
       Draw2dHelper.DrawRectOutlineTextured h image points rightVec downVec
         color lineThickness w) /\
    Draw2dHelper.dtor h' w = Draw2dHelper.dtor h w.

(** The image draws behave alike for [h] and [h']. *)
Definition same_image_draws {E : Type} `{IDraw2d.Engine E}
    (h h' : Draw2dHelper.t) : Prop :=
  forall w : World E,
    (forall image position size opacity rotation pivotPoint minMaxTexCoords,
       Draw2dHelper.DrawImage h' image position size opacity rotation
         pivotPoint minMaxTexCoords w =
       Draw2dHelper.DrawImage h image position size opacity rotation
         pivotPoint minMaxTexCoords w) /\
    (forall image position size hAlign vAlign opacity rotation minMaxTexCoords,
       Draw2dHelper.DrawImageAligned h' image position size hAlign vAlign
         opacity rotation minMaxTexCoords w =
       Draw2dHelper.DrawImageAligned h image position size hAlign vAlign
         opacity rotation minMaxTexCoords w).

(** Text drawing and text measurement behave alike for [h] and [h']. *)
Definition same_text_draws {E : Type} `{IDraw2d.Engine E}
    (h h' : Draw2dHelper.t) : Prop :=
  forall w : World E,
    (forall textString position pointSize opacity,
       Draw2dHelper.DrawText h' textString position pointSize opacity w =
       Draw2dHelper.DrawText h textString position pointSize opacity w) /\
    (forall textString pointSize,
       Draw2dHelper.GetTextSize h' textString pointSize w =
       Draw2dHelper.GetTextSize h textString pointSize w).

(** A world with two reference engines, at addresses 1 and 2. *)
Definition second_engine : Draw2d.t :=
  Draw2d.SetDeferPrimitives
    (Draw2d.init (F32.of_Z 640) (F32.of_Z 480) F32.one
       (fun _ _ _ => Vector2.CreateZero)) true.

Definition two_engine_world : World Draw2d.t :=
  mkWorld (<[ 2%nat := second_engine ]> {[ 1%nat := sample_engine ]})
    (Some (SSystemGlobalEnvironment.mk (Some (ILyShine.mk (Some 1%nat))))).

(** A helper over the engine at address 1. *)
Definition sample_helper : Draw2dHelper.t :=
  Draw2dHelper.mk ImageOptions.ctor TextOptions.documented_defaults
    (Some 1%nat) false.

(** ** Notions used to state further properties of the utilities *)

(** A coordinate Nearest leaves alone: not the negative zero, and of
    magnitude at most [2^23]. *)
Definition small_pixel (c : float32) : Prop :=
  c <> S754_zero true /\ Z.abs (Dyadic.value c) <= 2 ^ 23 * Dyadic.U.

(** The exact corner coordinate for the integer position [a] and the
    integer size [c], in units of [2^-149]. *)
Definition exact_x (a c : Z) (hAlign : HAlign.t) : Z :=
  match hAlign with
  | HAlign.Left => a * Dyadic.U
  | HAlign.Center => a * Dyadic.U - c * Dyadic.H
  | HAlign.Right => (a - c) * Dyadic.U
  end.

Definition exact_y (b d : Z) (vAlign : VAlign.t) : Z :=
  match vAlign with
  | VAlign.Top => b * Dyadic.U
  | VAlign.Center => b * Dyadic.U - d * Dyadic.H
  | VAlign.Bottom => (b - d) * Dyadic.U
  end.

(** The point [(3.4f, 3.6f)] with a third coordinate. *)
Definition point3_34_36 : Vector3.t :=
  Vector3.mk (F32.of_ratio 34 10) (F32.of_ratio 36 10) (F32.of_ratio 1 3).

(** * Properties *)

(** ** Binary32 rounding on integers *)

Module F32Facts.
Import Dyadic.

Lemma digits2_pos_digits (p : positive) :
  Zpos (digits2_pos p) = digits (Zpos p).
Proof.
  unfold digits.
  induction p as [p IH | p IH |]; simpl digits2_pos.
  - rewrite Pos2Z.inj_succ, IH.
    change (Zpos p~1) with (2 * Zpos p + 1).
    rewrite Z.log2_succ_double by lia. lia.
  - rewrite Pos2Z.inj_succ, IH.
    change (Zpos p~0) with (2 * Zpos p).
    rewrite Z.log2_double by lia. lia.
  - reflexivity.
Qed.

Lemma digits_bounds (z : Z) :
  0 < z -> 2 ^ (digits z - 1) <= z < 2 ^ digits z.
Proof.
  intros Hz. unfold digits.
  pose proof (Z.log2_spec z Hz) as Hs.
  replace (Z.log2 z + 1 - 1) with (Z.log2 z) by lia.
  replace (Z.log2 z + 1) with (Z.succ (Z.log2 z)) by lia. exact Hs.
Qed.

Lemma digits_unique (z d : Z) :
  2 ^ (d - 1) <= z < 2 ^ d -> 0 < d -> digits z = d.
Proof.
  intros Hb Hd. unfold digits.
  rewrite (Z.log2_unique z (d - 1)); [lia | lia |].
  replace (Z.succ (d - 1)) with d by lia. exact Hb.
Qed.

Lemma digits_pos (z : Z) : 0 < z -> 0 < digits z.
Proof. intros Hz. unfold digits. pose proof (Z.log2_nonneg z). lia. Qed.

Lemma digits_mul_pow2 (z k : Z) :
  0 < z -> 0 <= k -> digits (z * 2 ^ k) = digits z + k.
Proof.
  intros Hz Hk. unfold digits.
  rewrite <- Z.shiftl_mul_pow2 by lia.
  rewrite Z.log2_shiftl by lia. lia.
Qed.

Lemma iter_pos_nat {A : Type} (f : A -> A) (p : positive) (x : A) :
  iter_pos f p x = Nat.iter (Pos.to_nat p) f x.
Proof.
  revert x. induction p as [p IH | p IH |]; intros x; simpl iter_pos.
  - rewrite !IH, Pos2Nat.inj_xI.
    replace (S (2 * Pos.to_nat p)) with (Pos.to_nat p + (Pos.to_nat p + 1))%nat by lia.
    rewrite !Nat.iter_add. reflexivity.
  - rewrite !IH, Pos2Nat.inj_xO.
    replace (2 * Pos.to_nat p)%nat with (Pos.to_nat p + Pos.to_nat p)%nat by lia.
    rewrite Nat.iter_add. reflexivity.
  - reflexivity.
Qed.

Lemma shr_1_spec (m : Z) (r s : bool) :
  0 <= m ->
  shr_1 (Build_shr_record m r s) = Build_shr_record (m / 2) (Z.odd m) (r || s).
Proof.
  intros Hm. destruct m as [| p | p]; [reflexivity | | lia].
  destruct p as [p | p |]; unfold shr_1.
  - replace (Zpos p~1 / 2) with (Zpos p); [reflexivity|].
    apply (Z.div_unique _ 2 _ 1); lia.
  - replace (Zpos p~0 / 2) with (Zpos p); [reflexivity|].
    apply (Z.div_unique _ 2 _ 0); lia.
  - reflexivity.
Qed.

Lemma iter_shr_1 (n : nat) (m : Z) :
  0 <= m ->
  Nat.iter (S n) shr_1 (Build_shr_record m false false) =
  Build_shr_record (m / 2 ^ Z.of_nat (S n))
    (Z.odd (m / 2 ^ Z.of_nat n))
    (negb (m mod 2 ^ Z.of_nat n =? 0)).
Proof.
  intros Hm. induction n as [| n IH].
  - unfold Nat.iter; cbn [nat_rect]. rewrite shr_1_spec by lia.
    change (2 ^ Z.of_nat 1) with 2. change (2 ^ Z.of_nat 0) with 1.
    rewrite Z.div_1_r, Z.mod_1_r. reflexivity.
  - change (Nat.iter (S (S n)) shr_1 ?x) with (shr_1 (Nat.iter (S n) shr_1 x)).
    rewrite IH.
    assert (Hp : 0 < 2 ^ Z.of_nat n) by (apply Z.pow_pos_nonneg; lia).
    assert (Hp1 : 2 ^ Z.of_nat (S n) = 2 ^ Z.of_nat n * 2)
      by (rewrite Nat2Z.inj_succ, Z.pow_succ_r; lia).
    assert (Hp2 : 2 ^ Z.of_nat (S (S n)) = 2 ^ Z.of_nat (S n) * 2)
      by (rewrite (Nat2Z.inj_succ (S n)), Z.pow_succ_r; lia).
    rewrite shr_1_spec by (apply Z.div_pos; lia).
    f_equal.
    + rewrite Hp2, Z.div_div by lia. reflexivity.
    + rewrite Hp1.
      pose proof (Z.div_mod m (2 ^ Z.of_nat n * 2) ltac:(lia)) as Hdm.
      pose proof (Z.mod_pos_bound m (2 ^ Z.of_nat n * 2) ltac:(lia)) as Hb2.
      pose proof (Z.div_mod m (2 ^ Z.of_nat n) ltac:(lia)) as Hdm1.
      pose proof (Z.mod_pos_bound m (2 ^ Z.of_nat n) ltac:(lia)) as Hb1.
      pose proof (Z.div_mod (m / 2 ^ Z.of_nat n) 2 ltac:(lia)) as Hdm3.
      rewrite <- (Z.div_div m _ 2) in Hdm by lia.
      pose proof (Z.bit0_mod (m / 2 ^ Z.of_nat n)) as Hodd.
      rewrite Z.bit0_odd in Hodd.
      pose proof (Z.mod_pos_bound (m / 2 ^ Z.of_nat n) 2 ltac:(lia)) as Hb3.
      set (q := m / 2 ^ Z.of_nat n) in *. set (P := 2 ^ Z.of_nat n) in *.
      set (r1 := m mod P) in *. set (r2 := m mod (P * 2)) in *.
      set (b := q mod 2) in *.
      assert (Hr2 : r2 = P * b + r1) by nia.
      destruct (Z.odd q); simpl Z.b2z in Hodd;
        destruct (Z.eqb_spec r1 0), (Z.eqb_spec r2 0); simpl; try reflexivity; nia.
Qed.

Lemma fexp_eq (x : Z) : fexp 24 128 x = Z.max (x - 24) (-149).
Proof. reflexivity. Qed.

Lemma pow2_pos (k : Z) : 0 <= k -> 0 < 2 ^ k.
Proof. intros Hk. apply Z.pow_pos_nonneg; lia. Qed.

(** Shifting right by [n > 0] places, from an exact start. *)
Lemma shr_exact_pos (m e n : Z) :
  0 <= m -> 0 < n ->
  shr (Build_shr_record m false false) e n =
  (Build_shr_record (m / 2 ^ n) (Z.odd (m / 2 ^ (n - 1)))
     (negb (m mod 2 ^ (n - 1) =? 0)), e + n).
Proof.
  intros Hm Hn. destruct n as [| p | p]; try lia.
  unfold shr. rewrite iter_pos_nat.
  destruct (Pos2Nat.is_succ p) as [k Hk]. rewrite Hk.
  rewrite iter_shr_1 by lia.
  replace (Z.of_nat (S k)) with (Zpos p) by lia.
  replace (Z.of_nat k) with (Zpos p - 1) by lia.
  reflexivity.
Qed.

Lemma shr_nonpos (mrs : shr_record) (e n : Z) :
  n <= 0 -> shr mrs e n = (mrs, e).
Proof. intros Hn. destruct n; try reflexivity. lia. Qed.

Lemma Zdigits2_digits (m : Z) : 0 < m -> Zdigits2 m = digits m.
Proof.
  intros Hm. destruct m as [| p | p]; try lia. apply digits2_pos_digits.
Qed.

Lemma round_nearest_even_shifted (m n : Z) :
  0 <= m -> 0 < n ->
  round_nearest_even (m / 2 ^ n)
    (loc_of_shr_record
       (Build_shr_record (m / 2 ^ n) (Z.odd (m / 2 ^ (n - 1)))
          (negb (m mod 2 ^ (n - 1) =? 0))))
  = round_shifted m n.
Proof.
  intros Hm Hn. unfold round_shifted.
  assert (HP : 0 < 2 ^ (n - 1)) by (apply pow2_pos; lia).
  assert (HPn : 2 ^ n = 2 ^ (n - 1) * 2).
  { replace n with (Z.succ (n - 1)) at 1 by lia. rewrite Z.pow_succ_r; lia. }
  rewrite HPn.
  pose proof (Z.div_mod m (2 ^ (n - 1) * 2) ltac:(lia)) as Hdm.
  pose proof (Z.mod_pos_bound m (2 ^ (n - 1) * 2) ltac:(lia)) as Hb2.
  pose proof (Z.div_mod m (2 ^ (n - 1)) ltac:(lia)) as Hdm1.
  pose proof (Z.mod_pos_bound m (2 ^ (n - 1)) ltac:(lia)) as Hb1.
  pose proof (Z.div_mod (m / 2 ^ (n - 1)) 2 ltac:(lia)) as Hdm3.
  rewrite <- (Z.div_div m _ 2) in Hdm by lia.
  pose proof (Z.bit0_mod (m / 2 ^ (n - 1))) as Hodd.
  rewrite Z.bit0_odd in Hodd.
  pose proof (Z.mod_pos_bound (m / 2 ^ (n - 1)) 2 ltac:(lia)) as Hb3.
  rewrite <- (Z.div_div m _ 2) by lia.
  set (q1 := m / 2 ^ (n - 1)) in *. set (P := 2 ^ (n - 1)) in *.
  set (r1 := m mod P) in *. set (r2 := m mod (P * 2)) in *.
  set (b := q1 mod 2) in *. set (q := q1 / 2) in *.
  assert (Hr2 : r2 = P * b + r1) by nia.
  unfold loc_of_shr_record, round_nearest_even.
  destruct (Z.odd q1); simpl Z.b2z in Hodd;
    destruct (Z.eqb_spec r1 0); simpl negb; cbv iota;
    destruct (Z.ltb_spec P r2), (Z.eqb_spec r2 P); simpl; try nia;
    try reflexivity;
    rewrite <- Z.negb_odd; destruct (Z.odd q); reflexivity.
Qed.

Lemma shr_fexp_exact_small (m e : Z) :
  0 < m -> fexp 24 128 (digits m + e) - e <= 0 ->
  shr_fexp 24 128 m e loc_Exact = (Build_shr_record m false false, e).
Proof.
  intros Hm Hn. unfold shr_fexp. rewrite Zdigits2_digits by lia.
  now apply shr_nonpos.
Qed.

Lemma shr_fexp_exact_large (m e : Z) :
  0 < m -> 0 < fexp 24 128 (digits m + e) - e ->
  shr_fexp 24 128 m e loc_Exact =
  let n := fexp 24 128 (digits m + e) - e in
  (Build_shr_record (m / 2 ^ n) (Z.odd (m / 2 ^ (n - 1)))
     (negb (m mod 2 ^ (n - 1) =? 0)), e + n).
Proof.
  intros Hm Hn. unfold shr_fexp. rewrite Zdigits2_digits by lia.
  cbn [shr_record_of_loc]. now apply shr_exact_pos; [lia|].
Qed.

Lemma round_shifted_bounds (m n : Z) :
  0 < m -> 0 < n ->
  m / 2 ^ n <= round_shifted m n <= m / 2 ^ n + 1.
Proof.
  intros Hm Hn. unfold round_shifted.
  destruct ((2 ^ (n - 1) <? m mod 2 ^ n)
            || (m mod 2 ^ n =? 2 ^ (n - 1)) && Z.odd (m / 2 ^ n)); lia.
Qed.

(** The quotient of a number of [24 + n] digits by [2^n] has 24 digits. *)
Lemma div_pow2_range (m n : Z) :
  0 < m -> 0 < n -> digits m = 24 + n ->
  2 ^ 23 <= m / 2 ^ n < 2 ^ 24.
Proof.
  intros Hm Hn Hd.
  pose proof (digits_bounds m Hm) as Hb. rewrite Hd in Hb.
  replace (24 + n - 1) with (23 + n) in Hb by lia.
  rewrite !Z.pow_add_r in Hb by lia.
  pose proof (pow2_pos n ltac:(lia)) as HP.
  split.
  - apply Z.div_le_lower_bound; lia.
  - apply Z.div_lt_upper_bound; lia.
Qed.

Lemma canon_pos (s : bool) (v : Z) :
  0 < v ->
  canon s v =
  let n := Z.max (digits v - 24) 0 in
  if n - 149 <=? 104 then S754_finite s (Z.to_pos (v / 2 ^ n)) (n - 149)
  else S754_infinity s.
Proof. intros Hv. destruct v; try lia. reflexivity. Qed.

(** [binary_round_aux] on a mantissa that is not too short rounds the
    value to 24 bits and gives the result in canonical form. *)
Lemma binary_round_aux_spec (sx : bool) (m e : Z) :
  0 < m -> -149 <= e -> e <= fexp 24 128 (digits m + e) ->
  binary_round_aux 24 128 sx m e loc_Exact = canon sx (rne (m * 2 ^ (e + 149))).
Proof.
  intros Hm He Hfe. rewrite fexp_eq in Hfe.
  pose proof (digits_pos m Hm) as Hd.
  pose proof (pow2_pos (e + 149) ltac:(lia)) as Ha.
  assert (Hk : 0 < m * 2 ^ (e + 149)) by nia.
  assert (Hdk : digits (m * 2 ^ (e + 149)) = digits m + e + 149)
    by (rewrite digits_mul_pow2; lia).
  unfold binary_round_aux.
  destruct (Z_le_gt_dec (digits m) 24) as [Hsmall | Hlarge].
  - (* no shift *)
    assert (Hn : fexp 24 128 (digits m + e) - e <= 0) by (rewrite fexp_eq; lia).
    rewrite (shr_fexp_exact_small m e Hm Hn). cbn [shr_m loc_of_shr_record round_nearest_even].
    rewrite (shr_fexp_exact_small m e Hm Hn). cbn [shr_m].
    assert (Hr : rne (m * 2 ^ (e + 149)) = m * 2 ^ (e + 149)).
    { unfold rne. rewrite Hdk.
      destruct (Z.leb_spec (digits m + e + 149 - 24) 0) as [_ | Hpos]; [reflexivity|].
      assert (digits m = 24) by lia.
      replace (digits m + e + 149 - 24) with (e + 149) in * by lia.
      unfold round_shifted. rewrite Z.div_mul, Z.mod_mul by lia.
      pose proof (pow2_pos (e + 149 - 1) ltac:(lia)).
      destruct (Z.ltb_spec (2 ^ (e + 149 - 1)) 0); [lia|].
      destruct (Z.eqb_spec 0 (2 ^ (e + 149 - 1))); [lia|]. reflexivity. }
    rewrite Hr, canon_pos by lia. cbv zeta. rewrite Hdk.
    replace (Z.max (digits m + e + 149 - 24) 0) with (e + 149) by lia.
    replace (e + 149 - 149) with e by lia.
    rewrite Z.div_mul by lia.
    destruct m as [| p | p]; try lia. reflexivity.
  - (* shift by digits m - 24 *)
    assert (Hn : 0 < fexp 24 128 (digits m + e) - e) by (rewrite fexp_eq; lia).
    rewrite (shr_fexp_exact_large m e Hm Hn). cbv zeta.
    rewrite fexp_eq.
    replace (Z.max (digits m + e - 24) (-149) - e) with (digits m - 24) by lia.
    set (n := digits m - 24) in *.
    cbn [shr_m]. rewrite round_nearest_even_shifted by lia.
    pose proof (round_shifted_bounds m n Hm ltac:(lia)) as Hrb.
    pose proof (div_pow2_range m n Hm ltac:(lia) ltac:(lia)) as Hq.
    pose proof (pow2_pos n ltac:(lia)) as HPn.
    assert (Hrk : rne (m * 2 ^ (e + 149)) = round_shifted m n * 2 ^ (n + (e + 149))).
    { unfold rne. rewrite Hdk.
      destruct (Z.leb_spec (digits m + e + 149 - 24) 0) as [Hle | _]; [lia|].
      replace (digits m + e + 149 - 24) with (n + (e + 149)) by lia.
      f_equal. unfold round_shifted.
      rewrite (Z.pow_add_r 2 n (e + 149)) by lia.
      rewrite Z.div_mul_cancel_r by lia.
      rewrite Zmult_mod_distr_r.
      replace (n + (e + 149) - 1) with ((n - 1) + (e + 149)) by lia.
      rewrite (Z.pow_add_r 2 (n - 1)) by lia.
      pose proof (pow2_pos (n - 1) ltac:(lia)) as HP1.
      set (r := m mod 2 ^ n). set (P1 := 2 ^ (n - 1)) in *. set (A := 2 ^ (e + 149)) in *.
      replace (P1 * A <? r * A) with (P1 <? r)
        by (destruct (Z.ltb_spec P1 r), (Z.ltb_spec (P1 * A) (r * A)); try reflexivity; nia).
      replace (r * A =? P1 * A) with (r =? P1)
        by (destruct (Z.eqb_spec r P1), (Z.eqb_spec (r * A) (P1 * A)); try reflexivity; nia).
      reflexivity. }
    rewrite Hrk.
    set (q := round_shifted m n) in *.
    pose proof (pow2_pos (n + (e + 149)) ltac:(lia)) as HPk.
    rewrite canon_pos by nia. cbv zeta.
    rewrite digits_mul_pow2 by lia.
    destruct (Z_lt_le_dec q (2 ^ 24)) as [Hlt | Hge].
    + assert (Hdq : digits q = 24) by (apply digits_unique; lia).
      assert (Hn2 : fexp 24 128 (digits q + (e + n)) - (e + n) <= 0)
        by (rewrite fexp_eq; lia).
      rewrite (shr_fexp_exact_small q (e + n) ltac:(lia) Hn2). cbn [shr_m].
      rewrite Hdq.
      replace (Z.max (24 + (n + (e + 149)) - 24) 0) with (n + (e + 149)) by lia.
      replace (n + (e + 149) - 149) with (e + n) by lia.
      rewrite Z.div_mul by lia.
      destruct q as [| p | p]; try lia. reflexivity.
    + assert (Hq24 : q = 2 ^ 24) by lia.
      assert (Hdq : digits q = 25) by (rewrite Hq24; reflexivity).
      assert (Hn2 : 0 < fexp 24 128 (digits q + (e + n)) - (e + n))
        by (rewrite fexp_eq; lia).
      rewrite (shr_fexp_exact_large q (e + n) ltac:(lia) Hn2). cbv zeta.
      rewrite fexp_eq, Hdq.
      replace (Z.max (25 + (e + n) - 24) (-149) - (e + n)) with 1 by lia.
      cbn [shr_m].
      replace (Z.max (25 + (n + (e + 149)) - 24) 0) with (n + (e + 149) + 1) by lia.
      replace (n + (e + 149) + 1 - 149) with (e + n + 1) by lia.
      rewrite Hq24.
      replace (2 ^ 24 * 2 ^ (n + (e + 149)) / 2 ^ (n + (e + 149) + 1)) with (2 ^ 23).
      2:{ rewrite (Z.pow_add_r 2 _ 1) by lia.
          apply (Z.div_unique _ _ _ 0); lia. }
      reflexivity.
Qed.

Lemma shl_align_spec (mx : positive) (ex ex' : Z) :
  shl_align mx ex ex' =
  (Z.to_pos (Zpos mx * 2 ^ (ex - Z.min ex ex')), Z.min ex ex').
Proof.
  unfold shl_align.
  destruct (ex' - ex) as [| d | d] eqn:Hd.
  - replace (Z.min ex ex') with ex by lia.
    rewrite Z.sub_diag, Z.mul_1_r. reflexivity.
  - replace (Z.min ex ex') with ex by lia.
    rewrite Z.sub_diag, Z.mul_1_r. reflexivity.
  - replace (Z.min ex ex') with ex' by lia.
    replace (ex - ex') with (Zpos d) by lia.
    f_equal.
    change (Pos.iter xO mx d) with (shift_pos d mx).
    apply Pos2Z.inj. rewrite shift_pos_correct.
    change (Z.pow_pos 2 d) with (2 ^ Zpos d).
    rewrite Z2Pos.id; [lia|].
    pose proof (pow2_pos (Zpos d) ltac:(lia)). lia.
Qed.

Lemma binary_round_spec (sx : bool) (mx : positive) (ex : Z) :
  -149 <= ex ->
  binary_round 24 128 sx mx ex = canon sx (rne (Zpos mx * 2 ^ (ex + 149))).
Proof.
  intros He. unfold binary_round.
  rewrite shl_align_spec, digits2_pos_digits, fexp_eq.
  set (d := digits (Zpos mx)).
  assert (Hd : 0 < d) by (apply digits_pos; lia).
  set (e' := Z.min ex (Z.max (d + ex - 24) (-149))).
  assert (He' : -149 <= e' <= ex) by lia.
  pose proof (pow2_pos (ex - e') ltac:(lia)) as HP.
  rewrite Z2Pos.id by lia.
  rewrite binary_round_aux_spec.
  - f_equal. f_equal. rewrite <- Z.mul_assoc, <- Z.pow_add_r by lia.
    f_equal. f_equal. lia.
  - lia.
  - lia.
  - rewrite fexp_eq, digits_mul_pow2 by lia. fold d. lia.
Qed.

Lemma rne_pos (t : Z) : 0 < t -> 0 < rne t.
Proof.
  intros Ht. unfold rne.
  destruct (Z.leb_spec (digits t - 24) 0) as [| Hn]; [exact Ht|].
  pose proof (round_shifted_bounds t (digits t - 24) Ht Hn) as Hb.
  pose proof (div_pow2_range t (digits t - 24) Ht Hn ltac:(lia)) as Hq.
  pose proof (pow2_pos (digits t - 24) ltac:(lia)). nia.
Qed.

Lemma to_float_RN_pos (v : Z) : 0 < v -> to_float (RN v) = canon false (rne v).
Proof.
  intros Hv. pose proof (rne_pos v Hv) as Hr. unfold to_float, RN.
  destruct v as [| p | p]; try lia.
  replace (rne (Zpos p) <? 0) with false by (symmetry; apply Z.ltb_ge; lia).
  now rewrite Z.abs_eq by lia.
Qed.

Lemma to_float_RN_neg (v : Z) : v < 0 -> to_float (RN v) = canon true (rne (- v)).
Proof.
  intros Hv. pose proof (rne_pos (- v) ltac:(lia)) as Hr. unfold to_float, RN.
  destruct v as [| p | p]; try lia.
  replace (- rne (- Zneg p) <? 0) with true by (symmetry; apply Z.ltb_lt; lia).
  now rewrite Z.abs_neq, Z.opp_involutive by lia.
Qed.

(** Conversion of an integer mantissa at exponent [e]. *)
Lemma binary_normalize_spec (z e : Z) (szero : bool) :
  -149 <= e -> z <> 0 ->
  binary_normalize 24 128 z e szero = to_float (RN (z * 2 ^ (e + 149))).
Proof.
  intros He Hz. pose proof (pow2_pos (e + 149) ltac:(lia)) as HP.
  destruct z as [| p | p]; [lia | |]; unfold binary_normalize.
  - rewrite binary_round_spec, to_float_RN_pos by lia. reflexivity.
  - rewrite binary_round_spec, to_float_RN_neg by lia.
    f_equal. f_equal. lia.
Qed.

(** The value of a finite float in units of [2^-149]. *)
Lemma scaled_finite (s : bool) (m : positive) (e : Z) :
  -149 <= e ->
  F32.scaled (S754_finite s m e) = Some (cond_Zopp s (Zpos m * 2 ^ (e + 149))).
Proof.
  intros He. unfold F32.scaled. now rewrite Z.shiftl_mul_pow2 by lia.
Qed.

(** Addition of two finite non-zero floats rounds the exact sum once. *)
Lemma add_finite (sx sy : bool) (mx my : positive) (ex ey : Z) :
  -149 <= ex -> -149 <= ey ->
  F32.add (S754_finite sx mx ex) (S754_finite sy my ey) =
  to_float (RN (cond_Zopp sx (Zpos mx * 2 ^ (ex + 149))
                + cond_Zopp sy (Zpos my * 2 ^ (ey + 149)))).
Proof.
  intros Hex Hey. unfold F32.add, SFadd.
  cbv zeta. rewrite !shl_align_spec. cbn [fst].
  replace (Z.min ey (Z.min ex ey)) with (Z.min ex ey) by lia.
  replace (Z.min ex (Z.min ex ey)) with (Z.min ex ey) by lia.
  set (ez := Z.min ex ey).
  pose proof (pow2_pos (ex - ez) ltac:(lia)) as HPx.
  pose proof (pow2_pos (ey - ez) ltac:(lia)) as HPy.
  pose proof (pow2_pos (ez + 149) ltac:(lia)) as HPz.
  rewrite !Z2Pos.id by lia.
  assert (Hx : Zpos mx * 2 ^ (ex + 149) = Zpos mx * 2 ^ (ex - ez) * 2 ^ (ez + 149)).
  { rewrite <- Z.mul_assoc, <- Z.pow_add_r by lia. do 2 f_equal. lia. }
  assert (Hy : Zpos my * 2 ^ (ey + 149) = Zpos my * 2 ^ (ey - ez) * 2 ^ (ez + 149)).
  { rewrite <- Z.mul_assoc, <- Z.pow_add_r by lia. do 2 f_equal. lia. }
  rewrite Hx, Hy.
  set (a := Zpos mx * 2 ^ (ex - ez)). set (b := Zpos my * 2 ^ (ey - ez)).
  replace (cond_Zopp sx (a * 2 ^ (ez + 149)) + cond_Zopp sy (b * 2 ^ (ez + 149)))
    with ((cond_Zopp sx a + cond_Zopp sy b) * 2 ^ (ez + 149))
    by (destruct sx, sy; simpl; lia).
  destruct (Z.eq_dec (cond_Zopp sx a + cond_Zopp sy b) 0) as [-> | Hne].
  - reflexivity.
  - apply binary_normalize_spec; lia.
Qed.

(** *** Canonical floats and representable integers *)

Lemma valid_finite (s : bool) (m : positive) (e : Z) :
  F32.valid (S754_finite s m e) = true <->
  Z.max (digits (Zpos m) + e - 24) (-149) = e /\ e <= 104.
Proof.
  unfold F32.valid, valid_binary, bounded, canonical_mantissa.
  rewrite digits2_pos_digits, fexp_eq, andb_true_iff, Z.eqb_eq, Z.leb_le.
  reflexivity.
Qed.

Lemma representable_mul_pow2 (a k : Z) :
  Z.abs a <= 2 ^ 24 -> 0 <= k -> representable (a * 2 ^ k).
Proof.
  intros Ha Hk. unfold representable.
  pose proof (pow2_pos k Hk) as HP.
  rewrite Z.abs_mul, (Z.abs_eq (2 ^ k)) by lia.
  destruct (Z.eq_dec a 0) as [-> | Hne]; [now rewrite Z.mul_0_l, Zmod_0_l|].
  rewrite digits_mul_pow2 by lia.
  destruct (Z.eq_dec (Z.abs a) (2 ^ 24)) as [-> | Hlt].
  - change (digits (2 ^ 24)) with 25.
    replace (Z.max (25 + k - 24) 0) with (k + 1) by lia.
    rewrite Z.pow_add_r by lia.
    change (2 ^ 24) with (2 ^ 23 * 2 ^ 1).
    rewrite <- Z.mul_assoc, (Z.mul_comm (2 ^ 1)). apply Z.mod_mul. lia.
  - assert (Hd : digits (Z.abs a) <= 24).
    { pose proof (digits_bounds (Z.abs a) ltac:(lia)) as Hb.
      destruct (Z_le_gt_dec (digits (Z.abs a)) 24) as [|Hgt]; [assumption|].
      assert (2 ^ 24 <= 2 ^ (digits (Z.abs a) - 1))
        by (apply Z.pow_le_mono_r; lia). lia. }
    pose proof (digits_pos (Z.abs a) ltac:(lia)) as Hd0.
    set (n := Z.max (digits (Z.abs a) + k - 24) 0).
    assert (Hn : 0 <= n <= k) by lia.
    replace k with ((k - n) + n) by lia.
    rewrite Z.pow_add_r, Z.mul_assoc by lia. apply Z.mod_mul.
    pose proof (pow2_pos n ltac:(lia)). lia.
Qed.

Lemma rne_exact (t : Z) :
  0 < t -> representable t -> rne t = t.
Proof.
  intros Ht Hr. unfold representable in Hr. rewrite Z.abs_eq in Hr by lia.
  unfold rne.
  destruct (Z.leb_spec (digits t - 24) 0) as [| Hn]; [reflexivity|].
  replace (Z.max (digits t - 24) 0) with (digits t - 24) in Hr by lia.
  set (n := digits t - 24) in *.
  pose proof (pow2_pos n ltac:(lia)) as HP.
  pose proof (pow2_pos (n - 1) ltac:(lia)) as HP1.
  unfold round_shifted. rewrite Hr.
  replace (2 ^ (n - 1) <? 0) with false by (symmetry; apply Z.ltb_ge; lia).
  replace (0 =? 2 ^ (n - 1)) with false by (symmetry; apply Z.eqb_neq; lia).
  cbn [orb andb].
  pose proof (Z.div_mod t (2 ^ n) ltac:(lia)). lia.
Qed.

Lemma representable_opp (z : Z) : representable (- z) <-> representable z.
Proof. unfold representable. now rewrite Z.abs_opp. Qed.

Lemma RN_opp (z : Z) : RN (- z) = - RN z.
Proof. destruct z; simpl; try reflexivity. now rewrite Z.opp_involutive. Qed.

Lemma RN_exact (z : Z) : representable z -> RN z = z.
Proof.
  intros Hr. destruct z as [| p | p]; [reflexivity | |].
  - unfold RN. apply rne_exact; [lia | assumption].
  - unfold RN. rewrite rne_exact; [lia | lia |].
    now apply representable_opp in Hr.
Qed.

(** A valid float is the canonical form of its value. *)
Lemma to_float_of_valid (s : bool) (m : positive) (e : Z) :
  F32.valid (S754_finite s m e) = true ->
  to_float (cond_Zopp s (Zpos m * 2 ^ (e + 149))) = S754_finite s m e.
Proof.
  intros Hv. apply valid_finite in Hv. destruct Hv as [Hc He].
  pose proof (digits_pos (Zpos m) ltac:(lia)) as Hd.
  pose proof (pow2_pos (e + 149) ltac:(lia)) as HP.
  assert (Hk : 0 < Zpos m * 2 ^ (e + 149)) by nia.
  unfold to_float.
  replace (Z.abs (cond_Zopp s (Zpos m * 2 ^ (e + 149)))) with (Zpos m * 2 ^ (e + 149))
    by (destruct s; simpl; lia).
  replace (cond_Zopp s (Zpos m * 2 ^ (e + 149)) <? 0) with s
    by (destruct s; simpl; symmetry; [apply Z.ltb_lt | apply Z.ltb_ge]; lia).
  rewrite canon_pos by lia. cbv zeta.
  rewrite digits_mul_pow2 by lia.
  replace (Z.max (digits (Zpos m) + (e + 149) - 24) 0) with (e + 149) by lia.
  replace (e + 149 - 149) with e by lia.
  rewrite Z.div_mul by lia.
  replace (e <=? 104) with true by (symmetry; apply Z.leb_le; lia).
  reflexivity.
Qed.

Lemma representable_of_valid (s : bool) (m : positive) (e : Z) :
  F32.valid (S754_finite s m e) = true ->
  representable (cond_Zopp s (Zpos m * 2 ^ (e + 149))).
Proof.
  intros Hv. apply valid_finite in Hv. destruct Hv as [Hc He].
  pose proof (digits_pos (Zpos m) ltac:(lia)) as Hd.
  pose proof (pow2_pos (e + 149) ltac:(lia)) as HP.
  assert (Hk : 0 < Zpos m * 2 ^ (e + 149)) by nia.
  unfold representable.
  replace (Z.abs (cond_Zopp s (Zpos m * 2 ^ (e + 149)))) with (Zpos m * 2 ^ (e + 149))
    by (destruct s; simpl; lia).
  rewrite digits_mul_pow2 by lia.
  replace (Z.max (digits (Zpos m) + (e + 149) - 24) 0) with (e + 149) by lia.
  apply Z.mod_mul. lia.
Qed.

Lemma bound_of_valid (s : bool) (m : positive) (e : Z) :
  F32.valid (S754_finite s m e) = true ->
  0 < Zpos m * 2 ^ (e + 149) < 2 ^ 277.
Proof.
  intros Hv. apply valid_finite in Hv. destruct Hv as [Hc He].
  pose proof (digits_pos (Zpos m) ltac:(lia)) as Hd.
  pose proof (pow2_pos (e + 149) ltac:(lia)) as HP.
  split; [nia|].
  pose proof (digits_bounds (Zpos m * 2 ^ (e + 149)) ltac:(nia)) as Hb.
  rewrite digits_mul_pow2 in Hb by lia.
  assert (2 ^ (digits (Zpos m) + (e + 149)) <= 2 ^ 277)
    by (apply Z.pow_le_mono_r; lia).
  lia.
Qed.

(** The canonical form of a representable value in range is a valid finite
    float with that value. *)
Lemma to_float_valid (z : Z) :
  representable z -> z <> 0 -> Z.abs z < 2 ^ 277 ->
  exists (m : positive) (e : Z),
    to_float z = S754_finite (z <? 0) m e /\
    F32.valid (S754_finite (z <? 0) m e) = true /\
    cond_Zopp (z <? 0) (Zpos m * 2 ^ (e + 149)) = z.
Proof.
  intros Hr Hz Hb. unfold representable in Hr.
  set (t := Z.abs z) in *. assert (Ht : 0 < t) by lia.
  pose proof (digits_pos t Ht) as Hd.
  pose proof (digits_bounds t Ht) as Hdb.
  assert (Hd277 : digits t <= 277).
  { destruct (Z_le_gt_dec (digits t) 277); [assumption|].
    assert (2 ^ 277 <= 2 ^ (digits t - 1)) by (apply Z.pow_le_mono_r; lia). lia. }
  set (n := Z.max (digits t - 24) 0) in *.
  pose proof (pow2_pos n ltac:(lia)) as HP.
  pose proof (Z.div_mod t (2 ^ n) ltac:(lia)) as Hdm. rewrite Hr in Hdm.
  assert (Hq : 0 < t / 2 ^ n) by nia.
  exists (Z.to_pos (t / 2 ^ n)), (n - 149).
  assert (Hdq : digits (t / 2 ^ n) + n = digits t).
  { rewrite <- digits_mul_pow2 by lia. f_equal. lia. }
  split; [|split].
  - unfold to_float. fold t. rewrite canon_pos by lia. cbv zeta. fold n.
    replace (n - 149 <=? 104) with true by (symmetry; apply Z.leb_le; lia).
    reflexivity.
  - apply valid_finite. rewrite Z2Pos.id by lia. lia.
  - rewrite Z2Pos.id by lia. replace (n - 149 + 149) with n by lia.
    destruct (Z.ltb_spec z 0); simpl; lia.
Qed.

Lemma scaled_to_float (z : Z) :
  representable z -> Z.abs z < 2 ^ 277 -> F32.scaled (to_float z) = Some z.
Proof.
  intros Hr Hb. destruct (Z.eq_dec z 0) as [-> | Hz]; [reflexivity|].
  destruct (to_float_valid z Hr Hz Hb) as (m & e & -> & Hv & Hval).
  apply valid_finite in Hv. rewrite scaled_finite by lia. now rewrite Hval.
Qed.

(** *** [floor] and [ceil] on values *)

Lemma U_pos : 0 < U.
Proof. reflexivity. Qed.

Lemma FL_idem (z : Z) : FL (FL z) = FL z.
Proof. unfold FL. now rewrite Z.div_mul by (pose proof U_pos; lia). Qed.

Lemma FL_mul_U (j : Z) : FL (j * U) = j * U.
Proof. unfold FL. now rewrite Z.div_mul by (pose proof U_pos; lia). Qed.

(** A representable value of magnitude at least [2^24] is a multiple of
    two, hence of one. *)
Lemma representable_big (z : Z) :
  representable z -> 2 ^ 24 * U <= Z.abs z ->
  exists j : Z, z = j * (2 * U).
Proof.
  intros Hr Hb. unfold representable in Hr.
  set (t := Z.abs z) in *.
  assert (Ht : 0 < t) by (unfold U in Hb; lia).
  assert (Hd : 174 <= digits t).
  { destruct (Z_le_gt_dec 174 (digits t)); [assumption|].
    pose proof (digits_bounds t Ht) as Hdb.
    assert (2 ^ digits t <= 2 ^ 173) by (apply Z.pow_le_mono_r; lia).
    change (2 ^ 24 * U) with (2 ^ 173) in Hb. lia. }
  replace (Z.max (digits t - 24) 0) with ((digits t - 174) + 150) in Hr by lia.
  rewrite Z.pow_add_r in Hr by lia.
  pose proof (pow2_pos (digits t - 174) ltac:(lia)) as HP.
  pose proof (Z.div_mod t (2 ^ (digits t - 174) * 2 ^ 150) ltac:(lia)) as Hdm.
  rewrite Hr in Hdm. change (2 * U) with (2 ^ 150).
  set (c := t / (2 ^ (digits t - 174) * 2 ^ 150)) in *.
  destruct (Z_lt_le_dec z 0).
  - exists (- (c * 2 ^ (digits t - 174))). lia.
  - exists (c * 2 ^ (digits t - 174)). lia.
Qed.

Lemma FL_representable (z : Z) :
  representable z -> Z.abs z < 2 ^ 277 ->
  representable (FL z) /\ Z.abs (FL z) < 2 ^ 277.
Proof.
  intros Hr Hb. pose proof U_pos as HU.
  destruct (Z_lt_le_dec (Z.abs z) (2 ^ 24 * U)) as [Hs | Hbig].
  - assert (Hj : - 2 ^ 24 <= z / U < 2 ^ 24).
    { split; [apply Z.div_le_lower_bound | apply Z.div_lt_upper_bound]; lia. }
    split.
    + unfold FL. apply (representable_mul_pow2 (z / U) 149); lia.
    + unfold FL. change (2 ^ 277) with (2 ^ 128 * U). nia.
  - destruct (representable_big z Hr Hbig) as [j ->].
    replace (j * (2 * U)) with ((j * 2) * U) in * by lia.
    rewrite FL_mul_U. split; assumption.
Qed.

Lemma floor_valid_finite (s : bool) (m : positive) (e : Z) :
  F32.valid (S754_finite s m e) = true ->
  F32.floor (S754_finite s m e) =
  to_float (FL (cond_Zopp s (Zpos m * 2 ^ (e + 149)))).
Proof.
  intros Hv. pose proof Hv as Hv'. apply valid_finite in Hv'.
  destruct Hv' as [Hc He].
  pose proof (digits_pos (Zpos m) ltac:(lia)) as Hd.
  pose proof (pow2_pos (e + 149) ltac:(lia)) as HP.
  pose proof U_pos as HU.
  unfold F32.floor.
  destruct (Z.leb_spec 0 e) as [Hpos | Hneg].
  - replace (cond_Zopp s (Zpos m * 2 ^ (e + 149)))
      with (cond_Zopp s (Zpos m * 2 ^ e) * U).
    + rewrite FL_mul_U.
      replace (cond_Zopp s (Zpos m * 2 ^ e) * U)
        with (cond_Zopp s (Zpos m * 2 ^ (e + 149))).
      * symmetry. now apply to_float_of_valid.
      * rewrite Z.pow_add_r by lia. fold U. destruct s; simpl; lia.
    + rewrite Z.pow_add_r by lia. fold U. destruct s; simpl; lia.
  - rewrite Z.shiftr_div_pow2 by lia.
    pose proof (pow2_pos (- e) ltac:(lia)) as HPe.
    assert (HU2 : U = 2 ^ (- e) * 2 ^ (e + 149)).
    { unfold U. rewrite <- Z.pow_add_r by lia. f_equal. lia. }
    assert (Hm24 : Zpos m < 2 ^ 24).
    { pose proof (digits_bounds (Zpos m) ltac:(lia)) as Hb.
      assert (2 ^ digits (Zpos m) <= 2 ^ 24) by (apply Z.pow_le_mono_r; lia).
      lia. }
    set (j := cond_Zopp s (Zpos m) / 2 ^ (- e)).
    assert (Hj : FL (cond_Zopp s (Zpos m * 2 ^ (e + 149))) = j * U).
    { unfold FL. f_equal.
      replace (cond_Zopp s (Zpos m * 2 ^ (e + 149)))
        with (cond_Zopp s (Zpos m) * 2 ^ (e + 149)) by (destruct s; simpl; lia).
      rewrite HU2. rewrite Z.div_mul_cancel_r by lia. reflexivity. }
    rewrite Hj.
    assert (Hjb : - 2 ^ 24 <= j < 2 ^ 24).
    { unfold j. split; [apply Z.div_le_lower_bound | apply Z.div_lt_upper_bound];
        destruct s; simpl; nia. }
    destruct (Z.eq_dec j 0) as [Hj0 | Hj0].
    + rewrite Hj0. simpl binary_normalize.
      assert (s = false).
      { destruct s; [|reflexivity]. exfalso. unfold j in Hj0. simpl in Hj0.
        assert (Zneg m / 2 ^ (- e) < 0)
          by (apply Z.div_lt_upper_bound; lia). lia. }
      subst s. reflexivity.
    + rewrite binary_normalize_spec by lia.
      change (2 ^ (0 + 149)) with U.
      rewrite RN_exact; [reflexivity|].
      unfold U. apply representable_mul_pow2; lia.
Qed.

Lemma canon_opp (s : bool) (v : Z) :
  0 < v -> SFopp (canon s v) = canon (negb s) v.
Proof.
  intros Hv. rewrite !canon_pos by lia. cbv zeta.
  destruct (Z.max (digits v - 24) 0 - 149 <=? 104); reflexivity.
Qed.

Lemma binary_normalize_opp (z : Z) (s : bool) :
  binary_normalize 24 128 (- z) 0 s = SFopp (binary_normalize 24 128 z 0 (negb s)).
Proof.
  destruct z as [| p | p].
  - simpl. now rewrite negb_involutive.
  - change (- Zpos p) with (Zneg p). unfold binary_normalize.
    rewrite !binary_round_spec by lia. rewrite canon_opp; [reflexivity|].
    apply rne_pos. pose proof (pow2_pos (0 + 149) ltac:(lia)). lia.
  - change (- Zneg p) with (Zpos p). unfold binary_normalize.
    rewrite !binary_round_spec by lia. rewrite canon_opp; [reflexivity|].
    apply rne_pos. pose proof (pow2_pos (0 + 149) ltac:(lia)). lia.
Qed.

(** [ceil] is [floor] mirrored. *)
Lemma ceil_opp_floor (x : float32) :
  F32.ceil x = F32.opp (F32.floor (F32.opp x)).
Proof.
  destruct x as [s | s | | s m e]; simpl;
    try reflexivity; try (now rewrite negb_involutive).
  destruct (0 <=? e); simpl.
  - now rewrite negb_involutive.
  - rewrite binary_normalize_opp. unfold F32.opp. f_equal. f_equal.
    destruct s; reflexivity.
Qed.

Lemma valid_opp (x : float32) : F32.valid (F32.opp x) = F32.valid x.
Proof. destruct x; reflexivity. Qed.

Lemma opp_involutive (x : float32) : F32.opp (F32.opp x) = x.
Proof. destruct x; simpl; now rewrite ?negb_involutive. Qed.

(** *** Rounding after adding one half *)

Lemma rne_eq (t n : Z) :
  0 < n -> digits t = 24 + n -> rne t = round_shifted t n * 2 ^ n.
Proof.
  intros Hn Hd. unfold rne. rewrite Hd.
  replace (24 + n - 24) with n by lia.
  destruct (Z.leb_spec n 0); [lia | reflexivity].
Qed.

Lemma round_shifted_eq (t n q r : Z) :
  0 < n -> t = q * 2 ^ n + r -> 0 <= r < 2 ^ n ->
  round_shifted t n =
  if (2 ^ (n - 1) <? r) || ((r =? 2 ^ (n - 1)) && Z.odd q) then q + 1 else q.
Proof.
  intros Hn Ht Hr. unfold round_shifted.
  assert (Hq : t / 2 ^ n = q) by (symmetry; apply (Z.div_unique _ _ _ r); lia).
  assert (Hm : t mod 2 ^ n = r) by (symmetry; apply (Z.mod_unique _ _ q); lia).
  now rewrite Hq, Hm.
Qed.

Lemma digits_le (t B : Z) : 0 < t -> t < 2 ^ B -> digits t <= B.
Proof.
  intros Ht Hb. destruct (Z_le_gt_dec (digits t) B); [assumption|].
  pose proof (digits_bounds t Ht) as Hdb.
  assert (0 <= B).
  { destruct (Z_le_gt_dec 0 B); [assumption|].
    rewrite Z.pow_neg_r in Hb by lia. lia. }
  assert (2 ^ B <= 2 ^ (digits t - 1)) by (apply Z.pow_le_mono_r; lia). lia.
Qed.

Lemma rne_representable (t : Z) :
  0 < t -> representable (rne t) /\ rne t <= 2 ^ digits t.
Proof.
  intros Ht. pose proof (digits_bounds t Ht) as Hdb.
  pose proof (digits_pos t Ht) as Hd. unfold rne.
  destruct (Z.leb_spec (digits t - 24) 0) as [Hle | Hn].
  - split; [|lia].
    replace t with (t * 2 ^ 0) by lia. apply representable_mul_pow2; [|lia].
    assert (2 ^ digits t <= 2 ^ 24) by (apply Z.pow_le_mono_r; lia). lia.
  - pose proof (round_shifted_bounds t (digits t - 24) Ht Hn) as Hb.
    pose proof (div_pow2_range t (digits t - 24) Ht Hn ltac:(lia)) as Hq.
    pose proof (pow2_pos (digits t - 24) ltac:(lia)) as HP.
    split.
    + apply representable_mul_pow2; lia.
    + replace (digits t) with (24 + (digits t - 24)) at 3 by lia.
      rewrite Z.pow_add_r by lia. nia.
Qed.

Lemma RN_representable (z : Z) : representable (RN z).
Proof.
  destruct z as [| p | p]; unfold RN.
  - unfold representable. reflexivity.
  - apply rne_representable. lia.
  - apply representable_opp. apply rne_representable. lia.
Qed.

Lemma RN_bound (z B : Z) : Z.abs z < 2 ^ B -> Z.abs (RN z) <= 2 ^ B.
Proof.
  intros Hb. destruct z as [| p | p]; unfold RN.
  - simpl in *. lia.
  - pose proof (rne_pos (Zpos p) ltac:(lia)).
    pose proof (rne_representable (Zpos p) ltac:(lia)) as [_ Hle].
    pose proof (digits_le (Zpos p) B ltac:(lia) ltac:(lia)).
    pose proof (digits_pos (Zpos p) ltac:(lia)).
    assert (2 ^ digits (Zpos p) <= 2 ^ B) by (apply Z.pow_le_mono_r; lia). lia.
  - pose proof (rne_pos (- Zneg p) ltac:(lia)).
    pose proof (rne_representable (- Zneg p) ltac:(lia)) as [_ Hle].
    pose proof (digits_le (- Zneg p) B ltac:(lia) ltac:(lia)).
    pose proof (digits_pos (- Zneg p) ltac:(lia)).
    assert (2 ^ digits (- Zneg p) <= 2 ^ B) by (apply Z.pow_le_mono_r; lia). lia.
Qed.

Lemma RN_pos_eq (z : Z) : 0 < z -> RN z = rne z.
Proof. intros Hz. destruct z; try lia. reflexivity. Qed.

Lemma RN_neg_eq (z : Z) : z < 0 -> RN z = - rne (- z).
Proof. intros Hz. destruct z; try lia. reflexivity. Qed.

(** A representable value of magnitude at least [2^(23+c)] is a multiple of
    [2^c]. *)
Lemma representable_multiple (z c : Z) :
  representable z -> 0 <= c -> 2 ^ (23 + c) <= Z.abs z ->
  exists j : Z, z = j * 2 ^ c.
Proof.
  intros Hr Hc Hb. unfold representable in Hr.
  set (t := Z.abs z) in *.
  pose proof (pow2_pos (23 + c) ltac:(lia)) as HPc.
  assert (Ht : 0 < t) by lia.
  assert (Hd : 24 + c <= digits t).
  { destruct (Z_le_gt_dec (24 + c) (digits t)); [assumption|].
    pose proof (digits_bounds t Ht) as Hdb.
    pose proof (digits_pos t Ht).
    assert (2 ^ digits t <= 2 ^ (23 + c)) by (apply Z.pow_le_mono_r; lia). lia. }
  replace (Z.max (digits t - 24) 0) with ((digits t - 24 - c) + c) in Hr by lia.
  rewrite Z.pow_add_r in Hr by lia.
  pose proof (pow2_pos (digits t - 24 - c) ltac:(lia)) as HP.
  pose proof (pow2_pos c ltac:(lia)) as HPc'.
  pose proof (Z.div_mod t (2 ^ (digits t - 24 - c) * 2 ^ c) ltac:(lia)) as Hdm.
  rewrite Hr in Hdm.
  set (a := t / (2 ^ (digits t - 24 - c) * 2 ^ c)) in *.
  destruct (Z_lt_le_dec z 0).
  - exists (- (a * 2 ^ (digits t - 24 - c))). lia.
  - exists (a * 2 ^ (digits t - 24 - c)). lia.
Qed.

(** From [2^24] on, one half is less than half the spacing: adding it
    changes nothing. *)
Lemma RN_add_half_big (k : Z) :
  representable k -> 2 ^ 24 * U <= Z.abs k -> RN (k + H) = k.
Proof.
  intros Hr Hb. unfold representable in Hr.
  set (t0 := Z.abs k) in *.
  change (2 ^ 24 * U) with (2 ^ 173) in Hb.
  assert (Ht0 : 0 < t0) by lia.
  pose proof (digits_bounds t0 Ht0) as Hdb.
  assert (Hd : 174 <= digits t0).
  { destruct (Z_le_gt_dec 174 (digits t0)); [assumption|].
    pose proof (digits_le t0 173) as Hd'.
    destruct (Z_lt_le_dec t0 (2 ^ 173)); [lia|].
    pose proof (digits_pos t0 Ht0).
    assert (2 ^ digits t0 <= 2 ^ 173) by (apply Z.pow_le_mono_r; lia). lia. }
  replace (Z.max (digits t0 - 24) 0) with (digits t0 - 24) in Hr by lia.
  set (n := digits t0 - 24) in *.
  assert (Hdn : digits t0 = 24 + n) by lia.
  pose proof (div_pow2_range t0 n Ht0 ltac:(lia) Hdn) as Hq0.
  pose proof (Z.div_mod t0 (2 ^ n) ltac:(pose proof (pow2_pos n); lia)) as Hdm.
  rewrite Hr in Hdm. set (q0 := t0 / 2 ^ n) in *.
  assert (HPn : 2 ^ n = 2 * 2 ^ (n - 1)).
  { replace n with (Z.succ (n - 1)) at 1 by lia. rewrite Z.pow_succ_r; lia. }
  assert (HPn1 : 2 ^ (n - 1) = 2 * 2 ^ (n - 2)).
  { replace (n - 1) with (Z.succ (n - 2)) at 1 by lia. rewrite Z.pow_succ_r; lia. }
  assert (HH : H <= 2 ^ (n - 2)) by (apply Z.pow_le_mono_r; lia).
  assert (HHpos : 0 < H) by reflexivity.
  assert (HHv : H = 2 ^ 148) by reflexivity.
  set (P := 2 ^ (n - 2)) in *.
  destruct (Z_lt_le_dec k 0) as [Hneg | Hpos].
  - (* negative *)
    rewrite RN_neg_eq by lia.
    replace (- (k + H)) with (t0 - H) by lia.
    destruct (Z.eq_dec q0 (2 ^ 23)) as [Hq23 | Hq23].
    + assert (Hdt : digits (t0 - H) = 24 + (n - 1)).
      { apply digits_unique; [|lia].
        replace (24 + (n - 1) - 1) with (22 + n) by lia.
        replace (24 + (n - 1)) with (23 + n) by lia.
        rewrite !Z.pow_add_r by lia. lia. }
      rewrite (rne_eq _ (n - 1)) by (lia || exact Hdt).
      rewrite (round_shifted_eq _ (n - 1) (2 ^ 24 - 1) (2 ^ (n - 1) - H)) by lia.
      replace (n - 1 - 1) with (n - 2) by lia. fold P.
      rewrite HPn1.
      destruct (Z.ltb_spec P (2 * P - H)) as [Hlt | Hge].
      * cbn [orb]. lia.
      * assert (Heq : 2 * P - H = P) by lia. rewrite Heq, Z.eqb_refl.
        cbn [orb andb]. change (Z.odd (2 ^ 24 - 1)) with true. cbv iota. lia.
    + assert (Hdt : digits (t0 - H) = 24 + n).
      { apply digits_unique; [|lia].
        replace (24 + n - 1) with (23 + n) by lia.
        rewrite !Z.pow_add_r by lia. nia. }
      rewrite (rne_eq _ n) by (lia || exact Hdt).
      rewrite (round_shifted_eq _ n (q0 - 1) (2 ^ n - H)) by lia.
      replace (2 ^ (n - 1) <? 2 ^ n - H) with true
        by (symmetry; apply Z.ltb_lt; lia).
      cbn [orb]. lia.
  - (* positive *)
    rewrite RN_pos_eq by lia.
    replace (k + H) with (t0 + H) by lia.
    assert (Hdt : digits (t0 + H) = 24 + n).
    { apply digits_unique; [|lia].
      replace (24 + n - 1) with (23 + n) by lia.
      rewrite !Z.pow_add_r by lia. nia. }
    rewrite (rne_eq _ n) by (lia || exact Hdt).
    rewrite (round_shifted_eq _ n q0 H) by lia.
    replace (2 ^ (n - 1) <? H) with false by (symmetry; apply Z.ltb_ge; lia).
    replace (H =? 2 ^ (n - 1)) with false by (symmetry; apply Z.eqb_neq; lia).
    cbn [orb andb]. lia.
Qed.

(** Between [2^23] and [2^24] the floats are the integers: adding one half
    lands on a tie, which goes to the even neighbour. *)
Lemma RN_add_half_mid_pos (j : Z) :
  2 ^ 23 <= j < 2 ^ 24 ->
  RN (j * U + H) = (if Z.odd j then j + 1 else j) * U.
Proof.
  intros Hj. assert (HU : U = 2 ^ 149) by reflexivity.
  assert (HH : H = 2 ^ 148) by reflexivity.
  rewrite RN_pos_eq by lia.
  assert (Hd : digits (j * U + H) = 24 + 149)
    by (apply digits_unique; lia).
  rewrite (rne_eq _ 149) by (lia || exact Hd).
  rewrite (round_shifted_eq _ 149 j H) by lia.
  change (2 ^ (149 - 1)) with H. rewrite Z.ltb_irrefl, Z.eqb_refl.
  cbn [orb andb]. reflexivity.
Qed.

Lemma RN_add_half_mid_neg (j : Z) :
  2 ^ 23 < j <= 2 ^ 24 ->
  RN (- (j * U) + H) = - ((if Z.odd j then j - 1 else j) * U).
Proof.
  intros Hj. assert (HU : U = 2 ^ 149) by reflexivity.
  assert (HH : H = 2 ^ 148) by reflexivity.
  rewrite RN_neg_eq by lia. f_equal.
  assert (Hd : digits (- (- (j * U) + H)) = 24 + 149)
    by (apply digits_unique; lia).
  rewrite (rne_eq _ 149) by (lia || exact Hd).
  rewrite (round_shifted_eq _ 149 (j - 1) H) by lia.
  change (2 ^ (149 - 1)) with H. rewrite Z.ltb_irrefl, Z.eqb_refl.
  cbn [orb andb]. replace (j - 1) with (Z.pred j) by lia.
  rewrite Z.odd_pred, <- Z.negb_odd.
  destruct (Z.odd j); cbn [negb]; f_equal; lia.
Qed.

(** Below [2^23] the sum stays within [2^23]. *)
Lemma RN_add_half_small (k : Z) :
  Z.abs k < 2 ^ 23 * U -> Z.abs (RN (k + H)) <= 2 ^ 23 * U.
Proof.
  intros Hk. assert (HU : U = 2 ^ 149) by reflexivity.
  assert (HH : H = 2 ^ 148) by reflexivity.
  change (2 ^ 23 * U) with (2 ^ 172) in *.
  destruct (Z_lt_le_dec (k + H) (2 ^ 172)) as [Hlt | Hge].
  - apply RN_bound. lia.
  - rewrite RN_pos_eq by lia.
    assert (Hd : digits (k + H) = 24 + 149)
      by (apply digits_unique; lia).
    rewrite (rne_eq _ 149) by (lia || exact Hd).
    rewrite (round_shifted_eq _ 149 (2 ^ 23) (k + H - 2 ^ 172)) by lia.
    change (2 ^ (149 - 1)) with (2 ^ 148).
    replace (2 ^ 148 <? k + H - 2 ^ 172) with false
      by (symmetry; apply Z.ltb_ge; lia).
    replace (k + H - 2 ^ 172 =? 2 ^ 148) with false
      by (symmetry; apply Z.eqb_neq; lia).
    cbn [orb andb]. lia.
Qed.

(** *** The values [floor (x + 0.5f)] leaves unchanged *)

Lemma nearest_small (i : Z) :
  - 2 ^ 23 <= i <= 2 ^ 23 -> nearest (i * U) = i * U.
Proof.
  intros Hi. assert (HU : U = 2 ^ 149) by reflexivity.
  assert (HH : H = 2 ^ 148) by reflexivity.
  destruct (Z.eq_dec i (2 ^ 23)) as [-> | Hhi]; [vm_compute; reflexivity|].
  destruct (Z.eq_dec i (- 2 ^ 23)) as [-> | Hlo]; [vm_compute; reflexivity|].
  unfold nearest. rewrite RN_exact.
  - unfold FL. f_equal. symmetry. apply (Z.div_unique _ _ _ H); lia.
  - replace (i * U + H) with ((2 * i + 1) * 2 ^ 148) by lia.
    apply representable_mul_pow2; lia.
Qed.

Lemma nearest_mid_even_pos (j : Z) :
  2 ^ 23 <= j <= 2 ^ 24 -> Z.odd j = false -> nearest (j * U) = j * U.
Proof.
  intros Hj Hodd.
  destruct (Z.eq_dec j (2 ^ 24)) as [-> | Hhi]; [vm_compute; reflexivity|].
  unfold nearest. rewrite RN_add_half_mid_pos by lia. rewrite Hodd.
  apply FL_mul_U.
Qed.

Lemma nearest_mid_even_neg (j : Z) :
  2 ^ 23 <= j <= 2 ^ 24 -> Z.odd j = false -> nearest (- (j * U)) = - (j * U).
Proof.
  intros Hj Hodd.
  destruct (Z.eq_dec j (2 ^ 23)) as [-> | Hlo]; [vm_compute; reflexivity|].
  unfold nearest. rewrite RN_add_half_mid_neg by lia. rewrite Hodd.
  replace (- (j * U)) with ((- j) * U) by lia. apply FL_mul_U.
Qed.

Lemma nearest_big (k : Z) :
  representable k -> 2 ^ 24 * U <= Z.abs k -> nearest k = k.
Proof.
  intros Hr Hb. unfold nearest. rewrite RN_add_half_big by assumption.
  destruct (representable_big k Hr Hb) as [j ->].
  replace (j * (2 * U)) with ((j * 2) * U) by lia. apply FL_mul_U.
Qed.

(** [floor (x + 0.5f)], on values, is idempotent. *)
Lemma nearest_idem (k : Z) :
  representable k -> nearest (nearest k) = nearest k.
Proof.
  intros Hr. assert (HU : U = 2 ^ 149) by reflexivity.
  assert (HH : H = 2 ^ 148) by reflexivity.
  destruct (Z_lt_le_dec (Z.abs k) (2 ^ 24 * U)) as [Hlt24 | Hbig].
  2:{ rewrite (nearest_big k Hr Hbig). now apply nearest_big. }
  destruct (Z_lt_le_dec (Z.abs k) (2 ^ 23 * U)) as [Hlt23 | Hmid].
  - (* below 2^23 *)
    pose proof (RN_add_half_small k Hlt23) as Hy.
    unfold nearest at 2 3. unfold FL.
    apply nearest_small.
    split; [apply Z.div_le_lower_bound | apply Z.div_le_upper_bound]; lia.
  - (* between 2^23 and 2^24 *)
    destruct (representable_multiple k 149 Hr ltac:(lia)) as [j Hkj].
    { change (2 ^ (23 + 149)) with (2 ^ 23 * U). exact Hmid. }
    fold U in Hkj. subst k.
    destruct (Z_lt_le_dec j 0) as [Hneg | Hpos].
    + replace (j * U) with (- ((- j) * U)) by lia.
      destruct (Z.eq_dec (- j) (2 ^ 23)) as [-> | Hne].
      * vm_compute; reflexivity.
      * unfold nearest at 2 3. rewrite RN_add_half_mid_neg by lia.
        replace (- ((if Z.odd (- j) then - j - 1 else - j) * U))
          with ((- (if Z.odd (- j) then - j - 1 else - j)) * U) by lia.
        rewrite FL_mul_U.
        replace ((- (if Z.odd (- j) then - j - 1 else - j)) * U)
          with (- ((if Z.odd (- j) then - j - 1 else - j) * U)) by lia.
        apply nearest_mid_even_neg.
        -- destruct (Z.odd (- j)) eqn:Ho; [|lia].
           assert (- j <> 2 ^ 23) by assumption. lia.
        -- destruct (Z.odd (- j)) eqn:Ho; [|exact Ho].
           replace (- j - 1) with (Z.pred (- j)) by lia.
           now rewrite Z.odd_pred, <- Z.negb_odd, Ho.
    + unfold nearest at 2 3. rewrite RN_add_half_mid_pos by lia.
      rewrite FL_mul_U.
      apply nearest_mid_even_pos.
      * destruct (Z.odd j); lia.
      * destruct (Z.odd j) eqn:Ho; [|exact Ho].
        replace (j + 1) with (Z.succ j) by lia.
        now rewrite Z.odd_succ, <- Z.negb_odd, Ho.
Qed.

Lemma nearest_representable (k : Z) :
  representable k -> Z.abs k < 2 ^ 277 ->
  representable (RN (k + H)) /\ Z.abs (RN (k + H)) < 2 ^ 277 /\
  representable (nearest k) /\ Z.abs (nearest k) < 2 ^ 277.
Proof.
  intros Hr Hb. assert (HH : H = 2 ^ 148) by reflexivity.
  assert (HU : U = 2 ^ 149) by reflexivity.
  assert (Hy : representable (RN (k + H)) /\ Z.abs (RN (k + H)) < 2 ^ 277).
  { split; [apply RN_representable|].
    destruct (Z_lt_le_dec (Z.abs k) (2 ^ 24 * U)) as [Hlt | Hbig].
    - pose proof (RN_bound (k + H) 174 ltac:(lia)). lia.
    - now rewrite RN_add_half_big. }
  destruct Hy as [Hy1 Hy2]. repeat split; try assumption;
    now apply FL_representable.
Qed.

(** *** From values back to floats *)

Lemma half_eq : F32.half = S754_finite false 8388608 (-24).
Proof. reflexivity. Qed.

Lemma value_finite (s : bool) (m : positive) (e : Z) :
  F32.valid (S754_finite s m e) = true ->
  value (S754_finite s m e) = cond_Zopp s (Zpos m * 2 ^ (e + 149)).
Proof.
  intros Hv. apply valid_finite in Hv. unfold value.
  rewrite scaled_finite by lia. reflexivity.
Qed.

Lemma value_props (x : float32) :
  F32.valid x = true -> F32.is_finite x = true ->
  F32.scaled x = Some (value x) /\
  representable (value x) /\ Z.abs (value x) < 2 ^ 277.
Proof.
  intros Hv Hf. destruct x as [s | s | | s m e]; try discriminate.
  - repeat split; reflexivity.
  - rewrite value_finite by assumption.
    pose proof (bound_of_valid s m e Hv) as Hb.
    pose proof Hv as Hv'. apply valid_finite in Hv'.
    rewrite scaled_finite by lia.
    split; [reflexivity|]. split; [now apply representable_of_valid|].
    destruct s; simpl; lia.
Qed.

Lemma to_float_0 : to_float 0 = S754_zero false.
Proof. reflexivity. Qed.

Lemma canon_not_nan (s : bool) (v : Z) : 0 <= v -> canon s v <> S754_nan.
Proof.
  intros Hv. destruct v as [| p | p]; try lia; [discriminate|].
  rewrite canon_pos by lia. cbv zeta.
  destruct (_ <=? 104); discriminate.
Qed.

Lemma to_float_not_nan (z : Z) : to_float z <> S754_nan.
Proof. unfold to_float. apply canon_not_nan. lia. Qed.

Lemma to_float_props (z : Z) :
  representable z -> Z.abs z < 2 ^ 277 ->
  F32.valid (to_float z) = true /\ F32.is_finite (to_float z) = true /\
  F32.scaled (to_float z) = Some z /\ value (to_float z) = z.
Proof.
  intros Hr Hb. destruct (Z.eq_dec z 0) as [-> | Hz].
  - repeat split.
  - destruct (to_float_valid z Hr Hz Hb) as (m & e & Heq & Hv & Hval).
    rewrite Heq. split; [exact Hv|]. split; [reflexivity|].
    rewrite value_finite by exact Hv. pose proof Hv as Hv'.
    apply valid_finite in Hv'. rewrite scaled_finite by lia.
    now rewrite Hval.
Qed.

(** [floor] on the canonical float of a value. *)
Lemma floor_to_float (z : Z) :
  representable z -> Z.abs z < 2 ^ 277 ->
  F32.floor (to_float z) = to_float (FL z).
Proof.
  intros Hr Hb. destruct (Z.eq_dec z 0) as [-> | Hz]; [reflexivity|].
  destruct (to_float_valid z Hr Hz Hb) as (m & e & Heq & Hv & Hval).
  rewrite Heq, floor_valid_finite by exact Hv. now rewrite Hval.
Qed.

Lemma floor_finite (x : float32) :
  F32.valid x = true -> F32.is_finite x = true ->
  F32.floor x = x /\ value x = 0 \/ F32.floor x = to_float (FL (value x)).
Proof.
  intros Hv Hf. destruct x as [s | s | | s m e]; try discriminate.
  - left. split; reflexivity.
  - right. rewrite floor_valid_finite, value_finite by assumption. reflexivity.
Qed.

(** [floor (x + 0.5f)] on a finite float. *)
Lemma nearest_finite (x : float32) :
  F32.valid x = true -> F32.is_finite x = true ->
  F32.floor (F32.add x F32.half) = to_float (nearest (value x)).
Proof.
  intros Hv Hf. destruct x as [s | s | | s m e]; try discriminate.
  - destruct s; vm_compute; reflexivity.
  - pose proof (value_props _ Hv Hf) as (_ & Hr & Hb).
    pose proof Hv as Hv'. apply valid_finite in Hv'.
    rewrite half_eq, add_finite by lia.
    rewrite value_finite in * by assumption.
    change (cond_Zopp false (8388608 * 2 ^ (-24 + 149))) with H.
    destruct (nearest_representable _ Hr Hb) as (Hy1 & Hy2 & _).
    now rewrite floor_to_float.
Qed.

Lemma nearest_to_float (z : Z) :
  representable z -> Z.abs z < 2 ^ 277 ->
  F32.floor (F32.add (to_float z) F32.half) = to_float (nearest z).
Proof.
  intros Hr Hb. destruct (to_float_props z Hr Hb) as (Hv & Hf & _ & Hval).
  rewrite nearest_finite by assumption. now rewrite Hval.
Qed.

(** *** Idempotence of the three roundings on one component *)

Lemma floor_idem (x : float32) :
  F32.valid x = true -> F32.floor (F32.floor x) = F32.floor x.
Proof.
  intros Hv. destruct (F32.is_finite x) eqn:Hf.
  - destruct (value_props x Hv Hf) as (_ & Hr & Hb).
    destruct (floor_finite x Hv Hf) as [[Heq _] | Heq].
    + now rewrite !Heq.
    + rewrite Heq. destruct (FL_representable _ Hr Hb) as [Hr' Hb'].
      rewrite floor_to_float by assumption. now rewrite FL_idem.
  - destruct x; try discriminate; reflexivity.
Qed.

Lemma ceil_idem (x : float32) :
  F32.valid x = true -> F32.ceil (F32.ceil x) = F32.ceil x.
Proof.
  intros Hv. rewrite !ceil_opp_floor, opp_involutive.
  rewrite floor_idem; [reflexivity|]. now rewrite valid_opp.
Qed.

Lemma nearest_float_idem (x : float32) :
  F32.valid x = true ->
  F32.floor (F32.add (F32.floor (F32.add x F32.half)) F32.half)
  = F32.floor (F32.add x F32.half).
Proof.
  intros Hv. destruct (F32.is_finite x) eqn:Hf.
  - destruct (value_props x Hv Hf) as (_ & Hr & Hb).
    rewrite (nearest_finite x Hv Hf).
    destruct (nearest_representable _ Hr Hb) as (_ & _ & Hr' & Hb').
    rewrite nearest_to_float by assumption.
    now rewrite nearest_idem.
  - destruct x as [s | s | | s m e]; try discriminate.
    + destruct s; reflexivity.
    + reflexivity.
Qed.

(** *** Integer results *)

Lemma scaled_opp (x : float32) :
  F32.scaled (F32.opp x) = Z.opp <$> F32.scaled x.
Proof.
  destruct x as [s | s | | s m e]; try reflexivity.
  simpl. f_equal. destruct s; simpl; lia.
Qed.

Lemma integer_valued_opp (x : float32) :
  F32.integer_valued x -> F32.integer_valued (F32.opp x).
Proof.
  intros [n Hn]. exists (- n). rewrite scaled_opp, Hn. simpl. f_equal. lia.
Qed.

Lemma is_finite_opp (x : float32) : F32.is_finite (F32.opp x) = F32.is_finite x.
Proof. destruct x; reflexivity. Qed.

Lemma floor_integer (x : float32) :
  F32.valid x = true -> F32.is_finite x = true ->
  F32.is_finite (F32.floor x) = true /\
  F32.scaled (F32.floor x) = Some (value x / U * 2 ^ 149).
Proof.
  intros Hv Hf. destruct (value_props x Hv Hf) as (Hs & Hr & Hb).
  destruct (floor_finite x Hv Hf) as [[Heq H0] | Heq].
  - rewrite Heq, Hs, H0. split; [assumption | reflexivity].
  - rewrite Heq. destruct (FL_representable _ Hr Hb) as [Hr' Hb'].
    destruct (to_float_props _ Hr' Hb') as (_ & Hf' & Hs' & _).
    split; assumption.
Qed.

Lemma ceil_integer (x : float32) :
  F32.valid x = true -> F32.is_finite x = true ->
  F32.is_finite (F32.ceil x) = true /\
  F32.scaled (F32.ceil x) = Some (- (- value x / U) * 2 ^ 149).
Proof.
  intros Hv Hf. rewrite ceil_opp_floor, is_finite_opp, scaled_opp.
  destruct (floor_integer (F32.opp x)) as [Hf' Hs'].
  { now rewrite valid_opp. }
  { now rewrite is_finite_opp. }
  split; [assumption|]. rewrite Hs'. simpl. f_equal.
  assert (Hval : value (F32.opp x) = - value x).
  { unfold value. rewrite scaled_opp. destruct (F32.scaled x); simpl; lia. }
  rewrite Hval. lia.
Qed.

Lemma nearest_integer (x : float32) :
  F32.valid x = true -> F32.is_finite x = true ->
  F32.is_finite (F32.floor (F32.add x F32.half)) = true /\
  F32.scaled (F32.floor (F32.add x F32.half))
  = Some (RN (value x + H) / U * 2 ^ 149).
Proof.
  intros Hv Hf. destruct (value_props x Hv Hf) as (Hs & Hr & Hb).
  rewrite nearest_finite by assumption.
  destruct (nearest_representable _ Hr Hb) as (_ & _ & Hr' & Hb').
  destruct (to_float_props _ Hr' Hb') as (_ & Hf' & Hs' & _).
  split; assumption.
Qed.

(** A value exactly half way between two integers goes to the upper one. *)
Lemma nearest_tie (x : float32) (n : Z) :
  F32.valid x = true -> F32.scaled x = Some ((2 * n + 1) * H) ->
  F32.scaled (F32.floor (F32.add x F32.half)) = Some ((n + 1) * U).
Proof.
  intros Hv Hs.
  assert (Hf : F32.is_finite x = true) by (destruct x; try discriminate; reflexivity).
  destruct (value_props x Hv Hf) as (Hs' & Hr & Hb).
  assert (Hval : value x = (2 * n + 1) * H) by congruence.
  assert (HU : U = 2 ^ 149) by reflexivity.
  assert (HH : H = 2 ^ 148) by reflexivity.
  assert (Hn : Z.abs ((2 * n + 1) * H) < 2 ^ 23 * U).
  { destruct (Z_lt_le_dec (Z.abs ((2 * n + 1) * H)) (2 ^ 23 * U)); [assumption|].
    exfalso. rewrite Hval in Hr.
    destruct (representable_multiple _ 149 Hr ltac:(lia)) as [j Hj]; [assumption|].
    lia. }
  destruct (nearest_integer x Hv Hf) as [_ Heq]. rewrite Heq, Hval.
  replace ((2 * n + 1) * H + H) with ((n + 1) * U) by lia.
  rewrite RN_exact by (unfold U; apply representable_mul_pow2; lia).
  rewrite Z.div_mul by lia. reflexivity.
Qed.

(** The sum in [floor (x + 0.5f)] is a float sum: for the largest float
    below one half it rounds to one. *)
Example nearest_largest_below_half :
  F32.valid (S754_finite false 16777215 (-25)) = true /\
  F32.scaled (S754_finite false 16777215 (-25)) = Some (H - 2 ^ 124) /\
  F32.floor (F32.add (S754_finite false 16777215 (-25)) F32.half) = F32.one.
Proof. repeat split; vm_compute; reflexivity. Qed.

(** *** Comparison *)

Lemma eqb_refl (x : float32) : x <> S754_nan -> F32.eqb x x = true.
Proof.
  intros Hn. destruct x as [s | s | | s m e]; try congruence.
  - reflexivity.
  - destruct s; reflexivity.
  - unfold F32.eqb, SFeqb, SFcompare.
    rewrite Z.compare_refl, Pos.compare_cont_refl. destruct s; reflexivity.
Qed.

Lemma floor_not_nan (x : float32) :
  F32.valid x = true -> x <> S754_nan -> F32.floor x <> S754_nan.
Proof.
  intros Hv Hn. destruct x as [s | s | | s m e]; try congruence; try discriminate.
  rewrite floor_valid_finite by assumption. apply to_float_not_nan.
Qed.

Lemma ceil_not_nan (x : float32) :
  F32.valid x = true -> x <> S754_nan -> F32.ceil x <> S754_nan.
Proof.
  intros Hv Hn. rewrite ceil_opp_floor.
  assert (F32.floor (F32.opp x) <> S754_nan).
  { apply floor_not_nan; [now rewrite valid_opp|].
    destruct x; try discriminate; congruence. }
  destruct (F32.floor (F32.opp x)); try discriminate; congruence.
Qed.

Lemma nearest_not_nan (x : float32) :
  F32.valid x = true -> x <> S754_nan ->
  F32.floor (F32.add x F32.half) <> S754_nan.
Proof.
  intros Hv Hn. destruct (F32.is_finite x) eqn:Hf.
  - rewrite nearest_finite by assumption. apply to_float_not_nan.
  - destruct x as [s | s | | s m e]; try discriminate; try congruence.
Qed.

(** *** Halving *)

Lemma two_eq : F32.of_Z 2 = S754_finite false 8388608 (-22).
Proof. reflexivity. Qed.

Lemma loc_of_shr_record_of_loc (m : Z) (l : location) :
  loc_of_shr_record (shr_record_of_loc m l) = l.
Proof. destruct l as [| []]; reflexivity. Qed.

Lemma shr_m_of_loc (m : Z) (l : location) : shr_m (shr_record_of_loc m l) = m.
Proof. destruct l as [| []]; reflexivity. Qed.

(** The quotient and the location [SFdiv] computes for a division by two. *)
Lemma div_core_two (m : positive) (e : Z) :
  F32.valid (S754_finite false m e) = true ->
  SFdiv_core_binary 24 128 (Zpos m) e 8388608 (-22) =
  if e =? -149
  then (Zpos m / 2, -149,
        if Z.odd (Zpos m) then loc_Inexact Eq else loc_Exact)
  else (Zpos m * 2 ^ (Z.min 2 (e + 149) - 1), Z.max (e - 2) (-149), loc_Exact).
Proof.
  intros Hv. apply valid_finite in Hv. destruct Hv as [Hc He].
  pose proof (digits_pos (Zpos m) ltac:(lia)) as Hd.
  unfold SFdiv_core_binary.
  rewrite Zdigits2_digits by lia.
  change (Zdigits2 8388608) with 24. rewrite fexp_eq.
  replace (Z.min (Z.max (digits (Zpos m) + e - (24 + -22) - 24) (-149)) (e - -22))
    with (Z.max (e - 2) (-149)) by lia.
  destruct (Z.eqb_spec e (-149)) as [-> | Hne].
  - change (Z.max (-149 - 2) (-149)) with (-149).
    change (-149 - -22 - -149) with 22. cbv iota.
    rewrite Z.shiftl_mul_pow2 by lia.
    pose proof (Z.div_mod (Zpos m) 2 ltac:(lia)) as Hdm.
    pose proof (Z.mod_pos_bound (Zpos m) 2 ltac:(lia)) as Hb.
    pose proof (Z.bit0_mod (Zpos m)) as Hodd. rewrite Z.bit0_odd in Hodd.
    assert (Hq : Zpos m * 2 ^ 22 = 8388608 * (Zpos m / 2) + (Zpos m mod 2) * 2 ^ 22)
      by lia.
    pose proof (Z.div_eucl_eq (Zpos m * 2 ^ 22) 8388608 ltac:(lia)) as Hde.
    pose proof (Z.mod_pos_bound (Zpos m * 2 ^ 22) 8388608 ltac:(lia)) as Hbe.
    unfold Z.modulo in Hbe.
    destruct (Z.div_eucl (Zpos m * 2 ^ 22) 8388608) as [q r].
    assert (Hqq : q = Zpos m / 2) by nia.
    assert (Hrr : r = (Zpos m mod 2) * 2 ^ 22) by nia.
    subst q r. f_equal.
    destruct (Z.odd (Zpos m)); simpl Z.b2z in Hodd; rewrite <- Hodd; reflexivity.
  - assert (Hd24 : digits (Zpos m) = 24) by lia.
    set (e' := Z.max (e - 2) (-149)).
    assert (Hs : e - -22 - e' = 22 + Z.min 2 (e + 149)) by lia.
    rewrite Hs.
    set (s := 22 + Z.min 2 (e + 149)). assert (Hs23 : 23 <= s <= 24) by lia.
    destruct s as [| sp | sp] eqn:Es; try lia.
    rewrite Z.shiftl_mul_pow2 by lia. rewrite <- Es in *.
    pose proof (pow2_pos (s - 23) ltac:(lia)) as HP.
    assert (Hpow : 2 ^ s = 8388608 * 2 ^ (s - 23)).
    { change 8388608 with (2 ^ 23). rewrite <- Z.pow_add_r by lia. f_equal. lia. }
    pose proof (Z.div_eucl_eq (Zpos m * 2 ^ s) 8388608 ltac:(lia)) as Hde.
    pose proof (Z.mod_pos_bound (Zpos m * 2 ^ s) 8388608 ltac:(lia)) as Hbe.
    unfold Z.modulo in Hbe.
    destruct (Z.div_eucl (Zpos m * 2 ^ s) 8388608) as [q r].
    assert (Hrr : r = 0) by nia. subst r.
    assert (Hqq : q = Zpos m * 2 ^ (s - 23)) by nia.
    rewrite Hqq. cbv iota. unfold s.
    replace (22 + Z.min 2 (e + 149) - 23) with (Z.min 2 (e + 149) - 1) by lia.
    reflexivity.
Qed.

Lemma canon_of_valid (s : bool) (m : positive) (e : Z) :
  F32.valid (S754_finite s m e) = true ->
  canon s (Zpos m * 2 ^ (e + 149)) = S754_finite s m e.
Proof.
  intros Hv. apply valid_finite in Hv. destruct Hv as [Hc He].
  pose proof (digits_pos (Zpos m) ltac:(lia)) as Hd.
  pose proof (pow2_pos (e + 149) ltac:(lia)) as HP.
  rewrite canon_pos by nia. cbv zeta.
  rewrite digits_mul_pow2 by lia.
  replace (Z.max (digits (Zpos m) + (e + 149) - 24) 0) with (e + 149) by lia.
  replace (e + 149 - 149) with e by lia.
  rewrite Z.div_mul by lia.
  replace (e <=? 104) with true by (symmetry; apply Z.leb_le; lia).
  reflexivity.
Qed.

Lemma Zdigits2_le (z : Z) : 0 <= z < 2 ^ 24 -> 0 <= Zdigits2 z <= 24.
Proof.
  intros Hz. destruct (Z.eq_dec z 0) as [-> | Hne]; [simpl; lia|].
  rewrite Zdigits2_digits by lia.
  pose proof (digits_pos z ltac:(lia)). pose proof (digits_le z 24 ltac:(lia)). lia.
Qed.

Lemma mantissa_bound (s : bool) (m : positive) (e : Z) :
  F32.valid (S754_finite s m e) = true -> Zpos m < 2 ^ 24.
Proof.
  intros Hv. apply valid_finite in Hv. destruct Hv as [Hc He].
  pose proof (digits_bounds (Zpos m) ltac:(lia)) as Hb.
  pose proof (digits_pos (Zpos m) ltac:(lia)) as Hd.
  assert (2 ^ digits (Zpos m) <= 2 ^ 24) by (apply Z.pow_le_mono_r; lia). lia.
Qed.

(** Multiplying by [0.5f] and dividing by [2.0f] give the same float. *)
Lemma mul_half_div_two (x : float32) :
  F32.valid x = true -> F32.mul x F32.half = F32.div x (F32.of_Z 2).
Proof.
  intros Hv. rewrite half_eq, two_eq.
  destruct x as [s | s | | s m e]; try reflexivity.
  pose proof Hv as Hv'. apply valid_finite in Hv'. destruct Hv' as [Hc He].
  pose proof (digits_pos (Zpos m) ltac:(lia)) as Hd.
  pose proof (mantissa_bound s m e Hv) as Hm24.
  unfold F32.mul, F32.div, SFmul, SFdiv, F32.prec, F32.emax.
  rewrite (div_core_two m e) by exact Hv.
  rewrite xorb_false_r, Pos2Z.inj_mul.
  change (Zpos 8388608) with (2 ^ 23).
  assert (HdM : digits (Zpos m * 2 ^ 23) = digits (Zpos m) + 23)
    by (apply digits_mul_pow2; lia).
  assert (HM : 0 < Zpos m * 2 ^ 23) by (apply Z.mul_pos_pos; lia).
  destruct (Z.eqb_spec e (-149)) as [-> | Hne].
  - (* the lowest exponent: the last bit may be lost *)
    unfold binary_round_aux.
    assert (Hn : 0 < fexp 24 128 (digits (Zpos m * 2 ^ 23) + (-149 + -24))
                     - (-149 + -24)). by (rewrite fexp_eq; lia).
    rewrite (shr_fexp_exact_large _ _ HM Hn). cbv zeta.
    rewrite fexp_eq, HdM.
    replace (Z.max (digits (Zpos m) + 23 + (-149 + -24) - 24) (-149) - (-149 + -24))
      with 24 by lia.
    cbn [shr_m]. rewrite round_nearest_even_shifted by lia.
    change (-149 + -24 + 24) with (-149).
    pose proof (Z.div_mod (Zpos m) 2 ltac:(lia)) as Hdm.
    pose proof (Z.mod_pos_bound (Zpos m) 2 ltac:(lia)) as Hb.
    pose proof (Z.bit0_mod (Zpos m)) as Hodd. rewrite Z.bit0_odd in Hodd.
    assert (Hq2 : 0 <= Zpos m / 2 < 2 ^ 24) by lia.
    pose proof (Zdigits2_le _ Hq2) as Hdq.
    unfold shr_fexp at 2. rewrite fexp_eq.
    rewrite shr_nonpos by lia.
    rewrite loc_of_shr_record_of_loc, shr_m_of_loc.
    assert (Hround :
      round_shifted (Zpos m * 2 ^ 23) 24 =
      round_nearest_even (Zpos m / 2)
        (if Z.odd (Zpos m) then loc_Inexact Eq else loc_Exact)).
    { rewrite (round_shifted_eq _ 24 (Zpos m / 2) ((Zpos m mod 2) * 2 ^ 23)) by lia.
      change (2 ^ (24 - 1)) with (2 ^ 23).
      destruct (Z.odd (Zpos m)); simpl Z.b2z in Hodd; rewrite <- Hodd.
      - change (1 * 2 ^ 23) with (2 ^ 23).
        rewrite Z.ltb_irrefl, Z.eqb_refl. cbn [orb andb round_nearest_even].
        rewrite <- Z.negb_odd. destruct (Z.odd (Zpos m / 2)); reflexivity.
      - reflexivity. }
    rewrite Hround. reflexivity.
  - (* otherwise halving lowers the exponent by one *)
    assert (Hd24 : digits (Zpos m) = 24) by lia.
    transitivity (S754_finite s m (e - 1)).
    + unfold binary_round_aux.
      assert (Hn : 0 < fexp 24 128 (digits (Zpos m * 2 ^ 23) + (e + -24))
                       - (e + -24)) by (rewrite fexp_eq; lia).
      rewrite (shr_fexp_exact_large _ _ HM Hn). cbv zeta.
      rewrite fexp_eq, HdM.
      replace (Z.max (digits (Zpos m) + 23 + (e + -24) - 24) (-149) - (e + -24))
        with 23 by lia.
      cbn [shr_m]. rewrite round_nearest_even_shifted by lia.
      rewrite (round_shifted_eq _ 23 (Zpos m) 0) by lia.
      change (2 ^ (23 - 1) <? 0) with false.
      change (0 =? 2 ^ (23 - 1)) with false. cbn [orb andb].
      replace (e + -24 + 23) with (e - 1) by lia.
      rewrite shr_fexp_exact_small by (rewrite ?fexp_eq; lia).
      cbn [shr_m].
      replace (e - 1 <=? 128 - 24) with true by (symmetry; apply Z.leb_le; lia).
      reflexivity.
    + symmetry.
      set (k := Z.min 2 (e + 149) - 1). assert (Hk : 0 <= k <= 1) by lia.
      pose proof (pow2_pos k ltac:(lia)) as HPk.
      rewrite binary_round_aux_spec.
      * replace (Zpos m * 2 ^ k * 2 ^ (Z.max (e - 2) (-149) + 149))
          with (Zpos m * 2 ^ (e - 1 + 149)).
        2:{ rewrite <- Z.mul_assoc, <- Z.pow_add_r by lia. do 2 f_equal. lia. }
        assert (Hv1 : F32.valid (S754_finite s m (e - 1)) = true)
          by (apply valid_finite; lia).
        rewrite rne_exact.
        -- now apply canon_of_valid.
        -- pose proof (pow2_pos (e - 1 + 149) ltac:(lia)). nia.
        -- apply (representable_of_valid false m (e - 1)).
           apply valid_finite; lia.
      * nia.
      * lia.
      * rewrite fexp_eq, digits_mul_pow2 by lia. lia.
Qed.

End F32Facts.

Import F32Facts.

(** ** Running member functions *)

Section Run.
Context {E : Type} `{IDraw2d.Engine E}.

Lemma bind_run {A B : Type} (c : M E A) (k : A -> M E B) w a w' :
  c w = Some (a, w') -> (c ≫= k) w = k a w'.
Proof. intros Hc. unfold mbind, M_bind. now rewrite Hc. Qed.

Lemma query_run {A : Type} (f : E -> A) (w : World E) p e :
  engines w !! p = Some e -> query p f w = Some (f e, w).
Proof. intros He. unfold query. now rewrite He. Qed.

Lemma invoke_run (f : E -> E) (w : World E) p e :
  engines w !! p = Some e ->
  invoke p f w = Some (tt, mkWorld (<[p := f e]> (engines w)) (gEnv w)).
Proof. intros He. unfold invoke. now rewrite He. Qed.

Lemma resolves_gEnv (w w' : World E) draw2d p :
  gEnv w' = gEnv w -> resolves w draw2d p -> resolves w' draw2d p.
Proof.
  intros Hg [-> | [-> Hd]]; [now left | right; split; [reflexivity|]].
  revert Hd. unfold Draw2dHelper.GetDefaultDraw2d. rewrite Hg.
  destruct (gEnv w) as [env|]; [|discriminate].
  destruct (SSystemGlobalEnvironment.pLyShine env) as [ly|]; [|discriminate].
  intros [= ->]. reflexivity.
Qed.

(** The constructor body, once an engine is found. *)
Lemma InitCommon_resolved (w : World E) (this : Draw2dHelper.t) draw2d p e d :
  resolves w draw2d p ->
  engines w !! p = Some e ->
  Draw2dHelper.InitCommon this draw2d d w =
    Some ({| Draw2dHelper.m_imageOptions :=
               GetDefaultImageOptions (SetDeferPrimitives e d);
             Draw2dHelper.m_textOptions :=
               GetDefaultTextOptions (SetDeferPrimitives e d);
             Draw2dHelper.m_draw2d := Some p;
             Draw2dHelper.m_previousDeferCalls := GetDeferPrimitives e |},
          mkWorld (<[p := SetDeferPrimitives e d]> (engines w)) (gEnv w)).
Proof.
  intros Hres He.
  assert (Hfirst :
    (match Draw2dHelper.m_draw2d (Draw2dHelper.with_draw2d this draw2d) with
     | None => d0 ← Draw2dHelper.GetDefaultDraw2d;
               mret (Draw2dHelper.with_draw2d (Draw2dHelper.with_draw2d this draw2d) d0)
     | Some _ => mret (Draw2dHelper.with_draw2d this draw2d)
     end : M E Draw2dHelper.t) w =
    Some (Draw2dHelper.with_draw2d this (Some p), w)).
  { destruct Hres as [-> | [-> Hdef]]; simpl; [reflexivity|].
    now rewrite (bind_run _ _ _ _ _ Hdef). }
  unfold Draw2dHelper.InitCommon; cbv zeta.
  rewrite (bind_run _ _ _ _ _ Hfirst). simpl.
  rewrite (bind_run _ _ _ _ _ (query_run _ _ _ _ He)).
  rewrite (bind_run _ _ _ _ _ (invoke_run _ _ _ _ He)).
  assert (He' : engines (mkWorld (<[p := SetDeferPrimitives e d]> (engines w)) (gEnv w)) !! p
                = Some (SetDeferPrimitives e d)) by apply lookup_insert_eq.
  rewrite (bind_run _ _ _ _ _ (query_run _ _ _ _ He')).
  rewrite (bind_run _ _ _ _ _ (query_run _ _ _ _ He')).
  reflexivity.
Qed.

(** The constructor body when neither the argument nor the game provides
    an engine. *)
Lemma InitCommon_unresolved (w : World E) (this : Draw2dHelper.t) d :
  Draw2dHelper.GetDefaultDraw2d w = Some (None, w) ->
  Draw2dHelper.InitCommon this None d w =
    Some (Draw2dHelper.with_draw2d this None, w).
Proof.
  intros Hdef. unfold Draw2dHelper.InitCommon; cbv zeta. simpl.
  rewrite (bind_run _ _ _ _ _ (bind_run _ _ _ _ _ Hdef)). reflexivity.
Qed.

Lemma dtor_run (w : World E) (this : Draw2dHelper.t) p e :
  Draw2dHelper.m_draw2d this = Some p ->
  engines w !! p = Some e ->
  Draw2dHelper.dtor this w =
    Some (tt, mkWorld (<[p := SetDeferPrimitives e
                               (Draw2dHelper.m_previousDeferCalls this)]> (engines w))
                (gEnv w)).
Proof.
  intros Hp He. unfold Draw2dHelper.dtor. rewrite Hp.
  now rewrite (invoke_run _ _ _ _ He).
Qed.

End Run.

(** The reference engine obeys the laws of the interface. *)
#[export] Instance Draw2d_laws : IDraw2d.EngineLaws Draw2d.t.
Proof. split; reflexivity. Qed.

(** ** The scoped helper *)

Section Helper.
Context {E : Type} `{IDraw2d.EngineLaws E}.

(** C1: over an engine in defer mode [D0], a helper A built with flag [D1]
    and a nested helper B built with flag [D2] capture [D0] and [D1]; when
    B is destroyed the mode is [D1] again and when A is destroyed
    afterwards it is [D0] again. *)
Theorem nested_helpers_restore_defer_mode
    (w : World E) (p : nat) (e : E) (drawA drawB : option nat)
    (storageA storageB : Draw2dHelper.t) (D1 D2 : bool) :
  engines w !! p = Some e ->
  resolves w drawA p ->
  resolves w drawB p ->
  exists (A B : Draw2dHelper.t) (w1 w2 w3 w4 : World E),
    Draw2dHelper.ctor storageA drawA D1 w = Some (A, w1) /\
    Draw2dHelper.ctor storageB drawB D2 w1 = Some (B, w2) /\
    Draw2dHelper.dtor B w2 = Some (tt, w3) /\
    Draw2dHelper.dtor A w3 = Some (tt, w4) /\
    Draw2dHelper.m_previousDeferCalls A = GetDeferPrimitives e /\
    Draw2dHelper.m_previousDeferCalls B = D1 /\
    defer_mode w1 p = Some D1 /\
    defer_mode w2 p = Some D2 /\
    defer_mode w3 p = Some (Draw2dHelper.m_previousDeferCalls B) /\
    defer_mode w3 p = Some D1 /\
    defer_mode w4 p = Some (Draw2dHelper.m_previousDeferCalls A) /\
    defer_mode w4 p = Some (GetDeferPrimitives e).
Proof.
  intros He HA HB.
  pose proof (InitCommon_resolved w (Draw2dHelper.members_init storageA)
                drawA p e D1 HA He) as HctorA.
  set (w1 := mkWorld (<[p := SetDeferPrimitives e D1]> (engines w)) (gEnv w)) in *.
  assert (He1 : engines w1 !! p = Some (SetDeferPrimitives e D1))
    by apply lookup_insert_eq.
  pose proof (InitCommon_resolved w1 (Draw2dHelper.members_init storageB)
                drawB p _ D2 (resolves_gEnv w w1 _ _ eq_refl HB) He1) as HctorB.
  set (w2 := mkWorld _ (gEnv w1)) in HctorB.
  assert (He2 : engines w2 !! p = Some (SetDeferPrimitives (SetDeferPrimitives e D1) D2))
    by apply lookup_insert_eq.
  match type of HctorA with _ = Some (?a, _) => set (A := a) in * end.
  match type of HctorB with _ = Some (?b, _) => set (B := b) in * end.
  pose proof (dtor_run w2 B p _ eq_refl He2) as HdB.
  set (w3 := mkWorld _ (gEnv w2)) in HdB.
  assert (He3 : engines w3 !! p =
                Some (SetDeferPrimitives (SetDeferPrimitives (SetDeferPrimitives e D1) D2)
                        (Draw2dHelper.m_previousDeferCalls B)))
    by apply lookup_insert_eq.
  pose proof (dtor_run w3 A p _ eq_refl He3) as HdA.
  set (w4 := mkWorld _ (gEnv w3)) in HdA.
  assert (He4 : engines w4 !! p =
                Some (SetDeferPrimitives
                        (SetDeferPrimitives (SetDeferPrimitives (SetDeferPrimitives e D1) D2)
                           (Draw2dHelper.m_previousDeferCalls B))
                        (Draw2dHelper.m_previousDeferCalls A)))
    by apply lookup_insert_eq.
  assert (HpB : Draw2dHelper.m_previousDeferCalls B = D1)
    by apply GetDeferPrimitives_SetDeferPrimitives.
  exists A, B, w1, w2, w3, w4.
  unfold defer_mode. rewrite He1, He2, He3, He4. simpl.
  rewrite !GetDeferPrimitives_SetDeferPrimitives.
  repeat split; try assumption; try reflexivity; now rewrite HpB.
Qed.

(** C5: a constructor, over the engine [e] it resolves (the explicit
    argument or the default-located engine), saves the defer mode of [e],
    sets the mode to the requested flag and copies the engine's current
    default image and text options, which are those of [e], into the
    helper. *)
Theorem ctor_saves_sets_and_copies
    (w : World E) (p : nat) (e : E) (draw2d : option nat)
    (storage : Draw2dHelper.t) (deferCalls : bool) :
  engines w !! p = Some e ->
  resolves w draw2d p ->
  exists (h : Draw2dHelper.t) (w' : World E),
    Draw2dHelper.ctor storage draw2d deferCalls w = Some (h, w') /\
    (draw2d = None ->
     Draw2dHelper.ctor_default storage deferCalls w = Some (h, w')) /\
    Draw2dHelper.m_draw2d h = Some p /\
    Draw2dHelper.m_previousDeferCalls h = GetDeferPrimitives e /\
    engines w' !! p = Some (SetDeferPrimitives e deferCalls) /\
    defer_mode w' p = Some deferCalls /\
    (exists e' : E,
       engines w' !! p = Some e' /\
       Draw2dHelper.m_imageOptions h = GetDefaultImageOptions e' /\
       Draw2dHelper.m_textOptions h = GetDefaultTextOptions e') /\
    Draw2dHelper.m_imageOptions h = GetDefaultImageOptions e /\
    Draw2dHelper.m_textOptions h = GetDefaultTextOptions e /\
    (forall q : nat, q <> p -> engines w' !! q = engines w !! q) /\
    gEnv w' = gEnv w.
Proof.
  intros He Hres.
  eexists _, _. split.
  { unfold Draw2dHelper.ctor. apply (InitCommon_resolved w _ draw2d p e _ Hres He). }
  split.
  { intros ->. apply (InitCommon_resolved w _ None p e _ Hres He). }
  simpl. unfold defer_mode. simpl. rewrite lookup_insert_eq. simpl.
  rewrite GetDeferPrimitives_SetDeferPrimitives.
  split; [reflexivity|]. split; [reflexivity|]. split; [reflexivity|].
  split; [reflexivity|].
  split; [exists (SetDeferPrimitives e deferCalls); repeat split|].
  rewrite GetDefaultImageOptions_SetDeferPrimitives,
    GetDefaultTextOptions_SetDeferPrimitives.
  repeat split; try reflexivity.
  intros q Hq. now apply lookup_insert_ne.
Qed.

End Helper.

Lemma nested_helpers_restore_defer_mode_witness :
  engines sample_world !! 1%nat = Some sample_engine /\
  resolves sample_world (Some 1%nat) 1%nat /\
  resolves sample_world None 1%nat /\
  exists (A B : Draw2dHelper.t) (w1 w2 w3 w4 : World Draw2d.t),
    Draw2dHelper.ctor sample_storage (Some 1%nat) true sample_world = Some (A, w1) /\
    Draw2dHelper.ctor sample_storage None false w1 = Some (B, w2) /\
    Draw2dHelper.dtor B w2 = Some (tt, w3) /\
    Draw2dHelper.dtor A w3 = Some (tt, w4) /\
    Draw2dHelper.m_previousDeferCalls A = GetDeferPrimitives sample_engine /\
    Draw2dHelper.m_previousDeferCalls B = true /\
    defer_mode w1 1%nat = Some true /\
    defer_mode w2 1%nat = Some false /\
    defer_mode w3 1%nat = Some (Draw2dHelper.m_previousDeferCalls B) /\
    defer_mode w3 1%nat = Some true /\
    defer_mode w4 1%nat = Some (Draw2dHelper.m_previousDeferCalls A) /\
    defer_mode w4 1%nat = Some (GetDeferPrimitives sample_engine).
Proof.
  assert (H1 : engines sample_world !! 1%nat = Some sample_engine) by reflexivity.
  assert (H2 : resolves sample_world (Some 1%nat) 1%nat) by (left; reflexivity).
  assert (H3 : resolves sample_world None 1%nat)
    by (right; split; reflexivity).
  split; [exact H1 | split; [exact H2 | split; [exact H3 |] ] ].
  exact (nested_helpers_restore_defer_mode sample_world 1%nat sample_engine
           (Some 1%nat) None sample_storage sample_storage true false H1 H2 H3).
Defined.

Lemma ctor_saves_sets_and_copies_witness :
  engines sample_world !! 1%nat = Some sample_engine /\
  resolves sample_world None 1%nat /\
  exists (h : Draw2dHelper.t) (w' : World Draw2d.t),
    Draw2dHelper.ctor sample_storage None true sample_world = Some (h, w') /\
    (@None nat = None ->
     Draw2dHelper.ctor_default sample_storage true sample_world = Some (h, w')) /\
    Draw2dHelper.m_draw2d h = Some 1%nat /\
    Draw2dHelper.m_previousDeferCalls h = GetDeferPrimitives sample_engine /\
    engines w' !! 1%nat = Some (SetDeferPrimitives sample_engine true) /\
    defer_mode w' 1%nat = Some true /\
    (exists e' : Draw2d.t,
       engines w' !! 1%nat = Some e' /\
       Draw2dHelper.m_imageOptions h = GetDefaultImageOptions e' /\
       Draw2dHelper.m_textOptions h = GetDefaultTextOptions e') /\
    Draw2dHelper.m_imageOptions h = GetDefaultImageOptions sample_engine /\
    Draw2dHelper.m_textOptions h = GetDefaultTextOptions sample_engine /\
    (forall q : nat, q <> 1%nat -> engines w' !! q = engines sample_world !! q) /\
    gEnv w' = gEnv sample_world.
Proof.
  assert (H1 : engines sample_world !! 1%nat = Some sample_engine) by reflexivity.
  assert (H3 : resolves sample_world None 1%nat)
    by (right; split; reflexivity).
  split; [exact H1 | split; [exact H3 |] ].
  exact (ctor_saves_sets_and_copies sample_world 1%nat sample_engine None
           sample_storage true H1 H3).
Defined.

Section Inert.
Context {E : Type} `{IDraw2d.Engine E}.

(** C6: a helper built with a null engine while the game has none holds a
    null pointer and is inert: from then on, in any world, each forwarding
    draw call and the destructor leave the world as it is, and
    [GetTextSize] returns [(0, 0)]. *)
Theorem unresolved_helper_is_inert
    (w : World E) (storage : Draw2dHelper.t) (deferCalls : bool) :
  Draw2dHelper.GetDefaultDraw2d w = Some (None, w) ->
  exists h : Draw2dHelper.t,
    Draw2dHelper.ctor storage None deferCalls w = Some (h, w) /\
    Draw2dHelper.ctor_default storage deferCalls w = Some (h, w) /\
    Draw2dHelper.m_draw2d h = None /\
    inert (E := E) h.
Proof.
  intros Hdef.
  exists (Draw2dHelper.with_draw2d (Draw2dHelper.members_init storage) None).
  split; [now apply InitCommon_unresolved|].
  split; [now apply InitCommon_unresolved|].
  split; [reflexivity|].
  intros w'. repeat split; reflexivity.
Qed.

(** C9: every setter returns with the world, hence every engine, its
    default option records and its defer mode, exactly as it found it; in
    the helper it leaves the engine pointer, the saved defer flag and the
    option record it is not about untouched. *)
Theorem setters_touch_only_local_options
    (this : Draw2dHelper.t) (c : Draw2dHelper.setter_call) (w : World E) :
  exists this' : Draw2dHelper.t,
    Draw2dHelper.run_setter this c w = Some (this', w) /\
    Draw2dHelper.m_draw2d this' = Draw2dHelper.m_draw2d this /\
    Draw2dHelper.m_previousDeferCalls this' = Draw2dHelper.m_previousDeferCalls this /\
    (if Draw2dHelper.writes_image_options c
     then Draw2dHelper.m_textOptions this' = Draw2dHelper.m_textOptions this
     else Draw2dHelper.m_imageOptions this' = Draw2dHelper.m_imageOptions this).
Proof.
  destruct c; eexists; (split; [reflexivity|]); simpl; repeat split.
Qed.

End Inert.

Lemma unresolved_helper_is_inert_witness :
  Draw2dHelper.GetDefaultDraw2d empty_world = Some (None, empty_world) /\
  exists h : Draw2dHelper.t,
    Draw2dHelper.ctor sample_storage None true empty_world = Some (h, empty_world) /\
    Draw2dHelper.ctor_default sample_storage true empty_world = Some (h, empty_world) /\
    Draw2dHelper.m_draw2d h = None /\
    inert (E := Draw2d.t) h.
Proof.
  split; [reflexivity|].
  exact (unresolved_helper_is_inert empty_world sample_storage true eq_refl).
Defined.

(** ** Default option records *)

(** C7: a default-constructed [ImageOptions] is white, rounds to the
    nearest pixel and does not clamp; its render state blends with the
    source alpha over the inverse source alpha and has no depth test. *)
Theorem ImageOptions_defaults :
  let o := ImageOptions.ctor in
  let rs := ImageOptions.m_renderState o in
  ImageOptions.color o = Vector3.mk F32.one F32.one F32.one /\
  F32.scaled F32.one = Some (1 * 2 ^ 149) /\
  ImageOptions.pixelRounding o = Rounding.Nearest /\
  ImageOptions.m_clamp o = false /\
  rs = RenderState.ctor /\
  TargetBlendState.m_enable (RenderState.m_blendState rs) = true /\
  TargetBlendState.m_blendSource (RenderState.m_blendState rs)
    = BlendFactor.AlphaSource /\
  TargetBlendState.m_blendDest (RenderState.m_blendState rs)
    = BlendFactor.AlphaSourceInverse /\
  DepthState.m_enable (RenderState.m_depthState rs) = false.
Proof. cbv zeta. repeat split; reflexivity. Qed.

(** C8 as stated fails: default initialisation of [TextOptions] sets only
    the font name, so over stale storage the record has none of the
    documented defaults. *)
Lemma default_init_TextOptions_keeps_storage :
  ~ has_text_defaults (TextOptions.default_init stale_text_options).
Proof. intros (Hh & _). discriminate Hh. Qed.

(** C8, amended: the documented defaults, which an engine that has not
    been reconfigured returns from [GetDefaultTextOptions], are Left/Top,
    rotation 0, effect 0, white and no drop shadow; a default-initialised
    [TextOptions] has the empty font name and otherwise the contents of its
    storage. *)
Theorem TextOptions_defaults :
  has_text_defaults TextOptions.documented_defaults /\
  (forall width height dpi measure,
     GetDefaultTextOptions (Draw2d.init width height dpi measure)
     = TextOptions.documented_defaults) /\
  (forall storage : TextOptions.t,
     TextOptions.default_init storage =
     TextOptions.mk EmptyString
       (TextOptions.effectIndex storage) (TextOptions.color storage)
       (TextOptions.horizontalAlignment storage)
       (TextOptions.verticalAlignment storage)
       (TextOptions.dropShadowOffset storage)
       (TextOptions.dropShadowColor storage)
       (TextOptions.rotation storage) (TextOptions.depthTestEnabled storage)).
Proof. repeat split; reflexivity. Qed.

(** ** The coordinate utilities *)

(** C2: for each of the nine alignments [Align] returns the corner given by
    the formulas: the position itself for Left and Top, the position minus
    half the size for Center (the code multiplies by [0.5f], which is the
    same float as dividing by two), the position minus the size for Right
    and Bottom; and [Align((100,50), (20,10), Center, Bottom) = (90,40)]. *)
Theorem Align_formulas :
  (forall (position size : Vector2.t) (hAlign : HAlign.t) (vAlign : VAlign.t),
     valid_vector size ->
     Align position size hAlign vAlign =
     Vector2.mk (aligned_x position size hAlign) (aligned_y position size vAlign)) /\
  Align (point 100 50) (point 20 10) HAlign.Center VAlign.Bottom = point 90 40.
Proof.
  split.
  - intros position size hAlign vAlign [Hx Hy].
    unfold Align, aligned_x, aligned_y.
    rewrite <- (mul_half_div_two _ Hx), <- (mul_half_div_two _ Hy).
    destruct hAlign, vAlign; reflexivity.
  - vm_compute. reflexivity.
Qed.

Lemma Align_formulas_witness :
  valid_vector (point 20 10) /\
  Align (point 100 50) (point 20 10) HAlign.Center VAlign.Bottom =
  Vector2.mk (aligned_x (point 100 50) (point 20 10) HAlign.Center)
             (aligned_y (point 100 50) (point 20 10) VAlign.Bottom).
Proof.
  assert (Hv : valid_vector (point 20 10)) by (split; reflexivity).
  split; [exact Hv|].
  exact (proj1 Align_formulas (point 100 50) (point 20 10)
           HAlign.Center VAlign.Bottom Hv).
Defined.

Lemma RoundXY_components (v : Vector2.t) (policy : Rounding.t) :
  RoundXY v policy =
  Vector2.mk (round_component policy (Vector2.x v))
             (round_component policy (Vector2.y v)).
Proof. destruct v, policy; reflexivity. Qed.

(** C3: [RoundXY] rounds each axis on its own by the formula of the policy;
    on finite floats [floor] and [ceil] are the mathematical ones; a value
    half way between two integers goes up under Nearest; and the three
    examples on [(3.4, 3.6)] hold. *)
Theorem RoundXY_formulas :
  (forall (v : Vector2.t) (policy : Rounding.t),
     RoundXY v policy =
     Vector2.mk (round_component policy (Vector2.x v))
                (round_component policy (Vector2.y v))) /\
  (forall c : float32, round_component Rounding.None c = c) /\
  (forall c : float32,
     F32.valid c = true -> F32.is_finite c = true ->
     F32.scaled (round_component Rounding.Down c)
       = Some (Dyadic.value c / Dyadic.U * Dyadic.U) /\
     F32.scaled (round_component Rounding.Up c)
       = Some (- (- Dyadic.value c / Dyadic.U) * Dyadic.U)) /\
  (forall (c : float32) (n : Z),
     F32.valid c = true -> F32.scaled c = Some ((2 * n + 1) * Dyadic.H) ->
     F32.scaled (round_component Rounding.Nearest c) = Some ((n + 1) * Dyadic.U)) /\
  RoundXY point_34_36 Rounding.Nearest = point 3 4 /\
  RoundXY point_34_36 Rounding.Up = point 4 4 /\
  RoundXY point_34_36 Rounding.Down = point 3 3.
Proof.
  split; [exact RoundXY_components|].
  split; [reflexivity|].
  split.
  { intros c Hv Hf. split.
    - apply (floor_integer c Hv Hf).
    - apply (ceil_integer c Hv Hf). }
  split; [intros c n Hv Hs; now apply nearest_tie|].
  repeat split; vm_compute; reflexivity.
Qed.

Lemma RoundXY_formulas_witness :
  F32.valid (F32.of_ratio 5 2) = true /\
  F32.scaled (F32.of_ratio 5 2) = Some ((2 * 2 + 1) * Dyadic.H) /\
  F32.scaled (round_component Rounding.Nearest (F32.of_ratio 5 2))
    = Some ((2 + 1) * Dyadic.U).
Proof.
  assert (Hv : F32.valid (F32.of_ratio 5 2) = true) by reflexivity.
  assert (Hs : F32.scaled (F32.of_ratio 5 2) = Some ((2 * 2 + 1) * Dyadic.H))
    by reflexivity.
  split; [exact Hv | split; [exact Hs |] ].
  exact (proj1 (proj2 (proj2 (proj2 RoundXY_formulas))) (F32.of_ratio 5 2) 2 Hv Hs).
Defined.

Lemma round_component_idem (policy : Rounding.t) (c : float32) :
  F32.valid c = true ->
  round_component policy (round_component policy c) = round_component policy c.
Proof.
  intros Hv. destruct policy; simpl.
  - reflexivity.
  - now apply nearest_float_idem.
  - now apply floor_idem.
  - now apply ceil_idem.
Qed.

Lemma round_component_not_nan (policy : Rounding.t) (c : float32) :
  F32.valid c = true -> c <> S754_nan -> round_component policy c <> S754_nan.
Proof.
  intros Hv Hn. destruct policy; simpl.
  - assumption.
  - now apply nearest_not_nan.
  - now apply floor_not_nan.
  - now apply ceil_not_nan.
Qed.

(** C4: rounding a second time with the same policy changes nothing: the
    two results are the same vector and, unless a coordinate is NaN, they
    compare equal with [==]. *)
Theorem RoundXY_idempotent (v : Vector2.t) (policy : Rounding.t) :
  valid_vector v ->
  RoundXY (RoundXY v policy) policy = RoundXY v policy /\
  (ordered_vector v ->
   Vector2.eqb (RoundXY (RoundXY v policy) policy) (RoundXY v policy) = true).
Proof.
  intros [Hx Hy].
  assert (Heq : RoundXY (RoundXY v policy) policy = RoundXY v policy).
  { rewrite !RoundXY_components. simpl.
    now rewrite !round_component_idem. }
  split; [exact Heq|].
  intros [Hnx Hny]. rewrite Heq, RoundXY_components.
  unfold Vector2.eqb. simpl.
  rewrite !eqb_refl; [reflexivity | |]; now apply round_component_not_nan.
Qed.

Lemma RoundXY_idempotent_witness :
  valid_vector point_34_36 /\
  RoundXY (RoundXY point_34_36 Rounding.Nearest) Rounding.Nearest
    = RoundXY point_34_36 Rounding.Nearest /\
  (ordered_vector point_34_36 ->
   Vector2.eqb (RoundXY (RoundXY point_34_36 Rounding.Nearest) Rounding.Nearest)
     (RoundXY point_34_36 Rounding.Nearest) = true).
Proof.
  assert (Hv : valid_vector point_34_36) by (split; reflexivity).
  split; [exact Hv|].
  exact (RoundXY_idempotent point_34_36 Rounding.Nearest Hv).
Defined.

Lemma round_component_integer (policy : Rounding.t) (c : float32) :
  policy <> Rounding.None ->
  F32.valid c = true -> F32.is_finite c = true ->
  F32.is_finite (round_component policy c) = true /\
  F32.integer_valued (round_component policy c).
Proof.
  intros Hp Hv Hf. unfold F32.integer_valued. destruct policy; simpl.
  - congruence.
  - destruct (nearest_integer c Hv Hf) as [Hf' Hs]. split; [exact Hf'|eauto].
  - destruct (floor_integer c Hv Hf) as [Hf' Hs]. split; [exact Hf'|eauto].
  - destruct (ceil_integer c Hv Hf) as [Hf' Hs]. split; [exact Hf'|eauto].
Qed.

(** C10 as stated fails: an infinite coordinate is a float like any other,
    [floor] returns it unchanged, and infinity is not an integer. *)
Lemma RoundXY_infinity_not_on_pixel_boundary :
  valid_vector point_at_infinity /\
  Rounding.Down <> Rounding.None /\
  ~ on_pixel_boundary (RoundXY point_at_infinity Rounding.Down).
Proof.
  split; [split; reflexivity|]. split; [discriminate|].
  intros [[n Hn] _]. discriminate Hn.
Qed.

(** C10, amended: for every vector of finite coordinates and every policy
    but None, both coordinates of the result are finite and denote
    integers. *)
Theorem RoundXY_on_pixel_boundary (v : Vector2.t) (policy : Rounding.t) :
  policy <> Rounding.None ->
  valid_vector v -> finite_vector v ->
  finite_vector (RoundXY v policy) /\ on_pixel_boundary (RoundXY v policy).
Proof.
  intros Hp [Hvx Hvy] [Hfx Hfy]. rewrite RoundXY_components.
  destruct (round_component_integer policy _ Hp Hvx Hfx) as [Hx1 Hx2].
  destruct (round_component_integer policy _ Hp Hvy Hfy) as [Hy1 Hy2].
  split; split; assumption.
Qed.

Lemma RoundXY_on_pixel_boundary_witness :
  Rounding.Nearest <> Rounding.None /\
  valid_vector point_34_36 /\ finite_vector point_34_36 /\
  finite_vector (RoundXY point_34_36 Rounding.Nearest) /\
  on_pixel_boundary (RoundXY point_34_36 Rounding.Nearest).
Proof.
  assert (Hp : Rounding.Nearest <> Rounding.None) by discriminate.
  assert (Hv : valid_vector point_34_36) by (split; reflexivity).
  assert (Hf : finite_vector point_34_36) by (split; reflexivity).
  split; [exact Hp | split; [exact Hv | split; [exact Hf |] ] ].
  exact (RoundXY_on_pixel_boundary point_34_36 Rounding.Nearest Hp Hv Hf).
Defined.

(** * Further properties *)

(** ** Further facts on binary32 *)

Module F32Exact.
Import Dyadic.

Lemma rne_error (t : Z) :
  0 < t -> digits t <= 173 -> Z.abs (rne t - t) <= H.
Proof.
  intros Ht Hd. unfold rne.
  destruct (Z.leb_spec (digits t - 24) 0) as [Hle | Hn].
  - rewrite Z.sub_diag. simpl. unfold H. pose proof (pow2_pos 148). lia.
  - set (n := digits t - 24) in *.
    pose proof (pow2_pos (n - 1) ltac:(lia)) as HP1.
    assert (HPn : 2 ^ n = 2 * 2 ^ (n - 1)).
    { replace n with (Z.succ (n - 1)) at 1 by lia. rewrite Z.pow_succ_r; lia. }
    assert (HH : 2 ^ (n - 1) <= H) by (apply Z.pow_le_mono_r; lia).
    pose proof (Z.div_mod t (2 ^ n) ltac:(lia)) as Hdm.
    pose proof (Z.mod_pos_bound t (2 ^ n) ltac:(lia)) as Hb.
    unfold round_shifted.
    set (q := t / 2 ^ n) in *. set (r := t mod 2 ^ n) in *.
    set (P := 2 ^ (n - 1)) in *.
    destruct (Z.ltb_spec P r); cbn [orb].
    + nia.
    + destruct (Z.eqb_spec r P); cbn [andb]; [destruct (Z.odd q)|]; nia.
Qed.

Lemma RN_error (z : Z) :
  Z.abs z < 2 ^ 173 -> Z.abs (RN z - z) <= H.
Proof.
  intros Hz. destruct z as [| p | p]; unfold RN.
  - simpl. unfold H. pose proof (pow2_pos 148). lia.
  - apply rne_error; [lia|]. apply digits_le; lia.
  - pose proof (rne_error (- Zneg p) ltac:(lia)
                  ltac:(apply digits_le; lia)). lia.
Qed.

(** [floor (x + 0.5f)] moves a value by at most one. *)
Lemma nearest_error (k : Z) :
  representable k -> - U < nearest k - k <= U.
Proof.
  intros Hr. assert (HU : U = 2 ^ 149) by reflexivity.
  assert (HH : H = 2 ^ 148) by reflexivity.
  destruct (Z_lt_le_dec (Z.abs k) (2 ^ 24 * U)) as [Hlt24 | Hbig].
  2:{ rewrite nearest_big by assumption. lia. }
  assert (Hfl : forall y, k <= y <= k + U -> - U < FL y - k <= U).
  { intros y Hy. unfold FL.
    pose proof (Z.div_mod y U ltac:(lia)) as Hdm.
    pose proof (Z.mod_pos_bound y U ltac:(lia)) as Hb. lia. }
  unfold nearest. apply Hfl.
  destruct (Z_lt_le_dec (Z.abs k) (2 ^ 23 * U)) as [Hlt23 | Hmid].
  - pose proof (RN_error (k + H) ltac:(lia)). lia.
  - destruct (representable_multiple k 149 Hr ltac:(lia)) as [j Hkj].
    { change (2 ^ (23 + 149)) with (2 ^ 23 * U). exact Hmid. }
    fold U in Hkj. subst k.
    destruct (Z_lt_le_dec j 0) as [Hneg | Hpos].
    + replace (j * U) with (- ((- j) * U)) by lia.
      destruct (Z.eq_dec (- j) (2 ^ 23)) as [Hj | Hne].
      * rewrite Hj.
        assert (Hc : RN (- (2 ^ 23 * U) + H) = - ((2 ^ 24 - 1) * H))
          by (vm_compute; reflexivity).
        rewrite Hc. lia.
      * rewrite RN_add_half_mid_neg by lia. destruct (Z.odd (- j)); lia.
    + rewrite RN_add_half_mid_pos by lia. destruct (Z.odd j); lia.
Qed.

Lemma value_of_scaled (x : float32) (z : Z) :
  F32.scaled x = Some z -> value x = z.
Proof. intros Hs. unfold value. now rewrite Hs. Qed.

(** *** Integers *)

Lemma of_Z_to_float (a : Z) :
  Z.abs a <= 2 ^ 24 -> F32.of_Z a = to_float (a * U).
Proof.
  intros Ha. unfold F32.of_Z.
  destruct (Z.eq_dec a 0) as [-> | Hne]; [reflexivity|].
  rewrite binary_normalize_spec by lia. change (2 ^ (0 + 149)) with U.
  rewrite RN_exact; [reflexivity|].
  unfold U. apply representable_mul_pow2; lia.
Qed.

Lemma representable_int (a : Z) :
  Z.abs a <= 2 ^ 24 -> representable (a * U) /\ Z.abs (a * U) < 2 ^ 277.
Proof.
  intros Ha. split.
  - unfold U. apply representable_mul_pow2; lia.
  - assert (HU : U = 2 ^ 149) by reflexivity. lia.
Qed.

Lemma floor_fixes_integers (x : float32) :
  F32.valid x = true -> F32.integer_valued x -> F32.floor x = x.
Proof.
  intros Hv [n Hn]. fold U in Hn.
  destruct x as [s | s | | s m e]; try discriminate; [reflexivity|].
  pose proof Hv as Hv'. apply valid_finite in Hv'.
  rewrite scaled_finite in Hn by lia. injection Hn as Hn.
  rewrite floor_valid_finite by assumption.
  rewrite Hn, FL_mul_U, <- Hn. now apply to_float_of_valid.
Qed.

Lemma ceil_fixes_integers (x : float32) :
  F32.valid x = true -> F32.integer_valued x -> F32.ceil x = x.
Proof.
  intros Hv Hi. rewrite ceil_opp_floor, floor_fixes_integers.
  - apply opp_involutive.
  - now rewrite valid_opp.
  - now apply integer_valued_opp.
Qed.

Lemma nearest_fixes_integers (x : float32) :
  F32.valid x = true -> F32.integer_valued x ->
  x <> S754_zero true -> Z.abs (value x) <= 2 ^ 23 * U ->
  F32.floor (F32.add x F32.half) = x.
Proof.
  intros Hv [n Hn] Hnz Hb. fold U in Hn.
  assert (Hf : F32.is_finite x = true) by (destruct x; try discriminate; reflexivity).
  rewrite nearest_finite by assumption.
  rewrite (value_of_scaled _ _ Hn) in *.
  assert (HU : 0 < U) by reflexivity.
  rewrite nearest_small by nia.
  destruct x as [s | s | | s m e]; try discriminate.
  - destruct s; [congruence|]. injection Hn as Hn.
    assert (n = 0) by nia. subst n. reflexivity.
  - pose proof Hv as Hv'. apply valid_finite in Hv'.
    rewrite scaled_finite in Hn by lia. injection Hn as Hn.
    rewrite <- Hn. now apply to_float_of_valid.
Qed.

(** *** Subtraction *)

Lemma sub_finite_add (sx sy : bool) (mx my : positive) (ex ey : Z) :
  F32.sub (S754_finite sx mx ex) (S754_finite sy my ey)
  = F32.add (S754_finite sx mx ex) (S754_finite (negb sy) my ey).
Proof.
  unfold F32.sub, F32.add, SFsub, SFadd. cbv zeta. f_equal.
  unfold cond_Zopp. destruct sy; cbn [negb]; lia.
Qed.

Lemma to_float_opp (z : Z) :
  z <> 0 -> to_float (- z) = F32.opp (to_float z).
Proof.
  intros Hne. unfold to_float, F32.opp. rewrite Z.abs_opp.
  rewrite canon_opp by lia. f_equal.
  destruct (Z.ltb_spec z 0), (Z.ltb_spec (- z) 0); try reflexivity; lia.
Qed.

(** The difference of two representable values, when it is representable,
    is computed exactly. *)
Lemma sub_to_float (a b : Z) :
  representable a -> Z.abs a < 2 ^ 277 ->
  representable b -> Z.abs b < 2 ^ 277 ->
  representable (a - b) ->
  F32.sub (to_float a) (to_float b) = to_float (a - b).
Proof.
  intros Hra Hba Hrb Hbb Hr.
  destruct (Z.eq_dec b 0) as [-> | Hb0].
  - rewrite Z.sub_0_r. change (to_float 0) with (S754_zero false).
    destruct (to_float a) as [[] | | |]; reflexivity.
  - destruct (to_float_valid b Hrb Hb0 Hbb) as (mb & eb & Heqb & Hvb & Hvalb).
    pose proof Hvb as Hvb'. apply valid_finite in Hvb'.
    destruct (Z.eq_dec a 0) as [-> | Ha0].
    + change (to_float 0) with (S754_zero false). rewrite Z.sub_0_l.
      rewrite to_float_opp, Heqb by assumption. reflexivity.
    + destruct (to_float_valid a Hra Ha0 Hba) as (ma & ea & Heqa & Hva & Hvala).
      pose proof Hva as Hva'. apply valid_finite in Hva'.
      rewrite Heqa, Heqb, sub_finite_add, add_finite by lia.
      rewrite Hvala.
      replace (cond_Zopp (negb (b <? 0)) (Zpos mb * 2 ^ (eb + 149))) with (- b)
        by (rewrite <- Hvalb at 1; destruct (b <? 0); simpl; lia).
      replace (a + - b) with (a - b) by lia.
      now rewrite RN_exact.
Qed.

(** *** Halving *)

Lemma mul_half_normal (s : bool) (m : positive) (e : Z) :
  F32.valid (S754_finite s m e) = true -> e <> -149 ->
  F32.mul (S754_finite s m e) F32.half = S754_finite s m (e - 1).
Proof.
  intros Hv Hne. rewrite half_eq.
  pose proof Hv as Hv'. apply valid_finite in Hv'. destruct Hv' as [Hc He].
  pose proof (digits_pos (Zpos m) ltac:(lia)) as Hd.
  assert (Hd24 : digits (Zpos m) = 24) by lia.
  unfold F32.mul, SFmul, F32.prec, F32.emax.
  rewrite xorb_false_r, Pos2Z.inj_mul.
  change (Zpos 8388608) with (2 ^ 23).
  assert (HdM : digits (Zpos m * 2 ^ 23) = digits (Zpos m) + 23)
    by (apply digits_mul_pow2; lia).
  assert (HM : 0 < Zpos m * 2 ^ 23) by (apply Z.mul_pos_pos; lia).
  unfold binary_round_aux.
  assert (Hn : 0 < fexp 24 128 (digits (Zpos m * 2 ^ 23) + (e + -24))
                   - (e + -24)) by (rewrite fexp_eq; lia).
  rewrite (shr_fexp_exact_large _ _ HM Hn). cbv zeta.
  rewrite fexp_eq, HdM.
  replace (Z.max (digits (Zpos m) + 23 + (e + -24) - 24) (-149) - (e + -24))
    with 23 by lia.
  cbn [shr_m]. rewrite round_nearest_even_shifted by lia.
  rewrite (round_shifted_eq _ 23 (Zpos m) 0) by lia.
  change (2 ^ (23 - 1) <? 0) with false.
  change (0 =? 2 ^ (23 - 1)) with false. cbn [orb andb].
  replace (e + -24 + 23) with (e - 1) by lia.
  rewrite shr_fexp_exact_small by (rewrite ?fexp_eq; lia).
  cbn [shr_m].
  replace (e - 1 <=? 128 - 24) with true by (symmetry; apply Z.leb_le; lia).
  reflexivity.
Qed.

(** Half of an integer float is computed exactly. *)
Lemma mul_half_int (c : Z) :
  Z.abs c <= 2 ^ 24 -> F32.mul (to_float (c * U)) F32.half = to_float (c * H).
Proof.
  intros Hc. assert (HU : U = 2 ^ 149) by reflexivity.
  assert (HH : H = 2 ^ 148) by reflexivity.
  destruct (Z.eq_dec c 0) as [-> | Hne]; [reflexivity|].
  destruct (representable_int c Hc) as [Hr Hb].
  destruct (to_float_valid (c * U) Hr ltac:(lia) Hb) as (m & e & Heq & Hv & Hval).
  pose proof Hv as Hv'. apply valid_finite in Hv'. destruct Hv' as [Hcan He].
  pose proof (mantissa_bound _ _ _ Hv) as Hm.
  assert (He149 : e <> -149).
  { intros ->. change (2 ^ (-149 + 149)) with 1 in Hval.
    destruct (c * U <? 0); simpl in Hval; lia. }
  rewrite Heq, mul_half_normal by assumption.
  pose proof (digits_pos (Zpos m) ltac:(lia)) as Hd.
  assert (Hv1 : F32.valid (S754_finite (c * U <? 0) m (e - 1)) = true)
    by (apply valid_finite; lia).
  rewrite <- (to_float_of_valid _ _ _ Hv1). f_equal.
  pose proof (pow2_pos (e - 1 + 149) ltac:(lia)) as HP.
  assert (Hpow : 2 ^ (e + 149) = 2 * 2 ^ (e - 1 + 149)).
  { replace (e + 149) with (Z.succ (e - 1 + 149)) by lia.
    rewrite Z.pow_succ_r; lia. }
  rewrite Hpow in Hval.
  destruct (c * U <? 0); simpl in *; lia.
Qed.

End F32Exact.

(** ** Further properties of the scoped helper *)

Section HelperMore.
Context {E : Type} `{IDraw2d.EngineLaws E}.

Lemma lookup_with_engine (w : World E) (p : nat) (e : E) :
  engines (with_engine w p e) !! p = Some e.
Proof. apply lookup_insert_eq. Qed.

Lemma lookup_with_engine_ne (w : World E) (p q : nat) (e : E) :
  p <> q -> engines (with_engine w p e) !! q = engines w !! q.
Proof. intros Hne. now apply lookup_insert_ne. Qed.

Lemma resolves_with_engine (w : World E) (q : nat) (e : E) draw2d p :
  resolves w draw2d p -> resolves (with_engine w q e) draw2d p.
Proof. apply resolves_gEnv. reflexivity. Qed.

(** Whatever happens to the engine between construction and destruction,
    the destructor puts the defer mode back to the one the constructor
    found, by one call of [SetDeferPrimitives] on that engine; other
    engines and [gEnv] are left alone. *)
Theorem dtor_restores_mode_found_at_construction
    (w : World E) (p : nat) (e : E) (draw2d : option nat)
    (storage : Draw2dHelper.t) (deferCalls : bool) :
  engines w !! p = Some e ->
  resolves w draw2d p ->
  exists (h : Draw2dHelper.t) (w1 : World E),
    Draw2dHelper.ctor storage draw2d deferCalls w = Some (h, w1) /\
    forall (w2 : World E) (e2 : E),
      engines w2 !! p = Some e2 ->
      Draw2dHelper.dtor h w2
        = Some (tt, with_engine w2 p (SetDeferPrimitives e2 (GetDeferPrimitives e))) /\
      defer_mode (with_engine w2 p (SetDeferPrimitives e2 (GetDeferPrimitives e))) p
        = Some (GetDeferPrimitives e) /\
      (forall q : nat, q <> p ->
         engines (with_engine w2 p (SetDeferPrimitives e2 (GetDeferPrimitives e))) !! q
         = engines w2 !! q).
Proof.
  intros He Hres.
  pose proof (InitCommon_resolved w (Draw2dHelper.members_init storage)
                draw2d p e deferCalls Hres He) as Hctor.
  match type of Hctor with _ = Some (?a, ?b) => exists a, b end.
  split; [exact Hctor|].
  intros w2 e2 He2. split; [|split].
  - erewrite (dtor_run w2 _ p e2); [reflexivity | reflexivity | exact He2].
  - unfold defer_mode. rewrite lookup_with_engine. simpl.
    now rewrite GetDeferPrimitives_SetDeferPrimitives.
  - intros q Hq. apply lookup_with_engine_ne. congruence.
Qed.

(** Destruction in the order of construction does not restore the mode: if
    helper A (flag [D1]) and then helper B (flag [D2]) are built over one
    engine and A is destroyed before B, the engine ends in mode [D1], the
    mode B captured, not in its original mode. *)
Theorem unnested_destruction_ends_in_outer_request
    (w : World E) (p : nat) (e : E) (drawA drawB : option nat)
    (storageA storageB : Draw2dHelper.t) (D1 D2 : bool) :
  engines w !! p = Some e ->
  resolves w drawA p ->
  resolves w drawB p ->
  exists (A B : Draw2dHelper.t) (w1 w2 w3 w4 : World E),
    Draw2dHelper.ctor storageA drawA D1 w = Some (A, w1) /\
    Draw2dHelper.ctor storageB drawB D2 w1 = Some (B, w2) /\
    Draw2dHelper.dtor A w2 = Some (tt, w3) /\
    Draw2dHelper.dtor B w3 = Some (tt, w4) /\
    defer_mode w3 p = Some (GetDeferPrimitives e) /\
    defer_mode w4 p = Some D1.
Proof.
  intros He HA HB.
  pose proof (InitCommon_resolved w (Draw2dHelper.members_init storageA)
                drawA p e D1 HA He) as HctorA.
  fold (with_engine w p (SetDeferPrimitives e D1)) in HctorA.
  set (w1 := with_engine w p (SetDeferPrimitives e D1)) in *.
  pose proof (InitCommon_resolved w1 (Draw2dHelper.members_init storageB)
                drawB p _ D2 (resolves_with_engine w p _ _ _ HB)
                (lookup_with_engine w p _)) as HctorB.
  fold (with_engine w1 p (SetDeferPrimitives (SetDeferPrimitives e D1) D2)) in HctorB.
  set (w2 := with_engine w1 p _) in *.
  match type of HctorA with _ = Some (?a, _) => set (A := a) in * end.
  match type of HctorB with _ = Some (?b, _) => set (B := b) in * end.
  pose proof (dtor_run w2 A p _ eq_refl (lookup_with_engine w1 p _)) as HdA.
  fold (with_engine w2 p
          (SetDeferPrimitives (SetDeferPrimitives (SetDeferPrimitives e D1) D2)
             (Draw2dHelper.m_previousDeferCalls A))) in HdA.
  set (w3 := with_engine w2 p _) in *.
  pose proof (dtor_run w3 B p _ eq_refl (lookup_with_engine w2 p _)) as HdB.
  fold (with_engine w3 p
          (SetDeferPrimitives
             (SetDeferPrimitives (SetDeferPrimitives (SetDeferPrimitives e D1) D2)
                (Draw2dHelper.m_previousDeferCalls A))
             (Draw2dHelper.m_previousDeferCalls B))) in HdB.
  set (w4 := with_engine w3 p _) in *.
  exists A, B, w1, w2, w3, w4.
  split; [exact HctorA|]. split; [exact HctorB|].
  split; [exact HdA|]. split; [exact HdB|].
  unfold defer_mode, w4, w3. rewrite !lookup_with_engine. simpl.
  rewrite !GetDeferPrimitives_SetDeferPrimitives. split; reflexivity.
Qed.

(** Helpers over different engines do not interfere: with helper A over
    the engine at [p] and a nested helper B over the engine at [q], the
    engine at [p] stays in A's mode throughout B's life, each helper
    captures the mode of its own engine, and after both are destroyed each
    engine is back in its own original mode. *)
Theorem helpers_over_distinct_engines_are_independent
    (w : World E) (p q : nat) (ep eq : E)
    (storageA storageB : Draw2dHelper.t) (D1 D2 : bool) :
  p <> q ->
  engines w !! p = Some ep ->
  engines w !! q = Some eq ->
  exists (A B : Draw2dHelper.t) (w1 w2 w3 w4 : World E),
    Draw2dHelper.ctor storageA (Some p) D1 w = Some (A, w1) /\
    Draw2dHelper.ctor storageB (Some q) D2 w1 = Some (B, w2) /\
    Draw2dHelper.dtor B w2 = Some (tt, w3) /\
    Draw2dHelper.dtor A w3 = Some (tt, w4) /\
    Draw2dHelper.m_previousDeferCalls A = GetDeferPrimitives ep /\
    Draw2dHelper.m_previousDeferCalls B = GetDeferPrimitives eq /\
    defer_mode w1 q = Some (GetDeferPrimitives eq) /\
    defer_mode w2 p = Some D1 /\ defer_mode w2 q = Some D2 /\
    defer_mode w3 p = Some D1 /\ defer_mode w3 q = Some (GetDeferPrimitives eq) /\
    defer_mode w4 p = Some (GetDeferPrimitives ep) /\
    defer_mode w4 q = Some (GetDeferPrimitives eq).
Proof.
  intros Hpq Hp Hq.
  pose proof (InitCommon_resolved w (Draw2dHelper.members_init storageA)
                (Some p) p ep D1 (or_introl eq_refl) Hp) as HctorA.
  fold (with_engine w p (SetDeferPrimitives ep D1)) in HctorA.
  set (w1 := with_engine w p (SetDeferPrimitives ep D1)) in *.
  assert (Hq1 : engines w1 !! q = Some eq)
    by (unfold w1; now rewrite lookup_with_engine_ne).
  pose proof (InitCommon_resolved w1 (Draw2dHelper.members_init storageB)
                (Some q) q eq D2 (or_introl eq_refl) Hq1) as HctorB.
  fold (with_engine w1 q (SetDeferPrimitives eq D2)) in HctorB.
  set (w2 := with_engine w1 q (SetDeferPrimitives eq D2)) in *.
  match type of HctorA with _ = Some (?a, _) => set (A := a) in * end.
  match type of HctorB with _ = Some (?b, _) => set (B := b) in * end.
  pose proof (dtor_run w2 B q _ eq_refl (lookup_with_engine w1 q _)) as HdB.
  fold (with_engine w2 q (SetDeferPrimitives (SetDeferPrimitives eq D2)
                            (Draw2dHelper.m_previousDeferCalls B))) in HdB.
  set (w3 := with_engine w2 q _) in *.
  assert (Hp3 : engines w3 !! p = Some (SetDeferPrimitives ep D1)).
  { unfold w3, w2. rewrite !lookup_with_engine_ne by congruence.
    apply lookup_with_engine. }
  pose proof (dtor_run w3 A p _ eq_refl Hp3) as HdA.
  fold (with_engine w3 p (SetDeferPrimitives (SetDeferPrimitives ep D1)
                            (Draw2dHelper.m_previousDeferCalls A))) in HdA.
  set (w4 := with_engine w3 p _) in *.
  exists A, B, w1, w2, w3, w4.
  split; [exact HctorA|]. split; [exact HctorB|].
  split; [exact HdB|]. split; [exact HdA|].
  split; [reflexivity|]. split; [reflexivity|].
  unfold defer_mode.
  assert (Hq3 : engines w3 !! q
                = Some (SetDeferPrimitives (SetDeferPrimitives eq D2)
                          (Draw2dHelper.m_previousDeferCalls B)))
    by apply lookup_with_engine.
  assert (Hp2 : engines w2 !! p = Some (SetDeferPrimitives ep D1)).
  { unfold w2. rewrite lookup_with_engine_ne by congruence.
    apply lookup_with_engine. }
  assert (Hq2 : engines w2 !! q = Some (SetDeferPrimitives eq D2))
    by apply lookup_with_engine.
  assert (Hp4 : engines w4 !! p
                = Some (SetDeferPrimitives (SetDeferPrimitives ep D1)
                          (Draw2dHelper.m_previousDeferCalls A)))
    by apply lookup_with_engine.
  assert (Hq4 : engines w4 !! q = engines w3 !! q)
    by (unfold w4; now rewrite lookup_with_engine_ne).
  rewrite Hq1, Hp2, Hq2, Hp3, Hp4, Hq4, Hq3. simpl.
  rewrite !GetDeferPrimitives_SetDeferPrimitives.
  repeat split; reflexivity.
Qed.

End HelperMore.

Section Forwarding.
Context {E : Type} `{IDraw2d.Engine E}.

(** The constructor leaves out the engine: it is the constructor on the
    engine [GetDefaultDraw2d] returns, null included. *)
Theorem ctor_default_uses_located_engine
    (w : World E) (storage : Draw2dHelper.t) (deferCalls : bool) :
  exists located : option nat,
    Draw2dHelper.GetDefaultDraw2d w = Some (located, w) /\
    Draw2dHelper.ctor_default storage deferCalls w
    = Draw2dHelper.ctor storage located deferCalls w.
Proof.
  unfold Draw2dHelper.ctor_default, Draw2dHelper.ctor.
  destruct (Draw2dHelper.GetDefaultDraw2d w) as [[located w']|] eqn:Hd.
  - assert (w' = w) as ->.
    { revert Hd. unfold Draw2dHelper.GetDefaultDraw2d.
      destruct (gEnv w) as [env|]; [|now intros [= _ ->]].
      destruct (SSystemGlobalEnvironment.pLyShine env); now intros [= _ ->]. }
    exists located. split; [reflexivity|].
    destruct located as [p|]; [|reflexivity].
    unfold Draw2dHelper.InitCommon; cbv zeta. simpl.
    rewrite (bind_run _ _ _ _ _ (bind_run _ _ _ _ _ Hd)). reflexivity.
  - exfalso. revert Hd. unfold Draw2dHelper.GetDefaultDraw2d.
    destruct (gEnv w) as [env|]; [|discriminate].
    destruct (SSystemGlobalEnvironment.pLyShine env); discriminate.
Qed.

Lemma forwards_of_resolved (h : Draw2dHelper.t) (p : nat) :
  Draw2dHelper.m_draw2d h = Some p -> forwards_to (E := E) h p.
Proof.
  intros Hp w e He.
  unfold Draw2dHelper.DrawImage, Draw2dHelper.DrawImageAligned,
    Draw2dHelper.DrawQuad, Draw2dHelper.DrawLine, Draw2dHelper.DrawLineTextured,
    Draw2dHelper.DrawRectOutlineTextured, Draw2dHelper.DrawText,
    Draw2dHelper.GetTextSize, with_engine.
  rewrite Hp.
  repeat split; intros;
    first [ now rewrite (invoke_run _ _ _ _ He)
          | now rewrite (query_run _ _ _ _ He) ].
Qed.


(** No setter changes what the option-free draws and the destructor do;
    the image setters do not change text drawing and measuring, and the
    text setters do not change image drawing. *)
Theorem setters_do_not_reach_unrelated_draws
    (this : Draw2dHelper.t) (c : Draw2dHelper.setter_call) (w : World E) :
  exists this' : Draw2dHelper.t,
    Draw2dHelper.run_setter this c w = Some (this', w) /\
    same_plain_draws (E := E) this this' /\
    (if Draw2dHelper.writes_image_options c
     then same_text_draws (E := E) this this'
     else same_image_draws (E := E) this this').
Proof.
  destruct c; eexists; (split; [reflexivity|]);
    (split; [intros w'; repeat split|]); simpl;
    intros w'; repeat split.
Qed.

(** What a setter is given reaches the engine with the next draw: after a
    setter call on a helper over the engine at [p], the members the setter
    is about hold its arguments, and the helper still forwards every draw
    to the engine at [p], now with the changed option record. *)
Theorem setter_arguments_reach_later_draws
    (this : Draw2dHelper.t) (p : nat) (c : Draw2dHelper.setter_call) (w : World E) :
  Draw2dHelper.m_draw2d this = Some p ->
  exists this' : Draw2dHelper.t,
    Draw2dHelper.run_setter this c w = Some (this', w) /\
    reads_back c this' /\
    forwards_to (E := E) this' p.
Proof.
  intros Hp.
  destruct c; eexists; (split; [reflexivity|]);
    (split; [simpl; repeat split | apply forwards_of_resolved; exact Hp]).
Qed.

(** Calls of two different setters can be made in either order. *)
Theorem different_setters_commute
    (this : Draw2dHelper.t) (c1 c2 : Draw2dHelper.setter_call) (w : World E) :
  setter_index c1 <> setter_index c2 ->
  run_setters this [c1; c2] w = run_setters this [c2; c1] w.
Proof.
  intros Hne. destruct c1, c2; try (exfalso; apply Hne; reflexivity);
    reflexivity.
Qed.

(** Of two calls of the same setter only the second counts, and repeating
    a call changes nothing. *)
Theorem repeated_setter_last_wins
    (this : Draw2dHelper.t) (c1 c2 : Draw2dHelper.setter_call) (w : World E) :
  setter_index c1 = setter_index c2 ->
  run_setters this [c1; c2] w = run_setters this [c2] w /\
  run_setters this [c2; c2] w = run_setters this [c2] w.
Proof.
  intros Heq. destruct c1, c2; try discriminate Heq; split; reflexivity.
Qed.

End Forwarding.

Import F32Exact.

(** ** Further properties of the coordinate utilities *)

Lemma Align_int_components (a b c d : Z) (hAlign : HAlign.t) (vAlign : VAlign.t) :
  Z.abs a <= 2 ^ 22 -> Z.abs b <= 2 ^ 22 ->
  Z.abs c <= 2 ^ 22 -> Z.abs d <= 2 ^ 22 ->
  Align (point a b) (point c d) hAlign vAlign =
  Vector2.mk (Dyadic.to_float (exact_x a c hAlign))
             (Dyadic.to_float (exact_y b d vAlign)).
Proof.
  intros Ha Hb Hc Hd.
  assert (HU : Dyadic.U = 2 ^ 149) by reflexivity.
  assert (HH : Dyadic.H = 2 ^ 148) by reflexivity.
  assert (Hsub : forall p s : Z,
            Z.abs p <= 2 ^ 22 -> Z.abs s <= 2 ^ 22 ->
            F32.sub (F32.of_Z p) (F32.of_Z s)
              = Dyadic.to_float ((p - s) * Dyadic.U)).
  { intros p s Hp Hs. rewrite !of_Z_to_float by lia.
    destruct (representable_int p ltac:(lia)) as [Hrp Hbp].
    destruct (representable_int s ltac:(lia)) as [Hrs Hbs].
    rewrite sub_to_float; try assumption.
    - f_equal. lia.
    - replace (p * Dyadic.U - s * Dyadic.U) with ((p - s) * Dyadic.U) by lia.
      apply representable_int. lia. }
  assert (Hcen : forall p s : Z,
            Z.abs p <= 2 ^ 22 -> Z.abs s <= 2 ^ 22 ->
            F32.sub (F32.of_Z p) (F32.mul (F32.of_Z s) F32.half)
              = Dyadic.to_float (p * Dyadic.U - s * Dyadic.H)).
  { intros p s Hp Hs. rewrite !of_Z_to_float by lia.
    rewrite mul_half_int by lia.
    destruct (representable_int p ltac:(lia)) as [Hrp Hbp].
    apply sub_to_float; try assumption.
    - unfold Dyadic.H. apply representable_mul_pow2; lia.
    - lia.
    - replace (p * Dyadic.U - s * Dyadic.H) with ((2 * p - s) * 2 ^ 148) by lia.
      apply representable_mul_pow2; lia. }
  unfold Align, point, exact_x, exact_y. cbv zeta.
  destruct hAlign, vAlign; cbn [Vector2.SetX Vector2.SetY Vector2.GetX Vector2.GetY
                                 Vector2.x Vector2.y Vector2.CreateZero];
    rewrite ?Hsub, ?Hcen by lia; rewrite ?of_Z_to_float by lia; reflexivity.
Qed.

Lemma to_float_int_fixed (n : Z) (policy : Rounding.t) :
  Z.abs n <= 2 ^ 23 ->
  round_component policy (Dyadic.to_float (n * Dyadic.U))
  = Dyadic.to_float (n * Dyadic.U).
Proof.
  intros Hn. assert (HU : Dyadic.U = 2 ^ 149) by reflexivity.
  destruct (representable_int n ltac:(lia)) as [Hr Hb].
  destruct (to_float_props _ Hr Hb) as (Hv & Hf & Hs & Hval).
  assert (Hi : F32.integer_valued (Dyadic.to_float (n * Dyadic.U)))
    by (exists n; exact Hs).
  destruct policy; simpl.
  - reflexivity.
  - apply nearest_fixes_integers; try assumption.
    + unfold Dyadic.to_float, Dyadic.canon.
      destruct (Z.abs (n * Dyadic.U)) eqn:Eabs; try discriminate.
      * replace (n * Dyadic.U <? 0) with false; [discriminate|].
        symmetry. apply Z.ltb_ge. lia.
      * cbv zeta. destruct (_ <=? 104); discriminate.
    + rewrite Hval. lia.
  - now apply floor_fixes_integers.
  - now apply ceil_fixes_integers.
Qed.

(** Aligning integer pixel coordinates is exact: for a position and a size
    with integer coordinates of magnitude up to [2^22], each coordinate of
    the corner is exactly the position, the position minus half the size,
    or the position minus the size, without rounding error. *)
Theorem Align_exact_on_integers
    (a b c d : Z) (hAlign : HAlign.t) (vAlign : VAlign.t) :
  Z.abs a <= 2 ^ 22 -> Z.abs b <= 2 ^ 22 ->
  Z.abs c <= 2 ^ 22 -> Z.abs d <= 2 ^ 22 ->
  let corner := Align (point a b) (point c d) hAlign vAlign in
  F32.scaled (Vector2.x corner) = Some (exact_x a c hAlign) /\
  F32.scaled (Vector2.y corner) = Some (exact_y b d vAlign).
Proof.
  intros Ha Hb Hc Hd corner. unfold corner.
  rewrite Align_int_components by assumption. simpl.
  assert (HU : Dyadic.U = 2 ^ 149) by reflexivity.
  assert (HH : Dyadic.H = 2 ^ 148) by reflexivity.
  assert (Hrep : forall p s : Z, Z.abs p <= 2 ^ 22 -> Z.abs s <= 2 ^ 22 ->
            forall z, (z = p * Dyadic.U \/ z = p * Dyadic.U - s * Dyadic.H
                       \/ z = (p - s) * Dyadic.U) ->
            F32.scaled (Dyadic.to_float z) = Some z).
  { intros p s Hp Hs z Hz. apply scaled_to_float; [|lia].
    destruct Hz as [-> | [-> | ->]].
    - apply representable_int. lia.
    - replace (p * Dyadic.U - s * Dyadic.H) with ((2 * p - s) * 2 ^ 148) by lia.
      apply representable_mul_pow2; lia.
    - apply representable_int. lia. }
  split.
  - apply (Hrep a c Ha Hc). destruct hAlign; simpl; auto.
  - apply (Hrep b d Hb Hd). destruct vAlign; simpl; auto.
Qed.

(** A quad of size zero is aligned at the position itself, whatever the
    alignment and whatever the position (NaN and infinities included). *)
Theorem Align_zero_size
    (position : Vector2.t) (hAlign : HAlign.t) (vAlign : VAlign.t) :
  Align position Vector2.CreateZero hAlign vAlign = position.
Proof.
  assert (Hsub : forall x : float32, F32.sub x F32.zero = x)
    by (intros [[] | [] | | s m e]; reflexivity).
  destruct position as [px py].
  unfold Align. cbv zeta.
  destruct hAlign, vAlign;
    cbn [Vector2.SetX Vector2.SetY Vector2.GetX Vector2.GetY
         Vector2.x Vector2.y Vector2.CreateZero];
    change (F32.mul F32.zero F32.half) with F32.zero;
    rewrite ?Hsub; reflexivity.
Qed.

(** Rounding after aligning changes nothing on pixel coordinates: for
    integer positions and sizes of magnitude up to [2^22], with an even
    size on an axis that is centred, the aligned corner is a fixed point of
    [RoundXY] for every policy. *)
Theorem RoundXY_after_Align_on_pixels
    (a b c d : Z) (hAlign : HAlign.t) (vAlign : VAlign.t) (policy : Rounding.t) :
  Z.abs a <= 2 ^ 22 -> Z.abs b <= 2 ^ 22 ->
  Z.abs c <= 2 ^ 22 -> Z.abs d <= 2 ^ 22 ->
  (hAlign = HAlign.Center -> Z.even c = true) ->
  (vAlign = VAlign.Center -> Z.even d = true) ->
  RoundXY (Align (point a b) (point c d) hAlign vAlign) policy
  = Align (point a b) (point c d) hAlign vAlign.
Proof.
  intros Ha Hb Hc Hd Hh Hv.
  rewrite Align_int_components by assumption.
  rewrite RoundXY_components. simpl.
  assert (HU : Dyadic.U = 2 ^ 149) by reflexivity.
  assert (HH : Dyadic.H = 2 ^ 148) by reflexivity.
  assert (Hx : exists n, Z.abs n <= 2 ^ 23 /\ exact_x a c hAlign = n * Dyadic.U).
  { destruct hAlign; simpl.
    - exists a. lia.
    - specialize (Hh eq_refl). apply Z.even_spec in Hh. destruct Hh as [k ->].
      exists (a - k). lia.
    - exists (a - c). lia. }
  assert (Hy : exists n, Z.abs n <= 2 ^ 23 /\ exact_y b d vAlign = n * Dyadic.U).
  { destruct vAlign; simpl.
    - exists b. lia.
    - specialize (Hv eq_refl). apply Z.even_spec in Hv. destruct Hv as [k ->].
      exists (b - k). lia.
    - exists (b - d). lia. }
  destruct Hx as (n & Hn & ->). destruct Hy as (n' & Hn' & ->).
  now rewrite !to_float_int_fixed.
Qed.

(** A point on pixel boundaries is a fixed point of [RoundXY]: Down and Up
    leave every integer coordinate alone, and so does Nearest for
    coordinates of magnitude up to [2^23] (the negative zero becomes the
    positive zero). *)
Theorem RoundXY_fixes_pixel_boundaries (v : Vector2.t) (policy : Rounding.t) :
  valid_vector v -> on_pixel_boundary v ->
  (policy = Rounding.Nearest ->
   small_pixel (Vector2.x v) /\ small_pixel (Vector2.y v)) ->
  RoundXY v policy = v.
Proof.
  intros [Hvx Hvy] [Hix Hiy] Hsmall. rewrite RoundXY_components.
  destruct v as [x y]. simpl in *.
  destruct policy; simpl.
  - reflexivity.
  - destruct (Hsmall eq_refl) as [[Hx1 Hx2] [Hy1 Hy2]].
    now rewrite !nearest_fixes_integers.
  - now rewrite !floor_fixes_integers.
  - now rewrite !ceil_fixes_integers.
Qed.

(** Between [2^23] and [2^24] every float is an integer, yet Nearest does
    not leave the odd ones alone: [x + 0.5f] is a tie that rounds to the
    even neighbour, so an odd coordinate [j] comes out as [j + 1]. *)
Theorem RoundXY_Nearest_moves_large_odd_integers (v : Vector2.t) (j : Z) :
  valid_vector v ->
  Z.odd j = true -> 2 ^ 23 < Z.abs j < 2 ^ 24 ->
  (F32.scaled (Vector2.x v) = Some (j * Dyadic.U) ->
   F32.scaled (Vector2.x (RoundXY v Rounding.Nearest)) = Some ((j + 1) * Dyadic.U)) /\
  (F32.scaled (Vector2.y v) = Some (j * Dyadic.U) ->
   F32.scaled (Vector2.y (RoundXY v Rounding.Nearest)) = Some ((j + 1) * Dyadic.U)).
Proof.
  intros [Hvx Hvy] Hodd Hj. rewrite RoundXY_components. simpl.
  assert (HU : Dyadic.U = 2 ^ 149) by reflexivity.
  assert (Hone : forall c : float32,
            F32.valid c = true -> F32.scaled c = Some (j * Dyadic.U) ->
            F32.scaled (F32.floor (F32.add c F32.half))
              = Some ((j + 1) * Dyadic.U)).
  { intros c Hv Hs.
    assert (Hf : F32.is_finite c = true)
      by (destruct c; try discriminate; reflexivity).
    destruct (nearest_integer c Hv Hf) as [_ Heq].
    rewrite Heq, (value_of_scaled _ _ Hs). f_equal.
    destruct (Z_lt_le_dec j 0) as [Hneg | Hpos].
    - replace (j * Dyadic.U) with (- ((- j) * Dyadic.U)) by lia.
      rewrite RN_add_half_mid_neg by lia.
      assert (Hodd' : Z.odd (- j) = true) by (now rewrite Z.odd_opp).
      rewrite Hodd'.
      replace (- ((- j - 1) * Dyadic.U)) with ((j + 1) * Dyadic.U) by lia.
      rewrite Z.div_mul by lia. reflexivity.
    - rewrite RN_add_half_mid_pos by lia. rewrite Hodd.
      rewrite Z.div_mul by lia. reflexivity. }
  split; intros Hs; now apply Hone.
Qed.

Lemma round_component_non_finite (policy : Rounding.t) (c : float32) :
  F32.is_finite c = false -> round_component policy c = c.
Proof.
  destruct c as [s | [] | | s m e]; intros Hf; try discriminate Hf;
    destruct policy; reflexivity.
Qed.

(** An infinite or NaN coordinate passes through every policy unchanged. *)
Theorem RoundXY_passes_non_finite (v : Vector2.t) (policy : Rounding.t) :
  (F32.is_finite (Vector2.x v) = false ->
   Vector2.x (RoundXY v policy) = Vector2.x v) /\
  (F32.is_finite (Vector2.y v) = false ->
   Vector2.y (RoundXY v policy) = Vector2.y v).
Proof.
  rewrite RoundXY_components. simpl.
  split; apply round_component_non_finite.
Qed.

Lemma round_component_error (policy : Rounding.t) (c : float32) :
  F32.valid c = true -> F32.is_finite c = true ->
  let moved := Dyadic.value (round_component policy c) - Dyadic.value c in
  - Dyadic.U < moved <= Dyadic.U /\
  (policy = Rounding.Down -> moved <= 0) /\
  (policy = Rounding.Up -> 0 <= moved < Dyadic.U) /\
  (policy = Rounding.None -> moved = 0).
Proof.
  intros Hv Hf moved. unfold moved.
  assert (HU : 0 < Dyadic.U) by reflexivity.
  destruct (value_props c Hv Hf) as (_ & Hr & Hb).
  pose proof (Z.div_mod (Dyadic.value c) Dyadic.U ltac:(lia)) as Hdm.
  pose proof (Z.mod_pos_bound (Dyadic.value c) Dyadic.U ltac:(lia)) as Hmb.
  pose proof (Z.div_mod (- Dyadic.value c) Dyadic.U ltac:(lia)) as Hdm'.
  pose proof (Z.mod_pos_bound (- Dyadic.value c) Dyadic.U ltac:(lia)) as Hmb'.
  destruct policy; simpl.
  - repeat split; try discriminate; lia.
  - rewrite nearest_finite by assumption.
    destruct (nearest_representable _ Hr Hb) as (_ & _ & Hr' & Hb').
    destruct (to_float_props _ Hr' Hb') as (_ & _ & _ & Hval). rewrite Hval.
    pose proof (nearest_error _ Hr).
    repeat split; try discriminate; lia.
  - destruct (floor_integer c Hv Hf) as [_ Hs].
    rewrite (value_of_scaled _ _ Hs). fold Dyadic.U.
    repeat split; try discriminate; lia.
  - destruct (ceil_integer c Hv Hf) as [_ Hs].
    rewrite (value_of_scaled _ _ Hs). fold Dyadic.U.
    repeat split; try discriminate; lia.
Qed.

(** No policy moves a finite coordinate by more than one pixel: Down moves
    it down by less than one, Up moves it up by less than one, and Nearest
    moves it down by less than one or up by at most one. *)
Theorem RoundXY_moves_at_most_one_pixel (v : Vector2.t) (policy : Rounding.t) :
  valid_vector v -> finite_vector v ->
  let dx := Dyadic.value (Vector2.x (RoundXY v policy)) - Dyadic.value (Vector2.x v) in
  let dy := Dyadic.value (Vector2.y (RoundXY v policy)) - Dyadic.value (Vector2.y v) in
  (- Dyadic.U < dx <= Dyadic.U /\ - Dyadic.U < dy <= Dyadic.U) /\
  (policy = Rounding.Down -> dx <= 0 /\ dy <= 0) /\
  (policy = Rounding.Up -> 0 <= dx < Dyadic.U /\ 0 <= dy < Dyadic.U).
Proof.
  intros [Hvx Hvy] [Hfx Hfy]. rewrite RoundXY_components. simpl.
  destruct (round_component_error policy _ Hvx Hfx) as (Hx1 & Hx2 & Hx3 & _).
  destruct (round_component_error policy _ Hvy Hfy) as (Hy1 & Hy2 & Hy3 & _).
  repeat split; try tauto; intros Hp;
    first [ specialize (Hx2 Hp); lia | specialize (Hy2 Hp); lia
          | specialize (Hx3 Hp); lia | specialize (Hy3 Hp); lia ].
Qed.

(** [RoundXY] on a three-component vector rounds the first two components
    as on a two-component one, never touches the third, and is idempotent
    as well. *)
Theorem RoundXY_Vector3 (v : Vector3.t) (policy : Rounding.t) :
  F32.valid (Vector3.x v) = true -> F32.valid (Vector3.y v) = true ->
  RoundXY v policy =
    Vector3.mk (round_component policy (Vector3.x v))
               (round_component policy (Vector3.y v)) (Vector3.z v) /\
  RoundXY (RoundXY v policy) policy = RoundXY v policy.
Proof.
  intros Hx Hy.
  assert (Hc : forall u : Vector3.t,
            RoundXY u policy =
            Vector3.mk (round_component policy (Vector3.x u))
                       (round_component policy (Vector3.y u)) (Vector3.z u))
    by (intros []; destruct policy; reflexivity).
  split; [apply Hc|].
  rewrite !Hc. simpl. now rewrite !round_component_idem.
Qed.

Lemma floor_valid (x : float32) :
  F32.valid x = true -> F32.is_finite x = true -> F32.valid (F32.floor x) = true.
Proof.
  intros Hv Hf. destruct (value_props x Hv Hf) as (_ & Hr & Hb).
  destruct (floor_finite x Hv Hf) as [[Heq _] | Heq]; rewrite Heq.
  - exact Hv.
  - destruct (FL_representable _ Hr Hb) as [Hr' Hb'].
    now destruct (to_float_props _ Hr' Hb').
Qed.

Lemma round_component_valid (policy : Rounding.t) (c : float32) :
  F32.valid c = true -> F32.valid (round_component policy c) = true.
Proof.
  intros Hv. destruct (F32.is_finite c) eqn:Hf.
  2:{ now rewrite round_component_non_finite. }
  destruct policy; simpl.
  - exact Hv.
  - rewrite (nearest_finite c Hv Hf).
    destruct (value_props c Hv Hf) as (_ & Hr & Hb).
    destruct (nearest_representable _ Hr Hb) as (_ & _ & Hr' & Hb').
    now destruct (to_float_props _ Hr' Hb').
  - now apply floor_valid.
  - rewrite ceil_opp_floor, valid_opp. apply floor_valid.
    + now rewrite valid_opp.
    + now rewrite is_finite_opp.
Qed.

Lemma round_component_again (policy again : Rounding.t) (c : float32) :
  policy <> Rounding.None -> again <> Rounding.Nearest ->
  F32.valid c = true ->
  round_component again (round_component policy c) = round_component policy c.
Proof.
  intros Hp Ha Hv. destruct (F32.is_finite c) eqn:Hf.
  2:{ rewrite (round_component_non_finite policy c Hf).
      now apply round_component_non_finite. }
  pose proof (round_component_valid policy c Hv) as Hv'.
  destruct (round_component_integer policy c Hp Hv Hf) as [_ Hi].
  destruct again; simpl.
  - reflexivity.
  - congruence.
  - now apply floor_fixes_integers.
  - now apply ceil_fixes_integers.
Qed.

(** Once a point has been rounded, rounding it down or up changes nothing,
    whichever policy rounded it first: the first rounding decides, also for
    infinite and NaN coordinates. *)
Theorem RoundXY_rounded_point_is_fixed_by_Down_and_Up
    (v : Vector2.t) (policy again : Rounding.t) :
  policy <> Rounding.None -> again <> Rounding.Nearest ->
  valid_vector v ->
  RoundXY (RoundXY v policy) again = RoundXY v policy.
Proof.
  intros Hp Ha [Hvx Hvy]. rewrite !RoundXY_components. simpl.
  now rewrite !round_component_again.
Qed.

Lemma RoundXY_rounded_point_is_fixed_by_Down_and_Up_witness :
  Rounding.Nearest <> Rounding.None /\ Rounding.Up <> Rounding.Nearest /\
  valid_vector point_34_36 /\
  RoundXY (RoundXY point_34_36 Rounding.Nearest) Rounding.Up
  = RoundXY point_34_36 Rounding.Nearest.
Proof.
  assert (Hp : Rounding.Nearest <> Rounding.None) by discriminate.
  assert (Ha : Rounding.Up <> Rounding.Nearest) by discriminate.
  assert (Hv : valid_vector point_34_36) by (split; reflexivity).
  split; [exact Hp | split; [exact Ha | split; [exact Hv |] ] ].
  exact (RoundXY_rounded_point_is_fixed_by_Down_and_Up point_34_36
           Rounding.Nearest Rounding.Up Hp Ha Hv).
Defined.

(** ** Instances of the further properties *)

Lemma dtor_restores_mode_found_at_construction_witness :
  engines sample_world !! 1%nat = Some sample_engine /\
  resolves sample_world None 1%nat /\
  exists (h : Draw2dHelper.t) (w1 : World Draw2d.t),
    Draw2dHelper.ctor sample_storage None true sample_world = Some (h, w1) /\
    forall (w2 : World Draw2d.t) (e2 : Draw2d.t),
      engines w2 !! 1%nat = Some e2 ->
      Draw2dHelper.dtor h w2
        = Some (tt, with_engine w2 1%nat
                      (SetDeferPrimitives e2 (GetDeferPrimitives sample_engine))) /\
      defer_mode (with_engine w2 1%nat
                    (SetDeferPrimitives e2 (GetDeferPrimitives sample_engine))) 1%nat
        = Some (GetDeferPrimitives sample_engine) /\
      (forall q : nat, q <> 1%nat ->
         engines (with_engine w2 1%nat
                    (SetDeferPrimitives e2 (GetDeferPrimitives sample_engine))) !! q
         = engines w2 !! q).
Proof.
  assert (H1 : engines sample_world !! 1%nat = Some sample_engine) by reflexivity.
  assert (H2 : resolves sample_world None 1%nat) by (right; split; reflexivity).
  split; [exact H1 | split; [exact H2 |] ].
  exact (dtor_restores_mode_found_at_construction sample_world 1%nat
           sample_engine None sample_storage true H1 H2).
Defined.

Lemma unnested_destruction_ends_in_outer_request_witness :
  engines sample_world !! 1%nat = Some sample_engine /\
  resolves sample_world (Some 1%nat) 1%nat /\
  resolves sample_world None 1%nat /\
  GetDeferPrimitives sample_engine = false /\
  exists (A B : Draw2dHelper.t) (w1 w2 w3 w4 : World Draw2d.t),
    Draw2dHelper.ctor sample_storage (Some 1%nat) true sample_world = Some (A, w1) /\
    Draw2dHelper.ctor sample_storage None false w1 = Some (B, w2) /\
    Draw2dHelper.dtor A w2 = Some (tt, w3) /\
    Draw2dHelper.dtor B w3 = Some (tt, w4) /\
    defer_mode w3 1%nat = Some (GetDeferPrimitives sample_engine) /\
    defer_mode w4 1%nat = Some true.
Proof.
  assert (H1 : engines sample_world !! 1%nat = Some sample_engine) by reflexivity.
  assert (H2 : resolves sample_world (Some 1%nat) 1%nat) by (left; reflexivity).
  assert (H3 : resolves sample_world None 1%nat) by (right; split; reflexivity).
  split; [exact H1 | split; [exact H2 | split; [exact H3 | split; [reflexivity|] ] ] ].
  exact (unnested_destruction_ends_in_outer_request sample_world 1%nat
           sample_engine (Some 1%nat) None sample_storage sample_storage
           true false H1 H2 H3).
Defined.

Lemma helpers_over_distinct_engines_are_independent_witness :
  1%nat <> 2%nat /\
  engines two_engine_world !! 1%nat = Some sample_engine /\
  engines two_engine_world !! 2%nat = Some second_engine /\
  exists (A B : Draw2dHelper.t) (w1 w2 w3 w4 : World Draw2d.t),
    Draw2dHelper.ctor sample_storage (Some 1%nat) true two_engine_world = Some (A, w1) /\
    Draw2dHelper.ctor sample_storage (Some 2%nat) false w1 = Some (B, w2) /\
    Draw2dHelper.dtor B w2 = Some (tt, w3) /\
    Draw2dHelper.dtor A w3 = Some (tt, w4) /\
    Draw2dHelper.m_previousDeferCalls A = GetDeferPrimitives sample_engine /\
    Draw2dHelper.m_previousDeferCalls B = GetDeferPrimitives second_engine /\
    defer_mode w1 2%nat = Some (GetDeferPrimitives second_engine) /\
    defer_mode w2 1%nat = Some true /\ defer_mode w2 2%nat = Some false /\
    defer_mode w3 1%nat = Some true /\
    defer_mode w3 2%nat = Some (GetDeferPrimitives second_engine) /\
    defer_mode w4 1%nat = Some (GetDeferPrimitives sample_engine) /\
    defer_mode w4 2%nat = Some (GetDeferPrimitives second_engine).
Proof.
  assert (H0 : 1%nat <> 2%nat) by discriminate.
  assert (H1 : engines two_engine_world !! 1%nat = Some sample_engine)
    by reflexivity.
  assert (H2 : engines two_engine_world !! 2%nat = Some second_engine)
    by reflexivity.
  split; [exact H0 | split; [exact H1 | split; [exact H2 |] ] ].
  exact (helpers_over_distinct_engines_are_independent two_engine_world
           1%nat 2%nat sample_engine second_engine sample_storage sample_storage
           true false H0 H1 H2).
Defined.


Lemma setter_arguments_reach_later_draws_witness :
  Draw2dHelper.m_draw2d sample_helper = Some 1%nat /\
  exists this' : Draw2dHelper.t,
    Draw2dHelper.run_setter sample_helper
      (Draw2dHelper.CallSetImagePixelRounding Rounding.Down) sample_world
    = Some (this', sample_world) /\
    reads_back (Draw2dHelper.CallSetImagePixelRounding Rounding.Down) this' /\
    forwards_to (E := Draw2d.t) this' 1%nat.
Proof.
  split; [reflexivity|].
  exact (setter_arguments_reach_later_draws sample_helper 1%nat
           (Draw2dHelper.CallSetImagePixelRounding Rounding.Down)
           sample_world eq_refl).
Defined.

Lemma different_setters_commute_witness :
  setter_index (Draw2dHelper.CallSetImagePixelRounding Rounding.Down)
    <> setter_index (Draw2dHelper.CallSetTextRotation F32.one) /\
  run_setters sample_helper
    [Draw2dHelper.CallSetImagePixelRounding Rounding.Down;
     Draw2dHelper.CallSetTextRotation F32.one] sample_world
  = run_setters sample_helper
      [Draw2dHelper.CallSetTextRotation F32.one;
       Draw2dHelper.CallSetImagePixelRounding Rounding.Down] sample_world.
Proof.
  assert (H0 : setter_index (Draw2dHelper.CallSetImagePixelRounding Rounding.Down)
                 <> setter_index (Draw2dHelper.CallSetTextRotation F32.one))
    by discriminate.
  split; [exact H0|].
  exact (different_setters_commute sample_helper
           (Draw2dHelper.CallSetImagePixelRounding Rounding.Down)
           (Draw2dHelper.CallSetTextRotation F32.one) sample_world H0).
Defined.

Lemma repeated_setter_last_wins_witness :
  setter_index (Draw2dHelper.CallSetTextRotation F32.one)
    = setter_index (Draw2dHelper.CallSetTextRotation F32.half) /\
  run_setters sample_helper
    [Draw2dHelper.CallSetTextRotation F32.one;
     Draw2dHelper.CallSetTextRotation F32.half] sample_world
  = run_setters sample_helper
      [Draw2dHelper.CallSetTextRotation F32.half] sample_world /\
  run_setters sample_helper
    [Draw2dHelper.CallSetTextRotation F32.half;
     Draw2dHelper.CallSetTextRotation F32.half] sample_world
  = run_setters sample_helper
      [Draw2dHelper.CallSetTextRotation F32.half] sample_world.
Proof.
  split; [reflexivity|].
  exact (repeated_setter_last_wins sample_helper
           (Draw2dHelper.CallSetTextRotation F32.one)
           (Draw2dHelper.CallSetTextRotation F32.half) sample_world eq_refl).
Defined.

Lemma Align_exact_on_integers_witness :
  Z.abs 10 <= 2 ^ 22 /\ Z.abs 20 <= 2 ^ 22 /\
  Z.abs 5 <= 2 ^ 22 /\ Z.abs 8 <= 2 ^ 22 /\
  F32.scaled (Vector2.x (Align (point 10 20) (point 5 8) HAlign.Center VAlign.Bottom))
    = Some (exact_x 10 5 HAlign.Center) /\
  F32.scaled (Vector2.y (Align (point 10 20) (point 5 8) HAlign.Center VAlign.Bottom))
    = Some (exact_y 20 8 VAlign.Bottom).
Proof.
  assert (Ha : Z.abs 10 <= 2 ^ 22) by lia.
  assert (Hb : Z.abs 20 <= 2 ^ 22) by lia.
  assert (Hc : Z.abs 5 <= 2 ^ 22) by lia.
  assert (Hd : Z.abs 8 <= 2 ^ 22) by lia.
  split; [exact Ha | split; [exact Hb | split; [exact Hc | split; [exact Hd |] ] ] ].
  exact (Align_exact_on_integers 10 20 5 8 HAlign.Center VAlign.Bottom
           Ha Hb Hc Hd).
Defined.

Lemma RoundXY_after_Align_on_pixels_witness :
  Z.abs 10 <= 2 ^ 22 /\ Z.abs 20 <= 2 ^ 22 /\
  Z.abs 6 <= 2 ^ 22 /\ Z.abs 8 <= 2 ^ 22 /\
  (HAlign.Center = HAlign.Center -> Z.even 6 = true) /\
  (VAlign.Center = VAlign.Center -> Z.even 8 = true) /\
  RoundXY (Align (point 10 20) (point 6 8) HAlign.Center VAlign.Center)
    Rounding.Nearest
  = Align (point 10 20) (point 6 8) HAlign.Center VAlign.Center.
Proof.
  assert (Ha : Z.abs 10 <= 2 ^ 22) by lia.
  assert (Hb : Z.abs 20 <= 2 ^ 22) by lia.
  assert (Hc : Z.abs 6 <= 2 ^ 22) by lia.
  assert (Hd : Z.abs 8 <= 2 ^ 22) by lia.
  assert (He : HAlign.Center = HAlign.Center -> Z.even 6 = true)
    by (intros _; reflexivity).
  assert (Hf : VAlign.Center = VAlign.Center -> Z.even 8 = true)
    by (intros _; reflexivity).
  split; [exact Ha | split; [exact Hb | split; [exact Hc | split; [exact Hd |
    split; [exact He | split; [exact Hf |] ] ] ] ] ].
  exact (RoundXY_after_Align_on_pixels 10 20 6 8 HAlign.Center VAlign.Center
           Rounding.Nearest Ha Hb Hc Hd He Hf).
Defined.

Lemma RoundXY_fixes_pixel_boundaries_witness :
  valid_vector (point 3 (-4)) /\ on_pixel_boundary (point 3 (-4)) /\
  (Rounding.Nearest = Rounding.Nearest ->
   small_pixel (Vector2.x (point 3 (-4))) /\
   small_pixel (Vector2.y (point 3 (-4)))) /\
  RoundXY (point 3 (-4)) Rounding.Nearest = point 3 (-4).
Proof.
  assert (Hv : valid_vector (point 3 (-4))) by (split; reflexivity).
  assert (Hi : on_pixel_boundary (point 3 (-4)))
    by (split; [exists 3 | exists (-4)]; reflexivity).
  assert (Hs : Rounding.Nearest = Rounding.Nearest ->
               small_pixel (Vector2.x (point 3 (-4))) /\
               small_pixel (Vector2.y (point 3 (-4))))
    by (intros _; split; (split; [discriminate | vm_compute; discriminate])).
  split; [exact Hv | split; [exact Hi | split; [exact Hs |] ] ].
  exact (RoundXY_fixes_pixel_boundaries (point 3 (-4)) Rounding.Nearest Hv Hi Hs).
Defined.

Lemma RoundXY_Nearest_moves_large_odd_integers_witness :
  valid_vector (point 8388609 8388609) /\
  Z.odd 8388609 = true /\ 2 ^ 23 < Z.abs 8388609 < 2 ^ 24 /\
  (F32.scaled (Vector2.x (point 8388609 8388609)) = Some (8388609 * Dyadic.U) ->
   F32.scaled (Vector2.x (RoundXY (point 8388609 8388609) Rounding.Nearest))
     = Some ((8388609 + 1) * Dyadic.U)) /\
  (F32.scaled (Vector2.y (point 8388609 8388609)) = Some (8388609 * Dyadic.U) ->
   F32.scaled (Vector2.y (RoundXY (point 8388609 8388609) Rounding.Nearest))
     = Some ((8388609 + 1) * Dyadic.U)).
Proof.
  assert (Hv : valid_vector (point 8388609 8388609)) by (split; reflexivity).
  assert (Ho : Z.odd 8388609 = true) by reflexivity.
  assert (Hj : 2 ^ 23 < Z.abs 8388609 < 2 ^ 24) by lia.
  split; [exact Hv | split; [exact Ho | split; [exact Hj |] ] ].
  exact (RoundXY_Nearest_moves_large_odd_integers (point 8388609 8388609)
           8388609 Hv Ho Hj).
Defined.

Lemma RoundXY_moves_at_most_one_pixel_witness :
  valid_vector point_34_36 /\ finite_vector point_34_36 /\
  let dx := Dyadic.value (Vector2.x (RoundXY point_34_36 Rounding.Nearest))
            - Dyadic.value (Vector2.x point_34_36) in
  let dy := Dyadic.value (Vector2.y (RoundXY point_34_36 Rounding.Nearest))
            - Dyadic.value (Vector2.y point_34_36) in
  (- Dyadic.U < dx <= Dyadic.U /\ - Dyadic.U < dy <= Dyadic.U) /\
  (Rounding.Nearest = Rounding.Down -> dx <= 0 /\ dy <= 0) /\
  (Rounding.Nearest = Rounding.Up -> 0 <= dx < Dyadic.U /\ 0 <= dy < Dyadic.U).
Proof.
  assert (Hv : valid_vector point_34_36) by (split; reflexivity).
  assert (Hf : finite_vector point_34_36) by (split; reflexivity).
  split; [exact Hv | split; [exact Hf |] ].
  exact (RoundXY_moves_at_most_one_pixel point_34_36 Rounding.Nearest Hv Hf).
Defined.

Lemma RoundXY_Vector3_witness :
  F32.valid (Vector3.x point3_34_36) = true /\
  F32.valid (Vector3.y point3_34_36) = true /\
  RoundXY point3_34_36 Rounding.Up =
    Vector3.mk (round_component Rounding.Up (Vector3.x point3_34_36))
               (round_component Rounding.Up (Vector3.y point3_34_36))
               (Vector3.z point3_34_36) /\
  RoundXY (RoundXY point3_34_36 Rounding.Up) Rounding.Up
  = RoundXY point3_34_36 Rounding.Up.
Proof.
  split; [reflexivity | split; [reflexivity |] ].
  exact (RoundXY_Vector3 point3_34_36 Rounding.Up eq_refl eq_refl).
Defined.
